(** * The script engine: parser, status reconciliation, retry and replay

    A shallow embedding of the script interpreter of package [script]
    (the engine file: [parse], [quoteArgs], [expandArgs],
    [Engine.conditionsActive], [Engine.runCommand], [checkStatus],
    [Engine.Execute], [Engine.ExecuteLine], [wrapLine], [Engine.ListConds]
    and [exponentialBackoff.get]) and of [checkName] of package
    [controller], and the properties of its specification.

    How the program is modelled:
    - Go strings are byte strings: [string], a list of 8-bit [ascii]
      characters.  Go [int] and [time.Duration] are [Z]; where the source
      can overflow ([lineno++], [RetryCount++], the product of the
      backoff) the wrap-around of 64 bits is written out.
    - A Go error is a value of the inductive type [error]; [errors.Is] and
      [errors.As] walk the tree of wrapped errors.
    - The registries [Engine.Cmds] and [Engine.Conds] are finite maps from
      names to capabilities.  A capability is a record of functions on the
      State: [Run] and [Eval] return the State that they leave.
    - The script is an in-memory text read line by line; the log writer
      is any type with a write that may fail.
    - A time stamp is a boolean (recorded, or the zero time); the text of
      an elapsed time is a constant of the [Formatter].
    - The context of the State is the value of [s.ctx.Err()].  It changes
      only when a capability changes it: a cancellation by the host while
      the engine waits is not modelled.
    - [sectionCmds] holds pointers in the source.  The model writes back
      to the list what is assigned to a command after it was appended.
    - The loops that may not end take fuel: [None] is the fuel running
      out.  A record of events (evaluations of conditions, runs, waits of
      the backoff) goes along with the State, to tell what was executed. *)

From Stdlib Require Import ZArith Ascii String List Bool Lia.
From stdpp Require Import base option list strings gmap sorting.

Local Open Scope Z_scope.

(** ** Go's [strings] package, on byte strings *)

Module strings.

(** [strings.ContainsRune(chars, rune(c))] for a byte [c] and ASCII [chars]. *)
Fixpoint ContainsRune (chars : string) (c : ascii) : bool :=
  match chars with
  | EmptyString => false
  | String d chars' => if Ascii.eqb d c then true else ContainsRune chars' c
  end.

(** [strings.ContainsAny(s, chars)] for ASCII [chars]. *)
Fixpoint ContainsAny (s chars : string) : bool :=
  match s with
  | EmptyString => false
  | String c s' => if ContainsRune chars c then true else ContainsAny s' chars
  end.

Definition HasPrefix (s p : string) : bool := String.prefix p s.

Definition HasSuffix (s p : string) : bool :=
  let n := String.length s in
  let m := String.length p in
  if (m <=? n)%nat then String.eqb (String.substring (n - m) m s) p else false.

Definition TrimSuffix (s p : string) : string :=
  if HasSuffix s p
  then String.substring 0 (String.length s - String.length p) s
  else s.

(** ASCII white space of [unicode.IsSpace]: tab, LF, VT, FF, CR, space.
    The multi-byte Unicode spaces are not decoded. *)
Definition isSpace (c : ascii) : bool :=
  let n := nat_of_ascii c in
  ((9 <=? n)%nat && (n <=? 13)%nat) || (n =? 32)%nat.

Fixpoint TrimLeftSpace (s : string) : string :=
  match s with
  | EmptyString => EmptyString
  | String c s' => if isSpace c then TrimLeftSpace s' else s
  end.

Fixpoint TrimRightSpace (s : string) : string :=
  match s with
  | EmptyString => EmptyString
  | String c s' =>
      match TrimRightSpace s' with
      | EmptyString => if isSpace c then EmptyString else String c EmptyString
      | t => String c t
      end
  end.

Definition TrimSpace (s : string) : string := TrimRightSpace (TrimLeftSpace s).

(** [strings.ReplaceAll(s, "'", "''")]: the only use in the engine replaces
    one byte [old] by the string [new]. *)
Fixpoint ReplaceAll (s : string) (old : ascii) (new : string) : string :=
  match s with
  | EmptyString => EmptyString
  | String c s' =>
      if Ascii.eqb c old then new +:+ ReplaceAll s' old new
      else String c (ReplaceAll s' old new)
  end.

(** [strings.Cut(s, sep)] for a one-byte separator: the text before and
    after the first [sep], and whether [sep] was found. *)
Fixpoint Cut (s : string) (sep : ascii) : string * string * bool :=
  match s with
  | EmptyString => (EmptyString, EmptyString, false)
  | String c s' =>
      if Ascii.eqb c sep then (EmptyString, s', true)
      else let '(b, a, found) := Cut s' sep in
           if found then (String c b, a, true) else (String c b, EmptyString, false)
  end.

(** [strings.TrimLeft(s, cutset)] for a cutset of one byte. *)
Fixpoint TrimLeft (s : string) (cut : ascii) : string :=
  match s with
  | EmptyString => EmptyString
  | String c s' => if Ascii.eqb c cut then TrimLeft s' cut else s
  end.

(** The slice [s[lo:hi]]. *)
Definition slice (s : string) (lo hi : Z) : string :=
  String.substring (Z.to_nat lo) (Z.to_nat (hi - lo)) s.

Definition len (s : string) : Z := Z.of_nat (String.length s).

End strings.

(** ** Errors

    Modelled from the spec: the error values of the package ([stopError],
    [waitError], [CommandError], [ErrUnexpectedSuccess]) are declared in a
    file of the package that is not part of the engine file; the spec's
    taxonomy of errors (stop signal, background-wait error wrapping a
    detached task's failure, command error with location, unexpected
    success, cancellation and deadline) gives the constructors.  [Errorf]
    and [Errorf2] are [fmt.Errorf] with one and with two [%w] verbs;
    [errorString] is [errors.New]. *)

Inductive error : Type :=
| errorString (msg : string)
| Errorf (prefix : string) (err : error)
| Errorf2 (err1 err2 : error)
| ParseError
| ErrUnexpectedSuccess
| context_Canceled
| context_DeadlineExceeded
| stopError (msg : string)
| waitError (err : error)
| CommandError (File : string) (Line : Z) (Op : string) (Args : list string)
               (Err : error).

Module errors.

Definition New (msg : string) : error := errorString msg.

(** The depth-first, pre-order walk of the tree of wrapped errors that
    [errors.Is] and [errors.As] perform, with [p] the match on one node. *)
Fixpoint find (p : error -> bool) (err : error) : option error :=
  if p err then Some err else
  match err with
  | Errorf _ e => find p e
  | Errorf2 e1 e2 =>
      match find p e1 with
      | Some r => Some r
      | None => find p e2
      end
  | waitError e => find p e
  | CommandError _ _ _ _ e => find p e
  | _ => None
  end.

Definition isStop (e : error) : bool :=
  match e with stopError _ => true | _ => false end.
Definition isWait (e : error) : bool :=
  match e with waitError _ => true | _ => false end.
Definition isCommandError (e : error) : bool :=
  match e with CommandError _ _ _ _ _ => true | _ => false end.
Definition isCanceled (e : error) : bool :=
  match e with context_Canceled => true | _ => false end.
Definition isDeadlineExceeded (e : error) : bool :=
  match e with context_DeadlineExceeded => true | _ => false end.
Definition isParseError (e : error) : bool :=
  match e with ParseError => true | _ => false end.

(** [errors.As(err, &stopError{})] and the like: the first node of that
    type, when there is one. *)
Definition As_stopError (err : error) : option error := find isStop err.
Definition As_waitError (err : error) : option error := find isWait err.
Definition As_CommandError (err : error) : option error := find isCommandError err.

(** [errors.Is(err, context.Canceled)], [errors.Is(err, context.DeadlineExceeded)]. *)
Definition Is_Canceled (err : error) : bool := bool_decide (is_Some (find isCanceled err)).
Definition Is_DeadlineExceeded (err : error) : bool :=
  bool_decide (is_Some (find isDeadlineExceeded err)).

(** [errors.Is(err, ParseError)]. *)
Definition Is_ParseError (err : error) : bool := bool_decide (is_Some (find isParseError err)).

End errors.

(** ** The parsed command *)

Inductive expectedStatus : Type :=
| success                (* the empty marker *)
| failure                (* the marker is a bang *)
| successOrFailure       (* a question mark *)
| successRetryOnFailure  (* a star *)
| failureRetryOnSuccess. (* a bang and a star *)

Global Instance expectedStatus_eq_dec : EqDecision expectedStatus.
Proof. solve_decision. Defined.

(** [expectedStatus(arg)] when it is one of the four markers of the [switch]. *)
Definition statusMarker (arg : string) : option expectedStatus :=
  if String.eqb arg "!" then Some failure
  else if String.eqb arg "?" then Some successOrFailure
  else if String.eqb arg "*" then Some successRetryOnFailure
  else if String.eqb arg "!*" then Some failureRetryOnSuccess
  else None.

Record argFragment : Type := mkFrag {
  frag_s : string;     (* field [s] *)
  frag_quoted : bool   (* field [quoted]: if true, disable variable expansion for this fragment *)
}.

Record condition : Type := mkCond {
  cwant : bool;   (* field [want] of [condition] *)
  tag : string
}.

Record command : Type := mkCommand {
  file : string;
  line : Z;
  want : expectedStatus;
  conds : list condition;
  name : string;
  rawArgs : list (list argFragment);
  origArgs : list string;
  args : list string;
  background : bool
}.

Global Instance argFragment_eq_dec : EqDecision argFragment.
Proof. solve_decision. Defined.
Global Instance condition_eq_dec : EqDecision condition.
Proof. solve_decision. Defined.
Global Instance command_eq_dec : EqDecision command.
Proof. solve_decision. Defined.

Definition set_want (w : expectedStatus) (c : command) : command :=
  mkCommand (file c) (line c) w (conds c) (name c) (rawArgs c) (origArgs c) (args c) (background c).
Definition set_conds (cs : list condition) (c : command) : command :=
  mkCommand (file c) (line c) (want c) cs (name c) (rawArgs c) (origArgs c) (args c) (background c).
Definition set_name (n : string) (c : command) : command :=
  mkCommand (file c) (line c) (want c) (conds c) n (rawArgs c) (origArgs c) (args c) (background c).
Definition set_rawArgs (r : list (list argFragment)) (c : command) : command :=
  mkCommand (file c) (line c) (want c) (conds c) (name c) r (origArgs c) (args c) (background c).
Definition set_origArgs (a : list string) (c : command) : command :=
  mkCommand (file c) (line c) (want c) (conds c) (name c) (rawArgs c) a (args c) (background c).
Definition set_args (a : list string) (c : command) : command :=
  mkCommand (file c) (line c) (want c) (conds c) (name c) (rawArgs c) (origArgs c) a (background c).
Definition set_background (b : bool) (c : command) : command :=
  mkCommand (file c) (line c) (want c) (conds c) (name c) (rawArgs c) (origArgs c) (args c) b.

Definition argSepChars : string :=
  String " " (String "009" (String "013" (String "010" (String "#" EmptyString)))).

Definition squote : ascii := "'"%char.

(** ** [parse]

    [flushArg] is the closure of [parse]: it consumes the fragments of the
    current argument.  It returns the updated command; the caller resets
    [rawArg] to nil (the closure's deferred reset). *)

Definition flushArg (cmd : command) (rawArg : list argFragment) : error + command :=
  match rawArg with
  | [] => inr cmd (* Nothing to flush. *)
  | f :: _ =>
      if String.eqb (name cmd) EmptyString && (length rawArg =? 1)%nat && negb (frag_quoted f) then
        let arg := frag_s f in
        match statusMarker arg with
        | Some w =>
            if decide (want cmd = success) then inr (set_want w cmd)
            else inl (errors.New "duplicated '!', '?', '*' or '!*' token")
        | None =>
            if strings.HasPrefix arg "[" && strings.HasSuffix arg "]" then
              let arg := strings.TrimSpace (strings.slice arg 1 (strings.len arg - 1)) in
              let '(w, arg) :=
                if strings.HasPrefix arg "!"
                then (false, strings.TrimSpace (strings.slice arg 1 (strings.len arg)))
                else (true, arg) in
              if String.eqb arg EmptyString then inl (errors.New "empty condition")
              else inr (set_conds (conds cmd ++ [mkCond w arg]) cmd)
            else if String.eqb arg EmptyString then inl (errors.New "empty command")
            else inr (set_name arg cmd)
        end
      else inr (set_rawArgs (rawArgs cmd ++ [rawArg]) cmd)
  end.

(** [addChunk ln rawArg start i quoted] is
    [append(rawArg, argFragment{s: line[start:i], quoted: quoted})]. *)
Definition addChunk (ln : string) (rawArg : list argFragment) (start i : Z) (q : bool)
  : list argFragment :=
  rawArg ++ [mkFrag (strings.slice ln start i) q].

(** The [for i := 0; ; i++] loop of [parse].  [rest] is [line[i:]]: the
    loop reads [line[i]] as its first byte, [i >= len(line)] is [rest]
    being empty, and the recursion is on [rest].  The result is the error
    returned from inside the loop, or the command at the [break]. *)
Fixpoint parseLoop (ln rest : string) (i : Z) (cmd : command)
    (rawArg : list argFragment) (start : Z) (inQuote : bool) {struct rest}
  : error + command :=
  match rest with
  | EmptyString =>
      if negb inQuote then
        (* Found arg-separating space. *)
        let rawArg := if 0 <=? start then addChunk ln rawArg start i false else rawArg in
        flushArg cmd rawArg
      else inl (errors.New "unterminated quoted argument")
  | String c rest' =>
      if negb inQuote && strings.ContainsRune argSepChars c then
        (* Found arg-separating space. *)
        let rawArg := if 0 <=? start then addChunk ln rawArg start i false else rawArg in
        match flushArg cmd rawArg with
        | inl e => inl e
        | inr cmd =>
            if Ascii.eqb c "#" then inr cmd
            else parseLoop ln rest' (i + 1) cmd [] (-1) inQuote
        end
      else if Ascii.eqb c squote then
        if negb inQuote then
          (* starting a quoted chunk *)
          let rawArg := if 0 <=? start then addChunk ln rawArg start i false else rawArg in
          parseLoop ln rest' (i + 1) cmd rawArg (i + 1) true
        else
          match rest' with
          | String c' rest'' =>
              if Ascii.eqb c' squote then
                (* 'foo''bar' means foo'bar; skip over the second quote *)
                parseLoop ln rest'' (i + 2) cmd (addChunk ln rawArg start i true) (i + 1) inQuote
              else
                (* ending a quoted chunk *)
                parseLoop ln rest' (i + 1) cmd (addChunk ln rawArg start i true) (i + 1) false
          | EmptyString =>
              parseLoop ln rest' (i + 1) cmd (addChunk ln rawArg start i true) (i + 1) false
          end
      else
        (* found character worth saving; make sure we're saving *)
        parseLoop ln rest' (i + 1) cmd rawArg (if start <? 0 then i else start) inQuote
  end.

(** The checks of [parse] after the loop: a line without a command name,
    and the trailing background marker. *)
Definition parseFinish (cmd : command) : error + option command :=
  if String.eqb (name cmd) EmptyString then
    if negb (bool_decide (want cmd = success)) || (0 <? length (conds cmd))%nat
       || (0 <? length (rawArgs cmd))%nat || background cmd
    then inl (errors.New "missing command")
    else inr None
  else
    let n := length (rawArgs cmd) in
    match last (rawArgs cmd) with
    | Some [f] =>
        if negb (frag_quoted f) && String.eqb (frag_s f) "&"
        then inr (Some (set_rawArgs (take (n - 1) (rawArgs cmd)) (set_background true cmd)))
        else inr (Some cmd)
    | _ => inr (Some cmd)
    end.

Definition newCommand (filename : string) (lineno : Z) : command :=
  mkCommand filename lineno success [] EmptyString [] [] [] false.

Definition parse (filename : string) (lineno : Z) (ln : string) : error + option command :=
  match parseLoop ln ln 0 (newCommand filename lineno) [] (-1) false with
  | inl e => inl e
  | inr cmd => parseFinish cmd
  end.

(** ** [quoteArgs] *)

Definition quoteArg (arg : string) : string :=
  if strings.ContainsAny arg (String squote argSepChars)
  then "'" +:+ strings.ReplaceAll arg squote "''" +:+ "'"
  else arg.

(** The loop of [quoteArgs] over [args[i:]], with the builder [b]. *)
Fixpoint quoteArgsLoop (b : string) (i : Z) (args : list string) : string :=
  match args with
  | [] => b
  | arg :: args' =>
      let b := if 0 <? i then b +:+ " " else b in
      quoteArgsLoop (b +:+ quoteArg arg) (i + 1) args'
  end.

Definition quoteArgs (args : list string) : string := quoteArgsLoop EmptyString 0 args.

(** The text of an argument: its fragments joined, without expansion (the
    [strings.Builder] loop of [Execute] that feeds [RegexpArgs]). *)
Definition joinFrags (frags : list argFragment) : string :=
  foldl (fun b frag => b +:+ frag_s frag) EmptyString frags.

Definition joinRawArgs (raw : list (list argFragment)) : list string :=
  map joinFrags raw.


(** ** [exponentialBackoff]

    [time.Duration] is an [int64]: the product wraps around. *)

Definition wrap64 (x : Z) : Z := (x + 2 ^ 63) `mod` 2 ^ 64 - 2 ^ 63.

Record exponentialBackoff : Type := mkBackoff {
  max : Z;
  interval : Z
}.

(** [get] returns the duration and the updated receiver. *)
Definition get (eb : exponentialBackoff) : Z * exponentialBackoff :=
  let d := interval eb in
  (d, mkBackoff (max eb) (Z.min (wrap64 (interval eb * 2)) (max eb))).

Definition Millisecond : Z := 1000000.
Definition defaultRetryInterval : Z := 100 * Millisecond.
Definition defaultMaxRetryInterval : Z := 500 * Millisecond.

(** ** The engine *)

(** What the engine asks of the world, recorded in order: a call of a
    condition's [Eval], a call of a command's [Run], the resolution of a
    [WaitFunc] and a backoff wait.  The record is a ghost of the model: no
    capability can read or change it. *)
Inductive event : Type :=
| EvEval (tag suffix : string)
| EvRun (name : string) (args : list string)
| EvWait (name : string)
| EvSleep (d : Z).

Global Instance event_eq_dec : EqDecision event.
Proof. solve_decision. Defined.

(** The outcome of [pflag.FlagSet.Parse]: the help request ([pflag.ErrHelp]),
    another error, or the remaining positional arguments and the flag set. *)
Inductive flagParse (FlagSet : Type) : Type :=
| FlagHelp
| FlagErr (err : error)
| FlagOk (rest : list string) (fs : FlagSet).
Arguments FlagHelp {FlagSet}.
Arguments FlagErr {FlagSet} err.
Arguments FlagOk {FlagSet} rest fs.

(** Text formatting of package [fmt] and the reading of the clock. *)
Record Formatter : Type := mkFormatter {
  fmt_q : string -> string;      (* %q of a string *)
  fmt_d : Z -> string;           (* %d of an int *)
  fmt_v : error -> string;       (* %v of an error: its Error() text *)
  fmt_duration : Z -> string;    (* %s of a time.Duration *)
  fmt_since : string             (* %.3f of time.Since(t).Seconds() *)
}.

Section Engine.

(** The collaborators of the engine that are outside the engine file. *)
Context {Writer : Type}.          (* the io.Writer given to Execute *)
Context {WaitFunc : Type}.        (* completion handles *)
Context {FlagSet FlagDecl : Type}. (* pflag.FlagSet; the usage.Flags function *)
Context {Env : Type}.             (* working directory and variable bindings *)

(** Modelled from the spec: the State of one script execution, the fields
    the engine uses (the declaration is in another file of the package):
    cancellation context, section log buffer, last captured stdout and
    stderr, flags view, retry counter, registry of background tasks.  The
    context is read as [s.ctx.Err()]; it changes when a capability
    changes it. *)
Record State : Type := mkState {
  ctx : option error;
  log : string;
  stdout : string;
  stderr : string;
  Flags : option FlagSet;
  RetryCount : Z;
  retriesRequested : bool;
  backgroundCmds : list (command * WaitFunc);  (* field [background] *)
  env : Env
}.

Definition set_log (l : string) (s : State) : State :=
  mkState (ctx s) l (stdout s) (stderr s) (Flags s) (RetryCount s)
          (retriesRequested s) (backgroundCmds s) (env s).
Definition set_stdout (o : string) (s : State) : State :=
  mkState (ctx s) (log s) o (stderr s) (Flags s) (RetryCount s)
          (retriesRequested s) (backgroundCmds s) (env s).
Definition set_stderr (o : string) (s : State) : State :=
  mkState (ctx s) (log s) (stdout s) o (Flags s) (RetryCount s)
          (retriesRequested s) (backgroundCmds s) (env s).
Definition set_Flags (fs : option FlagSet) (s : State) : State :=
  mkState (ctx s) (log s) (stdout s) (stderr s) fs (RetryCount s)
          (retriesRequested s) (backgroundCmds s) (env s).
Definition set_RetryCount (n : Z) (s : State) : State :=
  mkState (ctx s) (log s) (stdout s) (stderr s) (Flags s) n
          (retriesRequested s) (backgroundCmds s) (env s).
Definition set_retriesRequested (b : bool) (s : State) : State :=
  mkState (ctx s) (log s) (stdout s) (stderr s) (Flags s) (RetryCount s)
          b (backgroundCmds s) (env s).
Definition set_backgroundCmds (l : list (command * WaitFunc)) (s : State) : State :=
  mkState (ctx s) (log s) (stdout s) (stderr s) (Flags s) (RetryCount s)
          (retriesRequested s) l (env s).

(** [s.Logf]: formatted text appended to the section log. *)
Definition Logf (text : string) (s : State) : State := set_log (log s +:+ text) s.

Record CmdUsage : Type := mkCmdUsage {
  Summary : string;
  Args : string;
  FlagsDecl : option FlagDecl;      (* field [Flags] *)
  Detail : list string;
  Async : bool;
  RegexpArgs : option (list string -> list Z)
}.

(** A command capability: [Run] may change the State and returns a
    [WaitFunc] (or nil) and an error (or nil). *)
Record Cmd : Type := mkCmd {
  Run : State -> list string -> State * option WaitFunc * option error;
  Usage : CmdUsage
}.

Record CondUsage : Type := mkCondUsage {
  CondSummary : string;             (* field [Summary] *)
  Prefix : bool
}.

Record Cond : Type := mkCondImpl {
  Eval : State -> string -> State * bool * option error;
  CondUsageOf : CondUsage           (* method [Usage] *)
}.

Record Engine : Type := mkEngine {
  Cmds : gmap string Cmd;
  Conds : gmap string Cond;
  Quiet : bool;
  RetryInterval : Z;
  MaxRetryInterval : Z
}.

(** The write of a text to the log writer: the writer after it, and the
    error of the write. *)
Variable Write : Writer -> string -> Writer * option error.
(** The call of a [WaitFunc]: State after it, stdout, stderr, error. *)
Variable callWait : WaitFunc -> State -> State * string * string * option error.
(** [State.ExpandEnv(s, inRegexp)]. *)
Variable ExpandEnv : State -> string -> bool -> string.
(** A fresh flag set named [name], with the declared flags registered,
    parsing [args]. *)
Variable pflagParse : string -> option FlagDecl -> list string -> flagParse FlagSet.
(** [Engine.ListCmds] into a fresh builder: the text and the error. *)
Variable ListCmds : Engine -> bool -> string -> string * option error.
Variable F : Formatter.

(** Modelled from the spec: [cmdError] (declared with the error types)
    wraps an error with the location, name and arguments of the command. *)
Definition cmdError (cmd : command) (err : error) : error :=
  CommandError (file cmd) (line cmd) (name cmd) (args cmd) err.

(** *** [checkStatus] *)

Definition checkStatus (cmd : command) (err : option error) : option error :=
  match err with
  | None =>
      if bool_decide (want cmd = failure) || bool_decide (want cmd = failureRetryOnSuccess)
      then Some (cmdError cmd ErrUnexpectedSuccess)
      else None
  | Some err =>
      if bool_decide (is_Some (errors.As_stopError err)) then
        (* This error originated in the Stop command. Propagate it as-is. *)
        Some (cmdError cmd err)
      else if bool_decide (is_Some (errors.As_waitError err)) then
        (* Surfaced from a background process by a call to Wait. *)
        Some (cmdError cmd err)
      else if bool_decide (want cmd = success) || bool_decide (want cmd = successRetryOnFailure) then
        Some (cmdError cmd err)
      else if (bool_decide (want cmd = failure) || bool_decide (want cmd = failureRetryOnSuccess))
              && (errors.Is_DeadlineExceeded err || errors.Is_Canceled err) then
        Some (cmdError cmd err)
      else None
  end.

(** *** [expandArgs] *)

Definition isRegexpArg (i : Z) (regexpArgs : list Z) : bool :=
  existsb (Z.eqb i) regexpArgs.

Definition expandFrags (st : State) (isRegexp : bool) (frags : list argFragment) : string :=
  foldl (fun b frag =>
           if frag_quoted frag then b +:+ frag_s frag
           else b +:+ ExpandEnv st (frag_s frag) isRegexp)
        EmptyString frags.

Fixpoint expandArgsFrom (st : State) (i : Z) (rawArgs : list (list argFragment))
    (regexpArgs : list Z) : list string :=
  match rawArgs with
  | [] => []
  | frags :: rest =>
      expandFrags st (isRegexpArg i regexpArgs) frags
        :: expandArgsFrom st (i + 1) rest regexpArgs
  end.

Definition expandArgs (st : State) (rawArgs : list (list argFragment))
    (regexpArgs : list Z) : list string :=
  expandArgsFrom st 0 rawArgs regexpArgs.

(** *** [Engine.conditionsActive] *)

(** The head of the loop body of [conditionsActive]: the capability that
    the tag of a condition names, with the suffix to pass to it. *)
Definition lookupCond (e : Engine) (cond : condition) : error + (Cond * string) :=
  let '(prefix, suffix, ok) := strings.Cut (tag cond) ":" in
  if ok then
    match Conds e !! prefix with
    | None => inl (errors.New ("unknown condition prefix " +:+ fmt_q F prefix))
    | Some impl =>
        if negb (Prefix (CondUsageOf impl))
        then inl (errors.New ("condition " +:+ fmt_q F prefix
                              +:+ " cannot be used with a suffix"))
        else inr (impl, suffix)
    end
  else
    match Conds e !! tag cond with
    | None => inl (errors.New ("unknown condition " +:+ fmt_q F (tag cond)))
    | Some impl =>
        if Prefix (CondUsageOf impl)
        then inl (errors.New ("condition " +:+ fmt_q F (tag cond)
                              +:+ " requires a suffix"))
        else inr (impl, suffix)
    end.

Fixpoint conditionsActive (e : Engine) (st : State) (tr : list event)
    (cs : list condition) : State * list event * bool * option error :=
  match cs with
  | [] => (st, tr, true, None)
  | cond :: cs' =>
      match lookupCond e cond with
      | inl err => (st, tr, false, Some err)
      | inr (impl, suffix) =>
          let '(st, active, err) := Eval impl st suffix in
          let tr := tr ++ [EvEval (tag cond) suffix] in
          match err with
          | Some err =>
              (st, tr, false,
               Some (Errorf ("evaluating condition " +:+ fmt_q F (tag cond) +:+ ": ") err))
          | None =>
              if negb (Bool.eqb active (cwant cond)) then (st, tr, false, None)
              else conditionsActive e st tr cs'
          end
      end
  end.

(** *** [Engine.runCommand]

    The command is a pointer in the source: [runCommand] assigns
    [cmd.args], so the updated command is returned with the State. *)

Definition LF : string := String "010" EmptyString.

Definition runCommand (e : Engine) (st : State) (tr : list event) (cmd : command)
    (impl : option Cmd) : State * list event * command * option error :=
  match impl with
  | None => (st, tr, cmd, Some (cmdError cmd (errors.New "unknown command")))
  | Some impl =>
      let usage := Usage impl in
      let async := Async usage in
      if background cmd && negb async then
        (st, tr, cmd, Some (cmdError cmd (errors.New "command cannot be run in background")))
      else
        (* Register and parse the flags. *)
        let parsed :=
          match pflagParse (name cmd) (FlagsDecl usage) (origArgs cmd) with
          | FlagHelp =>
              let '(out, err) := ListCmds e true ("^" +:+ name cmd +:+ "$") in
              let st := set_stdout out st in
              let st := if negb (String.eqb (stdout st) EmptyString)
                        then Logf ("[stdout]" +:+ LF +:+ stdout st) st else st in
              inl (st, err)
          | FlagErr err =>
              match FlagsDecl usage with
              | Some _ => inl (st, Some (cmdError cmd err))
              | None => inr (st, cmd)   (* the command might do its own argument parsing *)
              end
          | FlagOk rest fs => inr (set_Flags (Some fs) st, set_args rest cmd)
          end in
        match parsed with
        | inl (st, err) => (st, tr, cmd, err)
        | inr (st, cmd) =>
            let '(st, wait, runErr) := Run impl st (args cmd) in
            let tr := tr ++ [EvRun (name cmd) (args cmd)] in
            match wait with
            | None =>
                if async && bool_decide (runErr = None) then
                  (st, tr, cmd,
                   Some (cmdError cmd (errors.New "internal error: async command returned a nil WaitFunc")))
                else (st, tr, cmd, checkStatus cmd runErr)
            | Some wait =>
                match runErr with
                | Some _ =>
                    (st, tr, cmd,
                     Some (cmdError cmd
                       (errors.New "internal error: command returned both an error and a WaitFunc")))
                | None =>
                    if background cmd then
                      let st := set_backgroundCmds (backgroundCmds st ++ [(cmd, wait)]) st in
                      (* Clear stdout and stderr. *)
                      let st := set_stderr EmptyString (set_stdout EmptyString st) in
                      (st, tr, cmd, None)
                    else
                      let '(st, out, errOut, waitErr) := callWait wait st in
                      let tr := tr ++ [EvWait (name cmd)] in
                      let st := set_stderr errOut (set_stdout out st) in
                      let st := if negb (String.eqb out EmptyString)
                                then Logf ("[stdout]" +:+ LF +:+ out) st else st in
                      let st := if negb (String.eqb errOut EmptyString)
                                then Logf ("[stderr]" +:+ LF +:+ errOut) st else st in
                      match checkStatus cmd waitErr with
                      | Some cmdErr => (st, tr, cmd, Some cmdErr)
                      | None =>
                          match waitErr with
                          | Some werr =>
                              (* waitErr was expected (by cmd.want), so log it *)
                              (Logf ("[" +:+ fmt_v F werr +:+ "]" +:+ LF) st, tr, cmd, None)
                          | None => (st, tr, cmd, None)
                          end
                      end
                end
            end
        end
  end.

(** *** [Engine.Execute]

    The local variables of [Execute], with the State, the log writer and
    the record of events.  [s.logOut] is the [log] of [Execute] for the
    whole call: the frame holds that one writer as [out].  [script] is
    what is left to read; [sectionStart] tells whether a time stamp is
    recorded ([false] is the zero time). *)
Record frame : Type := mkFrame {
  st : State;
  calls : list event;
  out : Writer;
  script : string;
  lineno : Z;
  sectionStart : bool;
  sectionCmds : list command
}.

Definition set_st (s : State) (f : frame) : frame :=
  mkFrame s (calls f) (out f) (script f) (lineno f) (sectionStart f) (sectionCmds f).
Definition set_calls (tr : list event) (f : frame) : frame :=
  mkFrame (st f) tr (out f) (script f) (lineno f) (sectionStart f) (sectionCmds f).
Definition set_out (w : Writer) (f : frame) : frame :=
  mkFrame (st f) (calls f) w (script f) (lineno f) (sectionStart f) (sectionCmds f).
Definition set_script (r : string) (f : frame) : frame :=
  mkFrame (st f) (calls f) (out f) r (lineno f) (sectionStart f) (sectionCmds f).
Definition set_lineno (n : Z) (f : frame) : frame :=
  mkFrame (st f) (calls f) (out f) (script f) n (sectionStart f) (sectionCmds f).
Definition set_sectionStart (b : bool) (f : frame) : frame :=
  mkFrame (st f) (calls f) (out f) (script f) (lineno f) b (sectionCmds f).
Definition set_sectionCmds (l : list command) (f : frame) : frame :=
  mkFrame (st f) (calls f) (out f) (script f) (lineno f) (sectionStart f) l.

(** [io.WriteString(log, text)] and [fmt.Fprintf(log, ...)]. *)
Definition WriteString (text : string) (f : frame) : frame * option error :=
  let '(w, err) := Write (out f) text in (set_out w f, err).

(** Modelled from the spec: [State.FlushLog] (declared with the State)
    flushes the logs of the current section from [s.log] to the log
    writer and resets the buffer. *)
Definition FlushLog (f : frame) : frame * option error :=
  let '(f', err) := WriteString (log (st f)) f in
  (set_st (set_log EmptyString (st f')) f', err).

(** The closure [endSection]. *)
Definition endSection (e : Engine) (ok : bool) (f : frame) : frame * option error :=
  let '(f, err) :=
    if negb (sectionStart f) then
      (* no section header and no time stamp: just dump the whole log *)
      if (0 <? strings.len (log (st f))) then FlushLog f else (f, None)
    else if strings.len (log (st f)) =? 0 then
      WriteString LF f
    else
      (* Insert elapsed time for section at the end of the section's comment. *)
      let '(f, err) := WriteString (" (" +:+ fmt_since F +:+ "s)" +:+ LF) f in
      if bool_decide (err = None) && (negb ok || negb (Quiet e)) then FlushLog f
      else (set_st (set_log EmptyString (st f)) f, err) in
  (set_sectionCmds [] (set_sectionStart false f), err).

(** The closure [lineErr]. *)
Definition lineErr (fileName : string) (f : frame) (err : error) : error :=
  if bool_decide (is_Some (errors.As_CommandError err)) then err
  else Errorf (fileName +:+ ":" +:+ fmt_d F (lineno f) +:+ ": ") err.

(** [bufio.Reader.ReadString] with the newline as delimiter, on an
    in-memory script: the data up to and with the delimiter, what is
    left, and whether the end was hit before a delimiter ([io.EOF]). *)
Fixpoint ReadString (r : string) : string * string * bool :=
  match r with
  | EmptyString => (EmptyString, EmptyString, true)
  | String c r' =>
      if Ascii.eqb c "010" then (String c EmptyString, r', false)
      else let '(d, rest, eof) := ReadString r' in (String c d, rest, eof)
  end.

(** The [RegexpArgs] step of [Execute]: the raw arguments joined without
    expansion are passed to the capability's [RegexpArgs]. *)
Definition regexpArgsOf (impl : option Cmd) (cmd : command) : list Z :=
  match impl with
  | Some impl =>
      match RegexpArgs (Usage impl) with
      | Some ra => ra (joinRawArgs (rawArgs cmd))
      | None => []
      end
  | None => []
  end.

(** One replay of the section: the inner [for _, cmd := range sectionCmds]
    of the retry loop.  The commands are pointers: the list comes back
    with what [runCommand] assigned. *)
Fixpoint replay (e : Engine) (s : State) (tr : list event) (cmds : list command)
  : State * list event * list command * option error :=
  match cmds with
  | [] => (s, tr, [], None)
  | cmd :: rest =>
      let impl := Cmds e !! name cmd in
      let '(s, tr, cmd, err) := runCommand e s tr cmd impl in
      match err with
      | Some err => (s, tr, cmd :: rest, Some err)
      | None =>
          let '(s, tr, rest, err) := replay e s tr rest in
          (s, tr, cmd :: rest, err)
      end
  end.

(** The loop [for err != nil] that retries the whole section.  It is
    entered with a non-nil [err].  The result is [None] when the fuel
    runs out, else the frame and the error that [Execute] returns from
    inside the loop, if any. *)
Fixpoint retryLoop (fuel : nat) (e : Engine) (fileName ln : string) (f : frame)
    (backoff : exponentialBackoff) : option (frame * option error) :=
  match fuel with
  | O => None
  | S fuel =>
      let '(retryDuration, backoff) := get backoff in
      let '(f, _) := WriteString ("(command " +:+ fmt_q F ln +:+ " failed, retrying in "
                                  +:+ fmt_duration F retryDuration +:+ "...)" +:+ LF) f in
      match ctx (st f) with
      | Some cerr =>
          let f := set_st (set_RetryCount 0 (st f)) f in
          Some (f, Some (lineErr fileName f cerr))
      | None =>
          let f := set_calls (calls f ++ [EvSleep retryDuration]) f in
          let f := set_st (set_RetryCount (wrap64 (RetryCount (st f) + 1)) (st f)) f in
          let '(s, tr, cmds, err) := replay e (st f) (calls f) (sectionCmds f) in
          let f := set_sectionCmds cmds (set_calls tr (set_st s f)) in
          let '(f, _) := FlushLog f in
          match err with
          | Some _ => retryLoop fuel e fileName ln f backoff
          | None => Some (f, None)
          end
      end
  end.

(** The main [for] loop of [Execute] and the statements after it.  Each
    turn of the loop and each retry takes one unit of fuel; [None] is
    the fuel running out. *)
Fixpoint mainLoop (fuel : nat) (e : Engine) (fileName : string)
    (retryInterval maxRetryInterval : Z) (f : frame) : option (frame * option error) :=
  match fuel with
  | O => None
  | S fuel =>
    match ctx (st f) with
    | Some cerr =>
        (* not produced by any particular command: no CommandError *)
        Some (f, Some (lineErr fileName f cerr))
    | None =>
      let '(ln, rest, eof) := ReadString (script f) in
      let f := set_script rest f in
      if eof && String.eqb ln EmptyString then
        (* Reached the end of the script. *)
        let '(f, err) := endSection e true f in
        match err with
        | Some err => Some (f, Some (lineErr fileName f err))
        | None => Some (f, None)
        end
      else
        let ln := strings.TrimSuffix ln LF in
        let f := set_lineno (wrap64 (lineno f + 1)) f in
        if strings.HasPrefix ln "#" then
          match endSection e true f with
          | (f, Some err) => Some (f, Some (lineErr fileName f err))
          | (f, None) =>
              (* Log the section start without a newline. *)
              let '(f, err) := WriteString ln f in
              let f := set_sectionStart true f in
              match err with
              | Some err => Some (f, Some (lineErr fileName f err))
              | None => mainLoop fuel e fileName retryInterval maxRetryInterval f
              end
          end
        else
          match parse fileName (lineno f) ln with
          | inr None => mainLoop fuel e fileName retryInterval maxRetryInterval f
          | inl perr =>
              let f := set_st (Logf ("> " +:+ ln +:+ LF) (st f)) f in
              Some (f, Some (lineErr fileName f (Errorf2 ParseError perr)))
          | inr (Some cmd) =>
              let before := sectionCmds f in
              let f := set_sectionCmds (before ++ [cmd]) f in
              let f := set_st (Logf ("> " +:+ ln +:+ LF) (st f)) f in
              (* Evaluate condition guards. *)
              let '(s, tr, ok, err) := conditionsActive e (st f) (calls f) (conds cmd) in
              let f := set_calls tr (set_st s f) in
              match err with
              | Some err => Some (f, Some (lineErr fileName f err))
              | None =>
                if negb ok then
                  let f := set_st (Logf ("[condition not met]" +:+ LF) (st f)) f in
                  mainLoop fuel e fileName retryInterval maxRetryInterval f
                else
                  let impl := Cmds e !! name cmd in
                  (* Expand variables in arguments. *)
                  let regexpArgs := regexpArgsOf impl cmd in
                  let expanded := expandArgs (st f) (rawArgs cmd) regexpArgs in
                  let cmd := set_args expanded (set_origArgs expanded cmd) in
                  let s := set_RetryCount 0 (st f) in
                  let s := set_retriesRequested
                             (bool_decide (want cmd = successRetryOnFailure)
                              || bool_decide (want cmd = failureRetryOnSuccess)) s in
                  (* Run the command. *)
                  let '(s, tr, cmd, err) := runCommand e s (calls f) cmd impl in
                  let f := set_sectionCmds (before ++ [cmd]) (set_calls tr (set_st s f)) in
                  match err with
                  | None => mainLoop fuel e fileName retryInterval maxRetryInterval f
                  | Some err =>
                    if retriesRequested (st f) then
                      let retryStart := sectionStart f in
                      (* Clear the section start. *)
                      let f := set_sectionStart false f in
                      (* Append the new line that section start omitted and flush the log. *)
                      let '(f, _) := WriteString LF f in
                      let '(f, _) := FlushLog f in
                      (* Command wants retries. Retry the whole section *)
                      let backoff := mkBackoff maxRetryInterval retryInterval in
                      match retryLoop fuel e fileName ln f backoff with
                      | None => None
                      | Some (f, Some err) => Some (f, Some err)
                      | Some (f, None) =>
                          let '(f, _) :=
                            WriteString ("(command " +:+ fmt_q F ln +:+ " succeeded after "
                                         +:+ fmt_d F (RetryCount (st f)) +:+ " retries in "
                                         +:+ fmt_since F +:+ "s)" +:+ LF) f in
                          let f := set_st (set_RetryCount 0 (st f)) f in
                          mainLoop fuel e fileName retryInterval maxRetryInterval f
                      end
                    else
                      match errors.As_stopError err with
                      | Some stop =>
                          (* log the stop message separately from the section *)
                          let '(f, err) := endSection e true f in
                          let f := set_st (Logf (fmt_v F stop +:+ LF) (st f)) f in
                          match err with
                          | None => Some (f, None)
                          | Some err => Some (f, Some (lineErr fileName f err))
                          end
                      | None => Some (f, Some (lineErr fileName f err))
                      end
                  end
              end
          end
    end
  end.

(** [Execute]: the defaults of the retry intervals, the loop, and the
    deferred flush of the pending logs of the section, which sets the
    returned error when the flush fails and no error is returned yet.
    The result is the State, the record of events, the log writer and
    the returned error. *)
Definition Execute (fuel : nat) (e : Engine) (s : State) (fileName : string)
    (scriptText : string) (logW : Writer)
  : option (State * list event * Writer * option error) :=
  let retryInterval :=
    if RetryInterval e =? 0 then defaultRetryInterval else RetryInterval e in
  let maxRetryInterval :=
    if MaxRetryInterval e =? 0 then defaultMaxRetryInterval else MaxRetryInterval e in
  let f := mkFrame s [] logW scriptText 0 false [] in
  match mainLoop fuel e fileName retryInterval maxRetryInterval f with
  | None => None
  | Some (f, err) =>
      (* In case of failure or panic, flush any pending logs for the section. *)
      let lineErrNow := lineErr fileName f in
      let '(f, sErr) := endSection e false f in
      let err :=
        match sErr, err with
        | Some sErr, None => Some (lineErrNow sErr)
        | _, _ => err
        end in
      Some (st f, calls f, out f, err)
  end.

(** *** [Engine.ExecuteLine]

    One line, outside a script: no section, no [> line] echo, no retry
    loop, and the errors are returned as they are.  The deferred
    [s.FlushLog()] runs on every return, and its error is dropped. *)
Definition ExecuteLine (e : Engine) (s : State) (ln : string) (logW : Writer)
  : State * list event * Writer * option error :=
  let '(s, tr, err) :=
    match parse "<stdin>" 0 ln with
    | inr None => (s, [], None)
    | inl perr => (s, [], Some perr)
    | inr (Some cmd) =>
        (* Evaluate condition guards. *)
        let '(s, tr, ok, err) := conditionsActive e s [] (conds cmd) in
        match err with
        | Some err => (s, tr, Some err)
        | None =>
            if negb ok then (Logf ("[condition not met]" +:+ LF) s, tr, None)
            else
              let impl := Cmds e !! name cmd in
              (* Expand variables in arguments. *)
              let regexpArgs := regexpArgsOf impl cmd in
              let expanded := expandArgs s (rawArgs cmd) regexpArgs in
              let cmd := set_origArgs expanded (set_args expanded cmd) in
              (* Run the command. *)
              let '(s, tr, _, err) := runCommand e s tr cmd impl in
              match err with
              | Some err =>
                  match errors.As_stopError err with
                  | Some stop =>
                      (* [err] is not nil here: the test [err == nil] that
                         follows the log of the stop message never holds *)
                      (Logf (fmt_v F stop +:+ LF) s, tr, Some err)
                  | None => (s, tr, Some err)
                  end
              | None => (s, tr, None)
              end
        end
    end in
  let '(f, _) := FlushLog (mkFrame s tr logW EmptyString 0 false []) in
  (st f, calls f, out f, err).

(** *** [wrapLine]

    The inner loop [for i, r := range line] that looks for the place of
    the break.  The loop ranges over runes; a space is one byte in UTF-8
    and no byte of a longer rune is a space, so that the spaces and their
    byte offsets [i] are those of the walk over the bytes.  [rest] is
    [line[i:]]. *)
Fixpoint bestSpaceLoop (rest : string) (i cols bestSpace : Z) : Z :=
  match rest with
  | EmptyString => bestSpace
  | String r rest' =>
      if Ascii.eqb r " " then
        let bestSpace := if (i <=? cols) || (bestSpace <? 0) then i else bestSpace in
        if cols <? i then bestSpace (* break *)
        else bestSpaceLoop rest' (i + 1) cols bestSpace
      else bestSpaceLoop rest' (i + 1) cols bestSpace
  end.

Definition TAB : string := String "009" EmptyString.

(** The loop [for len(line) > cols] and the final write.  Each turn cuts
    at least one byte off the line; [None] is the fuel running out. *)
Fixpoint wrapLoop (fuel : nat) (w : Writer) (ln : string) (cols : Z) (indent : string)
  : option (Writer * option error) :=
  match fuel with
  | O => None
  | S fuel =>
      if cols <? strings.len ln then
        let bestSpace := bestSpaceLoop ln 0 cols (-1) in
        if bestSpace <? 0 then Some (Write w (indent +:+ ln +:+ LF))
        else
          match Write w (indent +:+ strings.slice ln 0 bestSpace +:+ LF) with
          | (w, Some err) => Some (w, Some err)
          | (w, None) =>
              wrapLoop fuel w (strings.slice ln (bestSpace + 1) (strings.len ln)) cols indent
          end
      else Some (Write w (indent +:+ ln +:+ LF))
  end.

(** [wrapLine], with the fuel that the length of the line gives. *)
Definition wrapLine (w : Writer) (ln : string) (cols : Z) (indent : string)
  : option (Writer * option error) :=
  let ln := strings.TrimLeft ln " " in
  wrapLoop (S (String.length ln)) w ln cols indent.

(** *** [Engine.ListConds]

    [sort.Strings]: the names in increasing order of their bytes. *)
Definition sortStrings (l : list string) : list string :=
  merge_sort (fun a b => Is_true (String.leb a b)) l.

(** The text of one entry: [fmt.Fprintf(w, "[%s]%s\n\t%s\n", ...)]. *)
Definition condEntry (shown activeStr summary : string) : string :=
  "[" +:+ shown +:+ "]" +:+ activeStr +:+ LF +:+ TAB +:+ summary +:+ LF.

(** The mark of a condition that holds in the State [s]; without a State
    ([s == nil]) the condition is not evaluated.  The error of the
    evaluation is dropped. *)
Definition activeMark (impl : Cond) (s : option State) (tr : list event)
    (tg suffix : string) : option State * list event * string :=
  match s with
  | Some s =>
      let '(s, active, _) := Eval impl s suffix in
      (Some s, tr ++ [EvEval tg suffix], if active then " (active)" else EmptyString)
  | None => (None, tr, EmptyString)
  end.

(** The loop [for _, tag := range tags]. *)
Fixpoint listCondsLoop (e : Engine) (w : Writer) (s : option State) (tr : list event)
    (tags : list string) : Writer * option State * list event * option error :=
  match tags with
  | [] => (w, s, tr, None)
  | tg :: tags' =>
      let '(prefix, suffix, ok) := strings.Cut tg ":" in
      if ok then
        match Conds e !! prefix with
        | None => (w, s, tr, Some (errors.New ("unknown condition prefix " +:+ fmt_q F prefix)))
        | Some cond =>
            let usage := CondUsageOf cond in
            if negb (Prefix usage) then
              (w, s, tr, Some (errors.New ("condition " +:+ fmt_q F prefix
                                           +:+ " cannot be used with a suffix")))
            else
              let '(s, tr, activeStr) := activeMark cond s tr tg suffix in
              match Write w (condEntry tg activeStr (CondSummary usage)) with
              | (w, Some err) => (w, s, tr, Some err)
              | (w, None) => listCondsLoop e w s tr tags'
              end
        end
      else
        match Conds e !! tg with
        | None => (w, s, tr, Some (errors.New ("unknown condition " +:+ fmt_q F tg)))
        | Some cond =>
            let usage := CondUsageOf cond in
            let '(s, tr, text) :=
              if Prefix usage then (s, tr, condEntry (tg +:+ ":*") EmptyString (CondSummary usage))
              else
                let '(s, tr, activeStr) := activeMark cond s tr tg EmptyString in
                (s, tr, condEntry tg activeStr (CondSummary usage)) in
            match Write w text with
            | (w, Some err) => (w, s, tr, Some err)
            | (w, None) => listCondsLoop e w s tr tags'
            end
        end
  end.

(** [ListConds]: [tags] is [None] for the nil slice of a call without
    tags, which lists all the conditions registered in the engine. *)
Definition ListConds (e : Engine) (w : Writer) (s : option State) (tags : option (list string))
  : Writer * option State * list event * option error :=
  let tags :=
    match tags with
    | Some tags => tags
    | None => sortStrings (map fst (map_to_list (Conds e)))
    end in
  listCondsLoop e w s [] tags.

End Engine.

(** ** [checkName] of package [controller]

    The package variable [usedNames] is passed and returned: [None] is the
    nil set before the first call.  The mutex makes the calls atomic; the
    model is of calls one after the other. *)
Module controller.

Definition alreadyExists (name : string) : error :=
  errors.New ("controller with name " +:+ name +:+ " already exists. Controller names must be unique to avoid multiple controllers reporting the same metric. This validation can be disabled via the SkipNameValidation option").

Definition checkName (usedNames : option (gset string)) (name : string)
  : option (gset string) * option error :=
  let used := default ∅ usedNames in
  if bool_decide (name ∈ used) then (Some used, Some (alreadyExists name))
  else (Some ({[name]} ∪ used), None).

End controller.


(** ** Notions used to state the properties *)

(** The duration returned by the [N]-th call of [get] on a backoff
    ([N >= 1]): the wait before the [N]-th retry. *)
Fixpoint waitAt (eb : exponentialBackoff) (k : nat) : Z :=
  match k with
  | O => fst (get eb)
  | S k' => waitAt (snd (get eb)) k'
  end.

Definition nthWait (eb : exponentialBackoff) (N : nat) : Z := waitAt eb (N - 1).

(** The loop of [parse] told on the text still to read, with the current
    chunk [line[start:i]] held as a string ([None] when [start < 0]).
    [parseLoop_scan] below shows that it computes what [parseLoop] does;
    the properties of the parser are proved on it. *)
Definition addc (rawArg : list argFragment) (chunk : option string) (q : bool)
  : list argFragment :=
  match chunk with
  | Some ch => rawArg ++ [mkFrag ch q]
  | None => rawArg
  end.

Definition pushc (chunk : option string) (c : ascii) : option string :=
  match chunk with
  | Some ch => Some (ch +:+ String c EmptyString)
  | None => Some (String c EmptyString)
  end.

Fixpoint scan (rest : string) (cmd : command) (rawArg : list argFragment)
    (chunk : option string) (inQuote : bool) {struct rest} : error + command :=
  match rest with
  | EmptyString =>
      if negb inQuote then flushArg cmd (addc rawArg chunk false)
      else inl (errors.New "unterminated quoted argument")
  | String c rest' =>
      if negb inQuote && strings.ContainsRune argSepChars c then
        match flushArg cmd (addc rawArg chunk false) with
        | inl e => inl e
        | inr cmd => if Ascii.eqb c "#" then inr cmd else scan rest' cmd [] None inQuote
        end
      else if Ascii.eqb c squote then
        if negb inQuote then scan rest' cmd (addc rawArg chunk false) (Some EmptyString) true
        else
          match rest' with
          | String c' rest'' =>
              if Ascii.eqb c' squote
              then scan rest'' cmd (addc rawArg chunk true) (Some (String squote EmptyString)) inQuote
              else scan rest' cmd (addc rawArg chunk true) (Some EmptyString) false
          | EmptyString => scan rest' cmd (addc rawArg chunk true) (Some EmptyString) false
          end
      else scan rest' cmd rawArg (pushc chunk c) inQuote
  end.

(** The chunk that [start] and [i] denote. *)
Definition chunkOf (ln : string) (start i : Z) : option string :=
  if 0 <=? start then Some (strings.slice ln start i) else None.

(** A byte that is neither a separator nor a quote, and words of such bytes. *)
Definition plainChar (c : ascii) : bool :=
  negb (strings.ContainsRune argSepChars c) && negb (Ascii.eqb c squote).

Fixpoint plainWord (w : string) : bool :=
  match w with
  | EmptyString => true
  | String c w' => plainChar c && plainWord w'
  end.

(** A word that [flushArg] takes as the command name: not empty, not a
    status marker, not a bracketed condition. *)
Definition plainName (n : string) : bool :=
  negb (String.eqb n EmptyString) && plainWord n
  && negb (bool_decide (is_Some (statusMarker n)))
  && negb (strings.HasPrefix n "[" && strings.HasSuffix n "]").

Fixpoint hasByte (c : ascii) (t : string) : bool :=
  match t with
  | EmptyString => false
  | String d t' => Ascii.eqb d c || hasByte c t'
  end.

(** The fragments that the parser makes of a quoted region holding the
    text [t], when the chunk read so far in the region is [ch]: a doubled
    quote ends a fragment and starts the next one with a quote. *)
Fixpoint quotedFrags (ch t : string) : list argFragment :=
  match t with
  | EmptyString => [mkFrag ch true]
  | String c t' =>
      if Ascii.eqb c squote
      then mkFrag ch true :: quotedFrags (String squote EmptyString) t'
      else quotedFrags (ch +:+ String c EmptyString) t'
  end.

(** The fragments of an argument written by [quoteArg]. *)
Definition argFrags (arg : string) : list argFragment :=
  if strings.ContainsAny arg (String squote argSepChars)
  then quotedFrags EmptyString arg ++ [mkFrag EmptyString false]
  else [mkFrag arg false].

Definition SP : string := String " " EmptyString.

(** The text after a closing quote: the end of the line, or a byte that
    is not a quote. *)
Definition notQuoteNext (rest : string) : Prop :=
  match rest with
  | EmptyString => True
  | String c _ => Ascii.eqb c squote = false
  end.

(** What [quoteArgs] writes after the first argument: each argument after
    a space. *)
Fixpoint spaced (args : list string) : string :=
  match args with
  | [] => EmptyString
  | arg :: args' => SP +:+ quoteArg arg +:+ spaced args'
  end.

(** The reading step of the loop of [Execute]: the next line of the
    script without its newline and what is left to read, or [None] at the
    end of the script. *)
Definition nextLine (r : string) : option (string * string) :=
  let '(raw, rest, eof) := ReadString r in
  if eof && String.eqb raw EmptyString then None
  else Some (strings.TrimSuffix raw LF, rest).

(** The expectation asks for retries ([*] and [!*]). *)
Definition wantsRetry (w : expectedStatus) : bool :=
  bool_decide (w = successRetryOnFailure) || bool_decide (w = failureRetryOnSuccess).

Definition isEval (ev : event) : bool :=
  match ev with EvEval _ _ => true | _ => false end.
(** The events of a dispatch: the call of [Run] and the call of the
    [WaitFunc]. *)
Definition isDispatch (ev : event) : bool :=
  match ev with EvRun _ _ | EvWait _ => true | _ => false end.

(** The backoff waits of a record of events, in order. *)
Definition sleepsOf (tr : list event) : list Z :=
  omap (fun ev => match ev with EvSleep d => Some d | _ => None end) tr.

(** A command capability that always succeeds: its [Run] returns no error,
    and the [WaitFunc] that it returns, if any, resolves to no error; it
    leaves the engine's retry flag alone. *)
Definition alwaysSucceeds {WaitFunc FlagSet FlagDecl Env : Type}
    (callWait : WaitFunc -> @State WaitFunc FlagSet Env
                -> @State WaitFunc FlagSet Env * string * string * option error)
    (impl : @Cmd WaitFunc FlagSet FlagDecl Env) : Prop :=
  forall s a,
    (Async (Usage impl) = false
     /\ exists s', Run impl s a = (s', None, None)
                   /\ retriesRequested s' = retriesRequested s)
    \/ (exists s' w s'' o eo,
           Run impl s a = (s', Some w, None)
           /\ callWait w s' = (s'', o, eo, None)
           /\ retriesRequested s'' = retriesRequested s).

(** ** A concrete host: in-memory writer, immediate completion handles,
    a few commands and conditions *)

Module Host.

(** The log writer is a buffer; a buffer with [room = Some n] accepts [n]
    more writes and then fails (a closed pipe). *)
Record buffer : Type := mkBuffer { written : string; room : option nat }.

Definition Write (w : buffer) (text : string) : buffer * option error :=
  match room w with
  | Some O => (w, Some (errors.New "write on closed pipe"))
  | Some (S n) => (mkBuffer (written w +:+ text) (Some n), None)
  | None => (mkBuffer (written w +:+ text) None, None)
  end.

(** A completion handle holds the result it resolves to. *)
Record handle : Type := mkHandle {
  h_stdout : string; h_stderr : string; h_err : option error
}.

(** Variable bindings, and a counter that some commands read and change. *)
Record hostEnv : Type := mkEnv { vars : list (string * string); counter : nat }.

Definition state : Type := @State handle unit hostEnv.

Definition callWait (h : handle) (s : state) : state * string * string * option error :=
  (s, h_stdout h, h_stderr h, h_err h).

Fixpoint lookupVar (k : string) (l : list (string * string)) : string :=
  match l with
  | [] => EmptyString
  | (k', v) :: l' => if String.eqb k k' then v else lookupVar k l'
  end.

(** A fragment that is one variable reference [$name] expands to the
    binding; other fragments are kept. *)
Definition ExpandEnv (s : state) (text : string) (inRegexp : bool) : string :=
  match text with
  | String "$" k => lookupVar k (vars (env s))
  | _ => text
  end.

Definition pflagParse (cmdName : string) (decl : option unit) (args : list string)
  : flagParse unit :=
  if existsb (String.eqb "--help") args then FlagHelp else FlagOk args tt.

Definition ListCmds (e : @Engine handle unit unit hostEnv) (verbose : bool) (re : string)
  : string * option error := ("usage", None).

Definition F : Formatter :=
  mkFormatter (fun t => "<" +:+ t +:+ ">") (fun _ => "N")
              (fun e => match e with stopError m => "stop: " +:+ m | _ => "error" end)
              (fun _ => "D") "0.000".


Definition cmd := @Cmd handle unit unit hostEnv.
Definition cond := @Cond handle unit hostEnv.
Definition usage (async : bool) : @CmdUsage unit :=
  mkCmdUsage EmptyString EmptyString None [] async None.

Definition set_env (v : hostEnv) (s : state) : state :=
  mkState (ctx s) (log s) (stdout s) (stderr s) (Flags s) (RetryCount s)
          (retriesRequested s) (backgroundCmds s) v.

(** A command that always succeeds. *)
Definition ok_cmd : cmd := mkCmd (fun s _ => (s, None, None)) (usage false).
(** A command that always fails. *)
Definition fail_cmd : cmd :=
  mkCmd (fun s _ => (s, None, Some (errors.New "failed"))) (usage false).
(** The stop command: its error is the stop signal with the message. *)
Definition stop_cmd : cmd :=
  mkCmd (fun s a => (s, None, Some (stopError (String.concat " " a)))) (usage false).
(** Prints its arguments through a completion handle. *)
Definition echo_cmd : cmd :=
  mkCmd (fun s a => (s, Some (mkHandle (String.concat " " a) EmptyString None), None))
        (usage true).
(** Fails while the counter is positive, and counts down. *)
Definition flaky_cmd : cmd :=
  mkCmd (fun s _ =>
           match counter (env s) with
           | O => (s, None, None)
           | S n => (set_env (mkEnv (vars (env s)) n) s, None, Some (errors.New "not yet"))
           end) (usage false).
(** Succeeds when the counter is even; counts up. *)
Definition even_cmd : cmd :=
  mkCmd (fun s _ =>
           (set_env (mkEnv (vars (env s)) (S (counter (env s)))) s, None,
            if Nat.even (counter (env s)) then None else Some (errors.New "odd")))
        (usage false).
(** Succeeds when the counter is at least three. *)
Definition ge3_cmd : cmd :=
  mkCmd (fun s _ =>
           (s, None, if (3 <=? counter (env s))%nat then None else Some (errors.New "too small")))
        (usage false).
(** [setenv k v] binds a variable. *)
Definition setenv_cmd : cmd :=
  mkCmd (fun s a =>
           match a with
           | [k; v] => (set_env (mkEnv ((k, v) :: vars (env s)) (counter (env s))) s, None, None)
           | _ => (s, None, Some (errors.New "usage: setenv key value"))
           end) (usage false).

Definition always (b : bool) : cond :=
  mkCondImpl (fun s _ => (s, b, None)) (mkCondUsage EmptyString false).

Definition engine : @Engine handle unit unit hostEnv :=
  mkEngine
    (<["cmd1" := ok_cmd]> (<["cmd2" := ok_cmd]> (<["cmd" := ok_cmd]>
     (<["that-command" := ok_cmd]> (<["false" := fail_cmd]> (<["stop" := stop_cmd]>
     (<["echo" := echo_cmd]> (<["flaky" := flaky_cmd]> (<["setenv" := setenv_cmd]>
     (<["even" := even_cmd]> (<["ge3" := ge3_cmd]> ∅)))))))))))
    (<["always-false" := always false]> (<["always-true" := always true]> ∅))
    false 0 0.

Definition init (n : nat) : state :=
  mkState None EmptyString EmptyString EmptyString None 0 false [] (mkEnv [] n).

Definition newBuffer : buffer := mkBuffer EmptyString None.

Definition run (fuel : nat) (s : state) (scriptText : string) (w : buffer) :=
  Execute Write callWait ExpandEnv pflagParse ListCmds F fuel engine s "t.txt" scriptText w.

Definition lines (l : list string) : string := String.concat (String "010" EmptyString) l.

(** The engine of the host with [Quiet] set. *)
Definition quietEngine : @Engine handle unit unit hostEnv :=
  mkEngine (Cmds engine) (Conds engine) true 0 0.

Definition runLine (s : state) (ln : string) (w : buffer) :=
  ExecuteLine Write callWait ExpandEnv pflagParse ListCmds F engine s ln w.

(** The frame of [Execute] on the script
    [# s / [always-false] echo $X / * flaky], started with the counter at
    two, when the retry loop is entered: the first line of the section
    was skipped, the second one has failed once. *)
Definition skippedEcho : command :=
  mkCommand "t.txt" 2 success [mkCond true "always-false"] "echo" [[mkFrag "$X" false]]
            [] [] false.
Definition flakyLine : command :=
  mkCommand "t.txt" 3 successRetryOnFailure [] "flaky" [] [] [] false.
Definition retryFrame : @frame buffer handle unit hostEnv :=
  mkFrame (mkState None EmptyString EmptyString EmptyString (Some tt) 0 true [] (mkEnv [] 1))
          [EvEval "always-false" EmptyString; EvRun "flaky" []]
          (mkBuffer (lines ["# s"; "> [always-false] echo $X"; "[condition not met]";
                            "> * flaky"; EmptyString]) None)
          EmptyString 3 false [skippedEcho; flakyLine].

End Host.
(** ** Further notions used to state the properties *)

(** The number of bytes [c] in a text. *)
Fixpoint countByte (c : ascii) (t : string) : nat :=
  match t with
  | EmptyString => O
  | String d t' => if Ascii.eqb d c then S (countByte c t') else countByte c t'
  end.

(** What may follow a token: the end of the line or a separator. *)
Definition tokenEnd (tail : string) : bool :=
  match tail with
  | EmptyString => true
  | String c _ => strings.ContainsRune argSepChars c
  end.

(** A text of white space: spaces, tabs, carriage returns and newlines. *)
Fixpoint blank (t : string) : bool :=
  match t with
  | EmptyString => true
  | String c t' => strings.ContainsRune argSepChars c && negb (Ascii.eqb c "#") && blank t'
  end.

(** What [flushArg] keeps true of the command: each raw argument has a
    fragment, each condition has a tag. *)
Definition wellFormed (cmd : command) : Prop :=
  Forall (fun a => a <> []) (rawArgs cmd)
  /\ Forall (fun c => tag c <> EmptyString) (conds cmd).

(** An error that carries a location: it is or wraps a command error, or
    its text begins with the file and a line number. *)
Definition located (F : Formatter) (fileName : string) (err : error) : Prop :=
  is_Some (errors.As_CommandError err)
  \/ exists n inner, err = Errorf (fileName +:+ ":" +:+ fmt_d F n +:+ ": ") inner.

(** A writer that keeps the texts written to it, in order, and never
    fails. *)
Definition recWrite (w : list string) (text : string) : list string * option error :=
  (w ++ [text], None).

(** The text that [wrapLine] writes for one line of the wrapped text. *)
Definition wrapped (indent l : string) : string := indent +:+ l +:+ LF.

(** The entry that [ListConds] writes for the registered condition
    [name], with [mark] for the mark of an active condition. *)
Definition condLine {WaitFunc FlagSet FlagDecl Env : Type}
    (e : @Engine WaitFunc FlagSet FlagDecl Env) (name mark : string) : string :=
  match Conds e !! name with
  | Some c =>
      if Prefix (CondUsageOf c)
      then condEntry (name +:+ ":*") EmptyString (CondSummary (CondUsageOf c))
      else condEntry name mark (CondSummary (CondUsageOf c))
  | None => EmptyString
  end.

(** The names of the conditions registered in an engine. *)
Definition condNames {WaitFunc FlagSet FlagDecl Env : Type}
    (e : @Engine WaitFunc FlagSet FlagDecl Env) : list string :=
  map fst (map_to_list (Conds e)).

(** Calls of [checkName] for a list of names, one after the other: the
    set of used names after them, and the error of each call. *)
Fixpoint checkNames (used : option (gset string)) (names : list string)
  : option (gset string) * list (option error) :=
  match names with
  | [] => (used, [])
  | n :: names' =>
      let '(used, err) := controller.checkName used n in
      let '(used, errs) := checkNames used names' in
      (used, err :: errs)
  end.

(** A byte of the tag of a condition as it is written in a guard: an
    ASCII byte that is not white space, a separator or a quote. *)
Definition tagChar (c : ascii) : bool :=
  plainChar c && negb (strings.isSpace c) && (nat_of_ascii c <? 128)%nat.

Fixpoint tagWord (t : string) : bool :=
  match t with
  | EmptyString => true
  | String c t' => tagChar c && tagWord t'
  end.

Definition validTag (t : string) : bool :=
  tagWord t && negb (String.eqb t EmptyString) && negb (strings.HasPrefix t "!").

(** The text of a guard, and of the guards of a line. *)
Definition guardText (c : condition) : string :=
  "[" +:+ (if cwant c then EmptyString else "!") +:+ tag c +:+ "]".

Fixpoint guardsText (cs : list condition) : string :=
  match cs with
  | [] => EmptyString
  | c :: cs' => guardText c +:+ SP +:+ guardsText cs'
  end.

(** * Properties *)

(** ** Status reconciliation *)

Lemma checkStatus_nil cmd :
  checkStatus cmd None =
    if bool_decide (want cmd = failure) || bool_decide (want cmd = failureRetryOnSuccess)
    then Some (cmdError cmd ErrUnexpectedSuccess) else None.
Proof. reflexivity. Qed.

(** C4. Whatever the expected status of the awaiting line, an error that
    is (or wraps) the background-wait error is propagated by
    [checkStatus], wrapped with the location of the awaiting command. *)
Theorem checkStatus_waitError_propagated (cmd : command) (err : error) :
  is_Some (errors.As_waitError err) ->
  checkStatus cmd (Some err) = Some (cmdError cmd err).
Proof.
  intros Hw. unfold checkStatus.
  destruct (bool_decide (is_Some (errors.As_stopError err))); [reflexivity|].
  rewrite (bool_decide_eq_true_2 _ Hw). reflexivity.
Qed.

Lemma checkStatus_waitError_propagated_witness :
  is_Some (errors.As_waitError (waitError (errors.New "exit status 1")))
  /\ checkStatus (mkCommand "t.txt" 3 successOrFailure [] "wait" [] [] [] false)
                 (Some (waitError (errors.New "exit status 1")))
     = Some (CommandError "t.txt" 3 "wait" [] (waitError (errors.New "exit status 1"))).
Proof.
  split.
  - eexists. reflexivity.
  - apply (checkStatus_waitError_propagated
             (mkCommand "t.txt" 3 successOrFailure [] "wait" [] [] [] false)
             (waitError (errors.New "exit status 1"))).
    eexists. reflexivity.
Defined.

(** C3. Under a negative expectation, an error that is a cancellation or
    a deadline signal is not accepted as the expected failure:
    [checkStatus] propagates it. *)
Theorem checkStatus_cancellation_not_trusted (cmd : command) (err : error) :
  want cmd = failure \/ want cmd = failureRetryOnSuccess ->
  errors.Is_Canceled err = true \/ errors.Is_DeadlineExceeded err = true ->
  checkStatus cmd (Some err) = Some (cmdError cmd err).
Proof.
  intros Hwant Hctx. unfold checkStatus.
  destruct (bool_decide (is_Some (errors.As_stopError err))); [reflexivity|].
  destruct (bool_decide (is_Some (errors.As_waitError err))); [reflexivity|].
  destruct (bool_decide (want cmd = success) || bool_decide (want cmd = successRetryOnFailure));
    [reflexivity|].
  assert (Hw : bool_decide (want cmd = failure) || bool_decide (want cmd = failureRetryOnSuccess) = true).
  { destruct Hwant as [-> | ->]; reflexivity. }
  assert (Hc : errors.Is_DeadlineExceeded err || errors.Is_Canceled err = true).
  { destruct Hctx as [-> | ->]; [apply orb_true_r | reflexivity]. }
  rewrite Hw, Hc. reflexivity.
Qed.

Lemma checkStatus_cancellation_not_trusted_witness :
  (want (mkCommand "t.txt" 7 failure [] "sleep" [] [] ["10s"] false) = failure
   \/ want (mkCommand "t.txt" 7 failure [] "sleep" [] [] ["10s"] false) = failureRetryOnSuccess)
  /\ (errors.Is_Canceled (Errorf "sleep: " context_DeadlineExceeded) = true
      \/ errors.Is_DeadlineExceeded (Errorf "sleep: " context_DeadlineExceeded) = true)
  /\ checkStatus (mkCommand "t.txt" 7 failure [] "sleep" [] [] ["10s"] false)
                 (Some (Errorf "sleep: " context_DeadlineExceeded))
     = Some (CommandError "t.txt" 7 "sleep" ["10s"] (Errorf "sleep: " context_DeadlineExceeded)).
Proof.
  split; [left; reflexivity|].
  split; [right; reflexivity|].
  apply (checkStatus_cancellation_not_trusted
           (mkCommand "t.txt" 7 failure [] "sleep" [] [] ["10s"] false)
           (Errorf "sleep: " context_DeadlineExceeded)).
  - left; reflexivity.
  - right; reflexivity.
Defined.

(** ** Backoff *)

Lemma wrap64_small x : - 2 ^ 63 <= x < 2 ^ 63 -> wrap64 x = x.
Proof.
  intros H. unfold wrap64.
  rewrite Z.mod_small by lia. lia.
Qed.

Lemma waitAt_closed_form k : forall eb,
  0 <= interval eb <= max eb -> max eb < 2 ^ 62 ->
  waitAt eb k = Z.min (interval eb * 2 ^ Z.of_nat k) (max eb).
Proof.
  induction k as [|k IH]; intros [M I]; simpl interval; simpl max; intros HI HM.
  - simpl. lia.
  - cbn [waitAt get snd interval max].
    rewrite wrap64_small by lia.
    rewrite IH; cbn [interval max]; [|lia|lia].
    rewrite Nat2Z.inj_succ, Z.pow_succ_r by lia.
    assert (Hp : 1 <= 2 ^ Z.of_nat k) by (apply (Z.pow_le_mono_r 2 0); lia).
    destruct (Z.le_gt_cases (I * 2) M) as [Hle|Hgt].
    + rewrite (Z.min_l (I * 2) M) by lia. f_equal. ring.
    + rewrite (Z.min_r (I * 2) M) by lia.
      rewrite !Z.min_r; nia.
Qed.

Lemma nthWait_closed_form (I M : Z) (N : nat) :
  0 <= I <= M -> M < 2 ^ 62 -> (1 <= N)%nat ->
  nthWait (mkBackoff M I) N = Z.min (I * 2 ^ (Z.of_nat N - 1)) M
  /\ nthWait (mkBackoff M I) N <= M.
Proof.
  intros HI HM HN. unfold nthWait.
  rewrite waitAt_closed_form by (cbn [interval max]; lia).
  cbn [interval max].
  replace (Z.of_nat (N - 1)) with (Z.of_nat N - 1) by lia.
  split; [reflexivity | lia].
Qed.

(** C5, as stated, fails when the initial interval is above the maximum:
    with an interval of one second and the default maximum of 500ms the
    first wait is the whole second. *)
Lemma backoff_first_wait_exceeds_max :
  ~ (nthWait (mkBackoff defaultMaxRetryInterval (1000 * Millisecond)) 1
       = Z.min (1000 * Millisecond * 2 ^ (Z.of_nat 1 - 1)) defaultMaxRetryInterval
     /\ nthWait (mkBackoff defaultMaxRetryInterval (1000 * Millisecond)) 1
        <= defaultMaxRetryInterval).
Proof. vm_compute. intros [H _]. discriminate H. Qed.

(** The product of [get] wraps around: from an interval of [2^62]
    nanoseconds the next wait is negative. *)
Lemma backoff_wraps_around :
  nthWait (mkBackoff (2 ^ 63 - 1) (2 ^ 62)) 2 = - 2 ^ 63.
Proof. reflexivity. Qed.

(** ** The parser *)

(** *** Slices of byte strings *)

Lemma string_app_cons (a : ascii) (u v : string) : String a u +:+ v = String a (u +:+ v).
Proof. reflexivity. Qed.

Lemma string_app_nil_l (v : string) : EmptyString +:+ v = v.
Proof. reflexivity. Qed.

Lemma substring_zero_len (t : string) : forall n, String.substring n 0 t = EmptyString.
Proof. induction t as [|a t IH]; intros [|n]; simpl; auto. Qed.

Lemma substring_snoc (t : string) : forall n m,
  String.substring n (S m) t
  = String.substring n m t
    +:+ match String.get (n + m) t with
        | Some c => String c EmptyString
        | None => EmptyString
        end.
Proof.
  induction t as [|a t IH]; intros n m.
  - destruct n, m; reflexivity.
  - destruct n as [|n].
    + destruct m as [|m]; simpl.
      * rewrite substring_zero_len. reflexivity.
      * rewrite string_app_cons. f_equal. apply (IH 0%nat m).
    + simpl. apply IH.
Qed.

Lemma get_app_length (pre : string) : forall c rest,
  String.get (String.length pre) (pre +:+ String c rest) = Some c.
Proof.
  induction pre as [|a pre IH]; intros c rest; [reflexivity|].
  rewrite string_app_cons. simpl. apply IH.
Qed.

Lemma string_app_assoc (a b c : string) : (a +:+ b) +:+ c = a +:+ (b +:+ c).
Proof.
  induction a as [|x a IH]; [reflexivity|].
  rewrite !string_app_cons, IH. reflexivity.
Qed.

Lemma string_app_nil_r (a : string) : a +:+ EmptyString = a.
Proof.
  induction a as [|x a IH]; [reflexivity|].
  rewrite string_app_cons, IH. reflexivity.
Qed.

Lemma string_length_app (a b : string) :
  String.length (a +:+ b) = (String.length a + String.length b)%nat.
Proof.
  induction a as [|x a IH]; [reflexivity|].
  rewrite string_app_cons. simpl. rewrite IH. reflexivity.
Qed.

Lemma string_snoc_app (pre : string) (c : ascii) (rest : string) :
  pre +:+ String c rest = (pre +:+ String c EmptyString) +:+ rest.
Proof. rewrite string_app_assoc. reflexivity. Qed.

Lemma len_snoc (pre : string) (c : ascii) :
  strings.len (pre +:+ String c EmptyString) = strings.len pre + 1.
Proof. unfold strings.len. rewrite string_length_app. simpl. lia. Qed.

Lemma len_nonneg (t : string) : 0 <= strings.len t.
Proof. unfold strings.len. lia. Qed.

(** Reading one more byte extends the chunk by that byte. *)
Lemma slice_snoc (pre : string) (c : ascii) (rest : string) (start : Z) :
  0 <= start <= strings.len pre ->
  strings.slice (pre +:+ String c rest) start (strings.len pre + 1)
  = strings.slice (pre +:+ String c rest) start (strings.len pre) +:+ String c EmptyString.
Proof.
  intros Hs. unfold strings.slice.
  replace (Z.to_nat (strings.len pre + 1 - start))
    with (S (Z.to_nat (strings.len pre - start))) by lia.
  rewrite substring_snoc.
  replace (Z.to_nat start + Z.to_nat (strings.len pre - start))%nat
    with (String.length pre) by (unfold strings.len in *; lia).
  rewrite get_app_length. reflexivity.
Qed.

Lemma slice_empty (t : string) (i : Z) : strings.slice t i i = EmptyString.
Proof.
  unfold strings.slice. rewrite Z.sub_diag. apply substring_zero_len.
Qed.

Lemma slice_one (pre : string) (c : ascii) (rest : string) :
  strings.slice (pre +:+ String c rest) (strings.len pre) (strings.len pre + 1)
  = String c EmptyString.
Proof.
  rewrite slice_snoc by (pose proof (len_nonneg pre); lia).
  rewrite slice_empty. reflexivity.
Qed.

(** *** [parseLoop] computes [scan] *)

Lemma chunkOf_push (pre : string) (c : ascii) (rest : string) (start : Z) :
  start = -1 \/ 0 <= start <= strings.len pre ->
  chunkOf (pre +:+ String c rest) (if start <? 0 then strings.len pre else start)
          (strings.len pre + 1)
  = pushc (chunkOf (pre +:+ String c rest) start (strings.len pre)) c.
Proof.
  intros [-> | Hs]; unfold chunkOf.
  - pose proof (len_nonneg pre) as Hp.
    replace (-1 <? 0) with true by reflexivity.
    replace (0 <=? -1) with false by reflexivity.
    replace (0 <=? strings.len pre) with true by (symmetry; apply Z.leb_le; lia).
    simpl. rewrite slice_one. reflexivity.
  - replace (start <? 0) with false by (symmetry; apply Z.ltb_ge; lia).
    replace (0 <=? start) with true by (symmetry; apply Z.leb_le; lia).
    simpl. rewrite slice_snoc by lia. reflexivity.
Qed.

Lemma addChunk_addc (ln : string) (rawArg : list argFragment) (start i : Z) (q : bool) :
  (if 0 <=? start then addChunk ln rawArg start i q else rawArg)
  = addc rawArg (chunkOf ln start i) q.
Proof. unfold chunkOf, addChunk. destruct (0 <=? start); reflexivity. Qed.

Lemma addChunk_addc_quoted (ln : string) (rawArg : list argFragment) (start i : Z) :
  0 <= start ->
  addChunk ln rawArg start i true = addc rawArg (chunkOf ln start i) true.
Proof.
  intros H. unfold chunkOf, addChunk.
  replace (0 <=? start) with true by (symmetry; apply Z.leb_le; lia). reflexivity.
Qed.

Lemma chunkOf_fresh (ln : string) (i : Z) :
  0 <= i -> chunkOf ln i i = Some EmptyString.
Proof.
  intros H. unfold chunkOf.
  replace (0 <=? i) with true by (symmetry; apply Z.leb_le; lia).
  rewrite slice_empty. reflexivity.
Qed.

Lemma parseLoop_scan_bounded (n : nat) :
  forall rest pre cmd rawArg start q,
    (String.length rest <= n)%nat ->
    start = -1 \/ 0 <= start <= strings.len pre ->
    (q = true -> 0 <= start) ->
    parseLoop (pre +:+ rest) rest (strings.len pre) cmd rawArg start q
    = scan rest cmd rawArg (chunkOf (pre +:+ rest) start (strings.len pre)) q.
Proof.
  induction n as [|n IH]; intros rest pre cmd rawArg start q Hn Hs Hq.
  - destruct rest; [|simpl in Hn; lia].
    simpl. rewrite addChunk_addc. reflexivity.
  - destruct rest as [|c rest'].
    + simpl. rewrite addChunk_addc. reflexivity.
    + pose proof (len_nonneg pre) as Hp.
      assert (Hn' : (String.length rest' <= n)%nat) by (simpl in Hn; lia).
      cbn [parseLoop scan].
      rewrite addChunk_addc.
      destruct (negb q && strings.ContainsRune argSepChars c) eqn:Hsep.
      * destruct (flushArg cmd _) as [e|cmd']; [reflexivity|].
        destruct (Ascii.eqb c "#"); [reflexivity|].
        rewrite (string_snoc_app pre c rest'), <- (len_snoc pre c).
        rewrite IH; [reflexivity | assumption | left; reflexivity |].
        intros ->. simpl in Hsep. discriminate.
      * destruct (Ascii.eqb c squote) eqn:Hquote.
        -- destruct q; cbn [negb].
           ++ assert (H0 : 0 <= start) by (apply Hq; reflexivity).
              rewrite (addChunk_addc_quoted _ _ _ _ H0).
              destruct rest' as [|c' rest''].
              ** rewrite (string_snoc_app pre c EmptyString), <- (len_snoc pre c).
                 rewrite IH; [| assumption | right; rewrite len_snoc; lia | discriminate].
                 rewrite chunkOf_fresh by (rewrite len_snoc; lia). reflexivity.
              ** destruct (Ascii.eqb c' squote) eqn:Hq2.
                 --- apply Ascii.eqb_eq in Hq2. subst c'.
                     rewrite (string_snoc_app pre c (String squote rest'')).
                     rewrite (string_snoc_app (pre +:+ String c EmptyString) squote rest'').
                     replace (strings.len pre + 2)
                       with (strings.len ((pre +:+ String c EmptyString) +:+ String squote EmptyString))
                       by (rewrite !len_snoc; lia).
                     rewrite IH; [| simpl in Hn'; lia | right; rewrite !len_snoc; lia
                                  | intros _; lia].
                     unfold chunkOf.
                     replace (0 <=? strings.len pre + 1) with true
                       by (symmetry; apply Z.leb_le; lia).
                     rewrite (len_snoc (pre +:+ String c EmptyString) squote).
                     rewrite <- (string_snoc_app (pre +:+ String c EmptyString) squote rest'').
                     rewrite <- (len_snoc pre c).
                     rewrite slice_one. reflexivity.
                 --- rewrite (string_snoc_app pre c (String c' rest'')), <- (len_snoc pre c).
                     rewrite IH; [| assumption | right; rewrite len_snoc; lia | discriminate].
                     rewrite chunkOf_fresh by (rewrite len_snoc; lia). reflexivity.
           ++ rewrite (string_snoc_app pre c rest'), <- (len_snoc pre c).
              rewrite IH; [| assumption | right; rewrite len_snoc; lia | intros _; rewrite len_snoc; lia].
              rewrite chunkOf_fresh by (rewrite len_snoc; lia).
              rewrite <- string_snoc_app. reflexivity.
        -- rewrite <- chunkOf_push by assumption.
           rewrite (string_snoc_app pre c rest'), <- (len_snoc pre c).
           rewrite IH; [reflexivity | assumption | |].
           ++ destruct Hs as [-> | Hs]; right.
              ** replace (-1 <? 0) with true by reflexivity. rewrite len_snoc. lia.
              ** replace (start <? 0) with false by (symmetry; apply Z.ltb_ge; lia).
                 rewrite len_snoc. lia.
           ++ intros Hq'. specialize (Hq Hq').
              replace (start <? 0) with false by (symmetry; apply Z.ltb_ge; lia). lia.
Qed.

Lemma parseLoop_scan (filename : string) (lineno : Z) (ln : string) :
  parseLoop ln ln 0 (newCommand filename lineno) [] (-1) false
  = scan ln (newCommand filename lineno) [] None false.
Proof.
  apply (parseLoop_scan_bounded (String.length ln) ln EmptyString);
    [lia | left; reflexivity | discriminate].
Qed.

Lemma parse_scan (filename : string) (lineno : Z) (ln : string) :
  parse filename lineno ln
  = match scan ln (newCommand filename lineno) [] None false with
    | inl e => inl e
    | inr cmd => parseFinish cmd
    end.
Proof. unfold parse. rewrite parseLoop_scan. reflexivity. Qed.

(** *** Words, quoted regions and flushes in [scan] *)

Lemma joinFrags_from (frags : list argFragment) : forall b,
  foldl (fun b frag => b +:+ frag_s frag) b frags = b +:+ joinFrags frags.
Proof.
  unfold joinFrags.
  induction frags as [|f frags IH]; intros b; simpl.
  - rewrite string_app_nil_r. reflexivity.
  - rewrite IH, (IH (EmptyString +:+ frag_s f)), string_app_nil_l, string_app_assoc.
    reflexivity.
Qed.

Lemma joinFrags_cons (f : argFragment) (frags : list argFragment) :
  joinFrags (f :: frags) = frag_s f +:+ joinFrags frags.
Proof. unfold joinFrags at 1. simpl. rewrite joinFrags_from. reflexivity. Qed.

Lemma joinFrags_app (a b : list argFragment) :
  joinFrags (a ++ b) = joinFrags a +:+ joinFrags b.
Proof.
  induction a as [|f a IH]; [reflexivity|].
  rewrite <- app_comm_cons, !joinFrags_cons, IH, string_app_assoc. reflexivity.
Qed.

Lemma joinFrags_quotedFrags (t : string) : forall ch,
  joinFrags (quotedFrags ch t) = ch +:+ t.
Proof.
  induction t as [|c t IH]; intros ch; simpl.
  - rewrite joinFrags_cons. reflexivity.
  - destruct (Ascii.eqb c squote) eqn:Hc.
    + apply Ascii.eqb_eq in Hc. subst c.
      rewrite joinFrags_cons, IH. reflexivity.
    + rewrite IH, string_app_assoc. reflexivity.
Qed.

Lemma quotedFrags_all_quoted (t : string) : forall ch,
  Forall (fun f => frag_quoted f = true) (quotedFrags ch t).
Proof.
  induction t as [|c t IH]; intros ch; simpl.
  - repeat constructor.
  - destruct (Ascii.eqb c squote); [constructor; [reflexivity | apply IH] | apply IH].
Qed.

Lemma joinFrags_argFrags (arg : string) : joinFrags (argFrags arg) = arg.
Proof.
  unfold argFrags. destruct (strings.ContainsAny _ _).
  - rewrite joinFrags_app, joinFrags_quotedFrags. apply string_app_nil_r.
  - rewrite joinFrags_cons. apply string_app_nil_r.
Qed.

Lemma plainChar_not_sep (c : ascii) :
  plainChar c = true -> strings.ContainsRune argSepChars c = false.
Proof. unfold plainChar. destruct (strings.ContainsRune argSepChars c); [discriminate | reflexivity]. Qed.

Lemma plainChar_not_quote (c : ascii) : plainChar c = true -> Ascii.eqb c squote = false.
Proof.
  unfold plainChar. destruct (Ascii.eqb c squote); [|reflexivity].
  rewrite andb_false_r. discriminate.
Qed.

(** Reading a plain word outside quotes extends the chunk by the word. *)
Lemma scan_plainWord (w : string) : forall rest cmd rawArg chunk,
  plainWord w = true ->
  scan (w +:+ rest) cmd rawArg chunk false
  = scan rest cmd rawArg
         (match w with
          | EmptyString => chunk
          | _ => Some (default EmptyString chunk +:+ w)
          end) false.
Proof.
  induction w as [|c w IH]; intros rest cmd rawArg chunk Hw; [reflexivity|].
  simpl in Hw. apply andb_true_iff in Hw as [Hc Hw].
  rewrite string_app_cons. cbn [scan negb andb].
  rewrite (plainChar_not_sep _ Hc), (plainChar_not_quote _ Hc).
  rewrite IH by assumption.
  destruct w as [|d w].
  - destruct chunk; reflexivity.
  - f_equal. destruct chunk as [ch|]; cbn [pushc from_option id];
      rewrite ?string_app_assoc; reflexivity.
Qed.

Lemma squote_eqb : Ascii.eqb squote squote = true.
Proof. reflexivity. Qed.

Lemma squote_not_sep : strings.ContainsRune argSepChars squote = false.
Proof. reflexivity. Qed.

Lemma doubled_quote_app (x : string) : "''" +:+ x = String squote (String squote x).
Proof. reflexivity. Qed.

(** Inside a quoted region holding the quoted form of [t]: every doubled
    quote is read as one quote of the text, and the region ends at the
    quote that follows. *)
Lemma scan_quoted_region (t : string) : forall ch rest cmd rawArg,
  notQuoteNext rest ->
  scan (strings.ReplaceAll t squote "''" +:+ String squote rest) cmd rawArg (Some ch) true
  = scan rest cmd (rawArg ++ quotedFrags ch t) (Some EmptyString) false.
Proof.
  induction t as [|c t IH]; intros ch rest cmd rawArg Hrest.
  - cbn [strings.ReplaceAll quotedFrags]. rewrite string_app_nil_l.
    cbn [scan negb andb]. rewrite squote_eqb.
    destruct rest as [|d rest]; [reflexivity|].
    simpl in Hrest. rewrite Hrest. reflexivity.
  - cbn [strings.ReplaceAll quotedFrags].
    destruct (Ascii.eqb c squote) eqn:Hc.
    + rewrite string_app_assoc, doubled_quote_app.
      cbn [scan negb andb]. rewrite squote_eqb.
      rewrite IH by assumption.
      cbn [addc]. rewrite <- app_assoc. reflexivity.
    + rewrite string_app_cons. cbn [scan negb andb pushc]. rewrite Hc.
      rewrite IH by assumption. reflexivity.
Qed.

(** *** [flushArg] *)

Lemma flushArg_nil cmd : flushArg cmd [] = inr cmd.
Proof. reflexivity. Qed.

Lemma flushArg_arg cmd rawArg :
  name cmd <> EmptyString -> rawArg <> [] ->
  flushArg cmd rawArg = inr (set_rawArgs (rawArgs cmd ++ [rawArg]) cmd).
Proof.
  intros Hn Hr. unfold flushArg. destruct rawArg as [|f r]; [congruence|].
  apply String.eqb_neq in Hn. rewrite Hn. reflexivity.
Qed.

Lemma flushArg_name cmd n :
  name cmd = EmptyString -> plainName n = true ->
  flushArg cmd [mkFrag n false] = inr (set_name n cmd).
Proof.
  intros Hn Hp. unfold plainName in Hp.
  apply andb_true_iff in Hp as [Hp Hb].
  apply andb_true_iff in Hp as [Hp Hm].
  apply andb_true_iff in Hp as [He _].
  unfold flushArg. rewrite Hn. cbn [String.eqb length Nat.eqb andb negb frag_quoted frag_s].
  destruct (statusMarker n) eqn:Hsm.
  { rewrite bool_decide_eq_true_2 in Hm by eauto. discriminate. }
  apply negb_true_iff in Hb. rewrite Hb.
  apply negb_true_iff in He. rewrite He. reflexivity.
Qed.

(** [scan], and so [parseLoop], never sets the background flag and never
    touches the location. *)
Lemma flushArg_keeps cmd rawArg c :
  flushArg cmd rawArg = inr c ->
  background c = background cmd /\ file c = file cmd /\ line c = line cmd
  /\ origArgs c = origArgs cmd /\ args c = args cmd.
Proof.
  unfold flushArg. destruct rawArg as [|f r]; [intros [= <-]; auto|].
  destruct (_ && _ && _).
  - destruct (statusMarker _).
    + destruct (decide _); [intros [= <-]; auto | discriminate].
    + destruct (_ && _).
      * destruct (if strings.HasPrefix _ _ then _ else _) as [w a].
        destruct (String.eqb a _); [discriminate | intros [= <-]; auto].
      * destruct (String.eqb _ _); [discriminate | intros [= <-]; auto].
  - intros [= <-]; auto 6.
Qed.

(** *** One quoted argument after a command name *)

Lemma plainName_nonempty n : plainName n = true -> n <> EmptyString.
Proof.
  unfold plainName. intros H.
  repeat (apply andb_true_iff in H as [H ?]).
  apply negb_true_iff in H. apply String.eqb_neq in H. assumption.
Qed.

Lemma plainName_plainWord n : plainName n = true -> plainWord n = true.
Proof.
  unfold plainName. intros H.
  repeat (apply andb_true_iff in H as [H ?]). assumption.
Qed.

(** The name and the separator after it. *)
Lemma scan_name_sep (cmd : command) (n : string) (c : ascii) (rest : string) :
  name cmd = EmptyString ->
  plainName n = true ->
  strings.ContainsRune argSepChars c = true -> Ascii.eqb c "#" = false ->
  scan (n +:+ String c rest) cmd [] None false = scan rest (set_name n cmd) [] None false.
Proof.
  intros Hc0 Hn Hsep Hc.
  rewrite scan_plainWord by (apply plainName_plainWord; assumption).
  pose proof (plainName_nonempty n Hn) as Hne.
  destruct n as [|d n]; [congruence|].
  cbn [scan negb andb from_option id]. rewrite Hsep. cbn [addc app].
  rewrite string_app_nil_l.
  rewrite flushArg_name by assumption.
  rewrite Hc. reflexivity.
Qed.

Lemma scan_name (filename : string) (lineno : Z) (n : string) (c : ascii) (rest : string) :
  plainName n = true ->
  strings.ContainsRune argSepChars c = true -> Ascii.eqb c "#" = false ->
  scan (n +:+ String c rest) (newCommand filename lineno) [] None false
  = scan rest (set_name n (newCommand filename lineno)) [] None false.
Proof. intros. apply scan_name_sep; auto. Qed.

(** The name at the end of the line. *)
Lemma scan_name_end (cmd : command) (n : string) :
  name cmd = EmptyString ->
  plainName n = true ->
  scan n cmd [] None false = inr (set_name n cmd).
Proof.
  intros Hc0 Hn.
  rewrite <- (string_app_nil_r n) at 1.
  rewrite scan_plainWord by (apply plainName_plainWord; assumption).
  pose proof (plainName_nonempty n Hn) as Hne.
  destruct n as [|d n]; [congruence|].
  cbn [scan negb andb from_option id addc app].
  rewrite string_app_nil_l.
  apply flushArg_name; assumption.
Qed.

(** A line that is the marker [!] and a command name. *)
Lemma parse_negated (filename : string) (lineno : Z) (n : string) :
  plainName n = true ->
  parse filename lineno ("! " +:+ n)
  = inr (Some (mkCommand filename lineno failure [] n [] [] [] false)).
Proof.
  intros Hn. rewrite parse_scan.
  change ("! " +:+ n) with (String "!" (String " " n)).
  cbn [scan negb andb strings.ContainsRune argSepChars Ascii.eqb Bool.eqb squote pushc addc app].
  change (flushArg (newCommand filename lineno) [mkFrag "!" false])
    with (@inr error command (set_want failure (newCommand filename lineno))).
  cbv iota beta.
  rewrite scan_name_end by (assumption || reflexivity).
  pose proof (plainName_nonempty n Hn) as Hne.
  unfold parseFinish. cbn [name set_name rawArgs set_want newCommand last].
  apply String.eqb_neq in Hne. rewrite Hne. reflexivity.
Qed.

Lemma quotedFrags_cons (t : string) : forall ch,
  exists f fr, quotedFrags ch t = f :: fr.
Proof.
  induction t as [|c t IH]; intros ch; simpl; [eauto|].
  destruct (Ascii.eqb c squote); [eauto | apply IH].
Qed.

Lemma parseFinish_long_last cmd pre f g fr :
  name cmd <> EmptyString ->
  rawArgs cmd = pre ++ [f :: g :: fr] ->
  parseFinish cmd = inr (Some cmd).
Proof.
  intros Hn Hr. unfold parseFinish.
  apply String.eqb_neq in Hn. rewrite Hn.
  rewrite Hr, last_snoc. reflexivity.
Qed.

Lemma parse_one_quoted (filename : string) (lineno : Z) (n t : string) :
  plainName n = true ->
  parse filename lineno (n +:+ String " " (String squote
            (strings.ReplaceAll t squote "''" +:+ String squote EmptyString)))
  = inr (Some (mkCommand filename lineno success [] n
                 [quotedFrags EmptyString t ++ [mkFrag EmptyString false]] [] [] false)).
Proof.
  intros Hn. rewrite parse_scan.
  rewrite scan_name by (assumption || reflexivity).
  cbn [scan negb andb]. rewrite squote_not_sep, squote_eqb. cbn [addc].
  rewrite scan_quoted_region by exact I.
  cbn [scan negb addc app].
  pose proof (plainName_nonempty n Hn) as Hne.
  rewrite flushArg_arg; [| exact Hne |].
  2:{ destruct (quotedFrags EmptyString t); discriminate. }
  destruct (quotedFrags_cons t EmptyString) as (f & fr & Hq).
  rewrite Hq.
  destruct fr as [|g fr].
  - apply (parseFinish_long_last _ [] f (mkFrag EmptyString false) []); [exact Hne | reflexivity].
  - apply (parseFinish_long_last _ [] f g (fr ++ [mkFrag EmptyString false]));
      [exact Hne | reflexivity].
Qed.

(** C7, as amended.  After a command name, a single-quoted region that
    holds a text with each quote doubled parses to one argument whose
    fragments, all quoted but the empty one that ends it, join to the
    text: a doubled quote is one quote of the text and does not close the
    region.  In particular the line
    [echo 'Don''t communicate by sharing memory.'] has the one argument
    [Don't communicate by sharing memory.]. *)
Theorem parse_quote_doubling (filename : string) (lineno : Z) (n t : string) :
  plainName n = true ->
  exists cmd frags,
    parse filename lineno (n +:+ " '" +:+ strings.ReplaceAll t squote "''" +:+ "'")
      = inr (Some cmd)
    /\ name cmd = n
    /\ rawArgs cmd = [frags ++ [mkFrag EmptyString false]]
    /\ Forall (fun f => frag_quoted f = true) frags
    /\ joinRawArgs (rawArgs cmd) = [t]
    /\ background cmd = false.
Proof.
  intros Hn.
  eexists _, (quotedFrags EmptyString t).
  split; [apply (parse_one_quoted filename lineno n t Hn)|].
  cbn [name rawArgs background joinRawArgs map].
  repeat split.
  - apply quotedFrags_all_quoted.
  - rewrite joinFrags_app, joinFrags_quotedFrags.
    change (joinFrags [mkFrag EmptyString false]) with EmptyString.
    rewrite string_app_nil_r, string_app_nil_l. reflexivity.
Qed.

Lemma parse_quote_doubling_witness :
  plainName "echo" = true
  /\ exists cmd frags,
       parse "script.txt" 1
             ("echo" +:+ " '" +:+ strings.ReplaceAll "Don't communicate by sharing memory."
                                                      squote "''" +:+ "'")
         = inr (Some cmd)
       /\ name cmd = "echo"
       /\ rawArgs cmd = [frags ++ [mkFrag EmptyString false]]
       /\ Forall (fun f => frag_quoted f = true) frags
       /\ joinRawArgs (rawArgs cmd) = ["Don't communicate by sharing memory."]
       /\ background cmd = false.
Proof.
  split; [reflexivity|].
  apply (parse_quote_doubling "script.txt" 1 "echo" "Don't communicate by sharing memory.").
  reflexivity.
Defined.

(** The line of the example, written out. *)
Lemma parse_quote_doubling_example :
  ("echo" +:+ " '" +:+ strings.ReplaceAll "Don't communicate by sharing memory." squote "''"
   +:+ "'") = "echo 'Don''t communicate by sharing memory.'"
  /\ parse "script.txt" 1 "echo 'Don''t communicate by sharing memory.'"
     = inr (Some (mkCommand "script.txt" 1 success [] "echo"
                    [[mkFrag "Don" true; mkFrag "'t communicate by sharing memory." true;
                      mkFrag EmptyString false]] [] [] false)).
Proof. split; reflexivity. Qed.

(** C7, as stated, fails: the quoted text alone on a line is not taken as
    the command name (a quoted token never is), and the line is rejected. *)
Lemma parse_quoted_line_alone_rejected :
  parse "script.txt" 1 "'Don''t communicate by sharing memory.'"
  = inl (errors.New "missing command").
Proof. reflexivity. Qed.

(** *** [quoteArgs] and [parse] *)

Lemma quoteArgsLoop_spaced (args : list string) : forall b i,
  0 < i -> quoteArgsLoop b i args = b +:+ spaced args.
Proof.
  induction args as [|a args IH]; intros b i Hi; cbn [quoteArgsLoop spaced].
  - rewrite string_app_nil_r. reflexivity.
  - replace (0 <? i) with true by (symmetry; apply Z.ltb_lt; lia).
    rewrite IH by lia. rewrite !string_app_assoc. reflexivity.
Qed.

Lemma quoteArgs_cons (a : string) (args : list string) :
  quoteArgs (a :: args) = quoteArg a +:+ spaced args.
Proof.
  unfold quoteArgs. cbn [quoteArgsLoop]. replace (0 <? 0) with false by reflexivity.
  rewrite quoteArgsLoop_spaced by lia. rewrite string_app_nil_l. reflexivity.
Qed.

Lemma ContainsAny_plainWord (a : string) :
  strings.ContainsAny a (String squote argSepChars) = negb (plainWord a).
Proof.
  induction a as [|c a IH]; [reflexivity|].
  cbn [strings.ContainsAny plainWord strings.ContainsRune].
  unfold plainChar. rewrite (Ascii.eqb_sym squote c).
  destruct (Ascii.eqb c squote); [rewrite andb_false_r; reflexivity|].
  destruct (strings.ContainsRune argSepChars c); [reflexivity|].
  rewrite IH. reflexivity.
Qed.

Lemma notQuoteNext_spaced (args : list string) : notQuoteNext (spaced args).
Proof. destruct args; simpl; [exact I | reflexivity]. Qed.

Lemma argFrags_nonempty (a : string) : argFrags a <> [].
Proof.
  unfold argFrags. destruct (strings.ContainsAny _ _); [|discriminate].
  destruct (quotedFrags EmptyString a); discriminate.
Qed.

Lemma argFrags_plain (a : string) :
  plainWord a = true -> argFrags a = [mkFrag a false].
Proof. intros H. unfold argFrags. rewrite ContainsAny_plainWord, H. reflexivity. Qed.

Lemma argFrags_quoted (a : string) :
  plainWord a = false ->
  argFrags a = quotedFrags EmptyString a ++ [mkFrag EmptyString false].
Proof. intros H. unfold argFrags. rewrite ContainsAny_plainWord, H. reflexivity. Qed.

Lemma set_rawArgs_name r cmd : name (set_rawArgs r cmd) = name cmd.
Proof. reflexivity. Qed.

(** The arguments that follow a pending one: each is flushed at the
    separator after it, the last one at the end of the line. *)
Lemma scan_spaced_pending (args : list string) : forall cmd rawArg chunk,
  name cmd <> EmptyString ->
  addc rawArg chunk false <> [] ->
  Forall (fun a => a <> EmptyString) args ->
  scan (spaced args) cmd rawArg chunk false
  = inr (set_rawArgs (rawArgs cmd ++ addc rawArg chunk false :: map argFrags args) cmd).
Proof.
  induction args as [|a args IH]; intros cmd rawArg chunk Hn Hp Hargs.
  - cbn [spaced scan negb map]. apply flushArg_arg; assumption.
  - inversion Hargs as [|? ? Ha Hargs']; subst.
    cbn [spaced]. unfold SP. rewrite string_app_cons, string_app_nil_l.
    cbn [scan negb andb]. replace (strings.ContainsRune argSepChars " ") with true by reflexivity.
    rewrite flushArg_arg by assumption.
    replace (Ascii.eqb " " "#") with false by reflexivity.
    unfold quoteArg. rewrite ContainsAny_plainWord.
    destruct (plainWord a) eqn:Hplain; cbn [negb].
    + rewrite scan_plainWord by assumption.
      destruct a as [|c a]; [congruence|]. cbn [from_option id].
      rewrite string_app_nil_l.
      rewrite IH; [| assumption | discriminate | assumption].
      cbn [addc app rawArgs set_rawArgs map].
      unfold argFrags. rewrite ContainsAny_plainWord, Hplain. cbn [negb].
      rewrite <- app_assoc. reflexivity.
    + rewrite !string_app_assoc.
      change ("'" +:+ ?x) with (String squote x).
      cbn [scan negb andb]. rewrite squote_not_sep, squote_eqb. cbn [addc].
      change ("'" +:+ spaced args) with (String squote (spaced args)).
      rewrite scan_quoted_region by apply notQuoteNext_spaced.
      rewrite IH; [| assumption | | assumption].
      2:{ cbn [addc app]. destruct (quotedFrags EmptyString a); discriminate. }
      cbn [addc app rawArgs set_rawArgs map].
      unfold argFrags. rewrite ContainsAny_plainWord, Hplain. cbn [negb].
      rewrite <- app_assoc. reflexivity.
Qed.

(** The line that [quoteArgs] makes of the arguments of a command, after
    the command name. *)
Lemma scan_quoted_args (filename : string) (lineno : Z) (n : string) (args : list string) :
  plainName n = true ->
  Forall (fun a => a <> EmptyString) args ->
  scan (n +:+ SP +:+ quoteArgs args) (newCommand filename lineno) [] None false
  = inr (mkCommand filename lineno success [] n (map argFrags args) [] [] false).
Proof.
  intros Hn Hargs. pose proof (plainName_nonempty n Hn) as Hne.
  unfold SP. rewrite string_app_cons, string_app_nil_l.
  rewrite scan_name by (assumption || reflexivity).
  destruct args as [|a args]; [reflexivity|].
  inversion Hargs as [|? ? Ha Hargs']; subst.
  rewrite quoteArgs_cons. unfold quoteArg. rewrite ContainsAny_plainWord.
  destruct (plainWord a) eqn:Hplain; cbn [negb].
  - rewrite scan_plainWord by assumption.
    destruct a as [|c a]; [congruence|]. cbn [from_option id].
    rewrite string_app_nil_l.
    rewrite scan_spaced_pending; [| exact Hne | discriminate | assumption].
    cbn [map]. rewrite (argFrags_plain _ Hplain). reflexivity.
  - rewrite !string_app_assoc.
    change ("'" +:+ ?x) with (String squote x).
    cbn [scan negb andb]. rewrite squote_not_sep, squote_eqb. cbn [addc].
    change ("'" +:+ spaced args) with (String squote (spaced args)).
    rewrite scan_quoted_region by apply notQuoteNext_spaced.
    rewrite scan_spaced_pending; [| exact Hne | | assumption].
    2:{ cbn [addc app]. destruct (quotedFrags EmptyString a); discriminate. }
    cbn [map]. rewrite (argFrags_quoted _ Hplain). reflexivity.
Qed.

Lemma joinRawArgs_argFrags (args : list string) : joinRawArgs (map argFrags args) = args.
Proof.
  unfold joinRawArgs. induction args as [|a args IH]; [reflexivity|].
  cbn [map]. rewrite joinFrags_argFrags, IH. reflexivity.
Qed.

Lemma argFrags_background (a : string) (f : argFragment) :
  argFrags a = [f] -> negb (frag_quoted f) && String.eqb (frag_s f) "&" = true -> a = "&".
Proof.
  unfold argFrags. destruct (strings.ContainsAny _ _).
  - destruct (quotedFrags_cons a EmptyString) as (g & fr & ->).
    destruct fr; discriminate.
  - intros [= <-]. cbn. intros H. apply String.eqb_eq in H. assumption.
Qed.

(** X8.  The round trip of [quoteArgs] and [parse], where it holds: after a
    command name, the quoted form of arguments that are not empty and do
    not end with a lone [&] parses back to these arguments. *)
Theorem quoteArgs_parse_round_trip (filename : string) (lineno : Z) (n : string)
    (args : list string) :
  plainName n = true ->
  Forall (fun a => a <> EmptyString) args ->
  last args <> Some "&" ->
  exists cmd,
    parse filename lineno (n +:+ SP +:+ quoteArgs args) = inr (Some cmd)
    /\ name cmd = n /\ joinRawArgs (rawArgs cmd) = args /\ background cmd = false.
Proof.
  intros Hn Hargs Hlast. pose proof (plainName_nonempty n Hn) as Hne.
  exists (mkCommand filename lineno success [] n (map argFrags args) [] [] false).
  split; [| cbn [name rawArgs background]; rewrite joinRawArgs_argFrags; auto].
  rewrite parse_scan, scan_quoted_args by assumption.
  unfold parseFinish. cbn [name rawArgs].
  apply String.eqb_neq in Hne. rewrite Hne.
  destruct (last (map argFrags args)) as [fr|] eqn:Hl; [|reflexivity].
  destruct fr as [|f [|g fr]]; try reflexivity.
  destruct (negb (frag_quoted f) && String.eqb (frag_s f) "&") eqn:Hbg; [|reflexivity].
  exfalso. apply Hlast.
  change (map argFrags args) with (argFrags <$> args) in Hl. rewrite fmap_last in Hl.
  destruct (last args) as [a|]; [|discriminate].
  simpl in Hl. injection Hl as Hl.
  rewrite (argFrags_background a f Hl Hbg). reflexivity.
Qed.

Lemma quoteArgs_parse_round_trip_witness :
  plainName "exec" = true
  /\ Forall (fun a => a <> EmptyString) ["ls"; "my dir"; "it's"; "#1"]
  /\ last ["ls"; "my dir"; "it's"; "#1"] <> Some "&"
  /\ exists cmd,
       parse "script.txt" 4 ("exec" +:+ SP +:+ quoteArgs ["ls"; "my dir"; "it's"; "#1"])
         = inr (Some cmd)
       /\ name cmd = "exec"
       /\ joinRawArgs (rawArgs cmd) = ["ls"; "my dir"; "it's"; "#1"]
       /\ background cmd = false.
Proof.
  split; [reflexivity|].
  split; [repeat constructor; discriminate|].
  split; [discriminate|].
  apply (quoteArgs_parse_round_trip "script.txt" 4 "exec" ["ls"; "my dir"; "it's"; "#1"]).
  - reflexivity.
  - repeat constructor; discriminate.
  - discriminate.
Defined.

(** C6 fails on the code: [quoteArgs] writes an empty argument as nothing
    and a final [&] without quotes, so that the line parses back to no
    argument at all: the empty argument is lost, and the [&] is taken as
    the background marker. *)
Theorem quoteArgs_round_trip_fails :
  quoteArgs [EmptyString] = EmptyString
  /\ parse "script.txt" 1 ("echo" +:+ SP +:+ quoteArgs [EmptyString])
     = inr (Some (mkCommand "script.txt" 1 success [] "echo" [] [] [] false))
  /\ quoteArgs ["a b"; EmptyString; "c"] = "'a b'  c"
  /\ parse "script.txt" 1 ("echo" +:+ SP +:+ quoteArgs ["a b"; EmptyString; "c"])
     = inr (Some (mkCommand "script.txt" 1 success [] "echo"
                    [[mkFrag "a b" true; mkFrag EmptyString false]; [mkFrag "c" false]]
                    [] [] false))
  /\ quoteArgs ["&"] = "&"
  /\ parse "script.txt" 1 ("echo" +:+ SP +:+ quoteArgs ["&"])
     = inr (Some (mkCommand "script.txt" 1 success [] "echo" [] [] [] true)).
Proof. repeat split; reflexivity. Qed.

(** *** The background marker *)

Lemma scan_keeps (n : nat) : forall rest cmd rawArg chunk q c,
  (String.length rest <= n)%nat ->
  scan rest cmd rawArg chunk q = inr c ->
  background c = background cmd /\ file c = file cmd /\ line c = line cmd
  /\ origArgs c = origArgs cmd /\ args c = args cmd.
Proof.
  induction n as [|n IH]; intros rest cmd rawArg chunk q c Hn H.
  - destruct rest; [|simpl in Hn; lia]. cbn [scan] in H.
    destruct (negb q); [|discriminate]. apply (flushArg_keeps _ _ _ H).
  - destruct rest as [|d rest'].
    + cbn [scan] in H. destruct (negb q); [|discriminate]. apply (flushArg_keeps _ _ _ H).
    + assert (Hn' : (String.length rest' <= n)%nat) by (simpl in Hn; lia).
      cbn [scan] in H.
      destruct (negb q && strings.ContainsRune argSepChars d).
      * destruct (flushArg cmd _) as [e|cmd'] eqn:Hf; [discriminate|].
        apply flushArg_keeps in Hf as (F1 & F2 & F3 & F4 & F5).
        destruct (Ascii.eqb d "#"); [injection H as ->; auto|].
        destruct (IH _ _ _ _ _ _ Hn' H) as (E1 & E2 & E3 & E4 & E5).
        rewrite E1, E2, E3, E4, E5. auto.
      * destruct (Ascii.eqb d squote).
        -- destruct (negb q); [apply (IH _ _ _ _ _ _ Hn' H)|].
           destruct rest' as [|d' rest'']; [apply (IH _ _ _ _ _ _ Hn' H)|].
           destruct (Ascii.eqb d' squote); [|apply (IH _ _ _ _ _ _ Hn' H)].
           eapply (IH rest''); [simpl in Hn'; lia | exact H].
        -- apply (IH _ _ _ _ _ _ Hn' H).
Qed.

Lemma sep_not_quote (c : ascii) :
  strings.ContainsRune argSepChars c = true -> Ascii.eqb c squote = false.
Proof.
  intros H. destruct (Ascii.eqb c squote) eqn:E; [|reflexivity].
  apply Ascii.eqb_eq in E. subst c. vm_compute in H. discriminate.
Qed.

(** A line without comment that scans to the end, followed by a
    separator: the scan goes on after the separator from the command that
    the line alone gives. *)
Lemma scan_then_separator (n : nat) : forall l0 tail cmd rawArg chunk q c sep,
  (String.length l0 <= n)%nat ->
  hasByte "#" l0 = false ->
  scan l0 cmd rawArg chunk q = inr c ->
  strings.ContainsRune argSepChars sep = true -> Ascii.eqb sep "#" = false ->
  scan (l0 +:+ String sep tail) cmd rawArg chunk q = scan tail c [] None false.
Proof.
  induction n as [|n IH]; intros l0 tail cmd rawArg chunk q c sep Hn Hh H Hsep Hns.
  - destruct l0; [|simpl in Hn; lia].
    rewrite string_app_nil_l. cbn [scan] in *.
    destruct q; cbn [negb andb] in *; [discriminate|].
    rewrite Hsep, H, Hns. reflexivity.
  - destruct l0 as [|d l0'].
    + rewrite string_app_nil_l. cbn [scan] in *.
      destruct q; cbn [negb andb] in *; [discriminate|].
      rewrite Hsep, H, Hns. reflexivity.
    + assert (Hn' : (String.length l0' <= n)%nat) by (simpl in Hn; lia).
      cbn [hasByte] in Hh. apply orb_false_iff in Hh as [Hd Hh].
      rewrite string_app_cons. cbn [scan] in *.
      destruct (negb q && strings.ContainsRune argSepChars d).
      * destruct (flushArg cmd _) as [e|cmd']; [discriminate|].
        rewrite Hd in *. apply IH; assumption.
      * destruct (Ascii.eqb d squote).
        -- destruct (negb q); [apply IH; assumption|].
           destruct l0' as [|d' l0''].
           ++ rewrite string_app_nil_l. rewrite (sep_not_quote _ Hsep).
              apply (IH EmptyString); [simpl; lia | reflexivity | assumption..].
           ++ rewrite string_app_cons.
              destruct (Ascii.eqb d' squote).
              ** cbn [hasByte] in Hh. apply orb_false_iff in Hh as [_ Hh].
                 apply IH; [simpl in Hn'; lia | assumption..].
              ** rewrite <- string_app_cons. apply IH; assumption.
        -- apply IH; assumption.
Qed.

Lemma parseFinish_some cmd c :
  parseFinish cmd = inr (Some c) -> name cmd <> EmptyString.
Proof.
  unfold parseFinish. destruct (String.eqb (name cmd) EmptyString) eqn:E.
  - destruct (_ || _); discriminate.
  - intros _. apply String.eqb_neq. assumption.
Qed.

Lemma parseFinish_foreground cmd c :
  parseFinish cmd = inr (Some c) -> background cmd = false -> background c = false -> c = cmd.
Proof.
  unfold parseFinish. destruct (String.eqb (name cmd) EmptyString).
  - destruct (_ || _); discriminate.
  - destruct (last (rawArgs cmd)) as [[|f [|g fr]]|]; try (intros [= <-]; reflexivity).
    destruct (_ && _); [|intros [= <-]; reflexivity].
    intros [= <-]. cbn. discriminate.
Qed.

Lemma set_rawArgs_same cmd : set_rawArgs (rawArgs cmd) cmd = cmd.
Proof. destruct cmd; reflexivity. Qed.

(** C8, as amended.  (1) For every line: when the loop of [parse] ends
    with a command name and the final argument is the single unquoted
    fragment [&], [parse] returns the command with [background = true] and
    without that argument; with any other final argument, so with the
    quoted ['&'], it returns the command as it is, with
    [background = false].  (2) For a line without comment that parses to a
    foreground command: followed by [ &] it parses to the same command in
    the background, followed by [ '&'] it parses to the same command with
    the literal argument [&] added, in the foreground. *)
Theorem parse_background_marker (filename : string) (lineno : Z) :
  (forall ln c,
      parseLoop ln ln 0 (newCommand filename lineno) [] (-1) false = inr c ->
      name c <> EmptyString ->
      (forall pre, rawArgs c = pre ++ [[mkFrag "&" false]] ->
                   parse filename lineno ln
                   = inr (Some (set_rawArgs pre (set_background true c))))
      /\ (last (rawArgs c) <> Some [mkFrag "&" false] ->
          parse filename lineno ln = inr (Some c) /\ background c = false))
  /\ (forall l0 c0,
      parse filename lineno l0 = inr (Some c0) ->
      background c0 = false ->
      hasByte "#" l0 = false ->
      parse filename lineno (l0 +:+ " &") = inr (Some (set_background true c0))
      /\ parse filename lineno (l0 +:+ " '&'")
         = inr (Some (set_rawArgs (rawArgs c0 ++ [[mkFrag "&" true; mkFrag EmptyString false]]) c0))
      /\ background (set_rawArgs (rawArgs c0 ++ [[mkFrag "&" true; mkFrag EmptyString false]]) c0)
         = false).
Proof.
  split.
  - intros ln c Hloop Hname.
    assert (Hbg : background c = false).
    { rewrite parseLoop_scan in Hloop.
      apply (scan_keeps (String.length ln)) in Hloop as [-> _]; [reflexivity | lia]. }
    apply String.eqb_neq in Hname.
    split.
    + intros pre Hr. unfold parse. rewrite Hloop. unfold parseFinish.
      rewrite Hname, Hr, last_snoc. cbn [negb frag_quoted frag_s andb String.eqb Ascii.eqb
                                         Bool.eqb].
      rewrite length_app. cbn [length].
      replace (length pre + 1 - 1)%nat with (length pre) by lia.
      rewrite take_app_length.
      destruct c; reflexivity.
    + intros Hlast. split; [|exact Hbg].
      unfold parse. rewrite Hloop. unfold parseFinish. rewrite Hname.
      destruct (last (rawArgs c)) as [[|f [|g fr]]|] eqn:Hl; try reflexivity.
      destruct f as [t q]. cbn [frag_quoted frag_s].
      destruct q; [reflexivity|]. cbn [negb andb].
      destruct (String.eqb t "&") eqn:Ht; [|reflexivity].
      apply String.eqb_eq in Ht. subst t. congruence.
  - intros l0 c0 Hparse Hbg Hnc.
    rewrite parse_scan in Hparse.
    destruct (scan l0 (newCommand filename lineno) [] None false) as [e|c] eqn:Hscan;
      [discriminate|].
    pose proof (parseFinish_some _ _ Hparse) as Hname.
    assert (Hbgc : background c = false).
    { apply (scan_keeps (String.length l0)) in Hscan as [-> _]; [reflexivity | lia]. }
    pose proof (parseFinish_foreground _ _ Hparse Hbgc Hbg) as ->.
    split; [|split; [|exact Hbg]].
    + rewrite parse_scan.
      change (l0 +:+ " &") with (l0 +:+ String " " "&").
      rewrite (scan_then_separator (String.length l0) l0 "&" _ _ _ _ c " ");
        [| lia | assumption | assumption | reflexivity | reflexivity].
      cbn [scan negb andb strings.ContainsRune argSepChars Ascii.eqb Bool.eqb squote pushc addc app].
      rewrite flushArg_arg by (assumption || discriminate).
      unfold parseFinish. cbn [name set_rawArgs rawArgs].
      apply String.eqb_neq in Hname. rewrite Hname.
      rewrite last_snoc. cbn [negb frag_quoted frag_s andb String.eqb Ascii.eqb Bool.eqb].
      rewrite length_app. cbn [length].
      replace (length (rawArgs c) + 1 - 1)%nat with (length (rawArgs c)) by lia.
      rewrite take_app_length.
      destruct c; reflexivity.
    + rewrite parse_scan.
      change (l0 +:+ " '&'") with (l0 +:+ String " " "'&'").
      rewrite (scan_then_separator (String.length l0) l0 "'&'" _ _ _ _ c " ");
        [| lia | assumption | assumption | reflexivity | reflexivity].
      cbn [scan negb andb strings.ContainsRune argSepChars Ascii.eqb Bool.eqb squote pushc addc app].
      rewrite flushArg_arg by (assumption || discriminate).
      unfold parseFinish. cbn [name set_rawArgs rawArgs].
      apply String.eqb_neq in Hname. rewrite Hname.
      rewrite last_snoc. reflexivity.
Qed.

Lemma parse_background_marker_witness :
  (parseLoop "exec server & # start" "exec server & # start" 0 (newCommand "script.txt" 2)
             [] (-1) false
   = inr (mkCommand "script.txt" 2 success [] "exec"
            [[mkFrag "server" false]; [mkFrag "&" false]] [] [] false)
   /\ parse "script.txt" 2 "exec server & # start"
      = inr (Some (mkCommand "script.txt" 2 success [] "exec"
                     [[mkFrag "server" false]] [] [] true)))
  /\ (parse "script.txt" 2 "exec server"
      = inr (Some (mkCommand "script.txt" 2 success [] "exec" [[mkFrag "server" false]]
                     [] [] false))
      /\ hasByte "#" "exec server" = false
      /\ parse "script.txt" 2 ("exec server" +:+ " &")
         = inr (Some (mkCommand "script.txt" 2 success [] "exec" [[mkFrag "server" false]]
                        [] [] true))
      /\ parse "script.txt" 2 ("exec server" +:+ " '&'")
         = inr (Some (mkCommand "script.txt" 2 success [] "exec"
                        [[mkFrag "server" false]; [mkFrag "&" true; mkFrag EmptyString false]]
                        [] [] false))).
Proof.
  destruct (parse_background_marker "script.txt" 2) as [A B].
  split.
  - split; [reflexivity|].
    destruct (A "exec server & # start"
                (mkCommand "script.txt" 2 success [] "exec"
                   [[mkFrag "server" false]; [mkFrag "&" false]] [] [] false))
      as [A1 _]; [reflexivity | discriminate |].
    apply (A1 [[mkFrag "server" false]]). reflexivity.
  - destruct (B "exec server"
                (mkCommand "script.txt" 2 success [] "exec" [[mkFrag "server" false]]
                   [] [] false))
      as (B1 & B2 & _); [reflexivity | reflexivity | reflexivity |].
    split; [reflexivity|]. split; [reflexivity|].
    split; [exact B1 | exact B2].
Defined.

(** C8, as stated, fails: a lone [&] that is the first token of the line
    is the command name; the command is not in the background. *)
Lemma parse_lone_ampersand_is_name :
  parse "script.txt" 1 "&"
  = inr (Some (mkCommand "script.txt" 1 success [] "&" [] [] [] false))
  /\ parse "script.txt" 1 "! &"
     = inr (Some (mkCommand "script.txt" 1 failure [] "&" [] [] [] false)).
Proof. split; reflexivity. Qed.

(** A command comes out of [parse] without arguments: they are assigned
    when the line is dispatched. *)
Lemma parse_no_args (filename : string) (lineno : Z) (ln : string) (cmd : command) :
  parse filename lineno ln = inr (Some cmd) -> origArgs cmd = [] /\ args cmd = [].
Proof.
  rewrite parse_scan.
  destruct (scan ln (newCommand filename lineno) [] None false) as [e|c] eqn:Hscan;
    [discriminate|].
  apply (scan_keeps (String.length ln)) in Hscan as (_ & _ & _ & Ho & Ha); [|lia].
  cbn [newCommand origArgs args] in Ho, Ha.
  unfold parseFinish. destruct (String.eqb (name c) EmptyString).
  - destruct (_ || _); discriminate.
  - destruct (last (rawArgs c)) as [[|f [|g fr]]|]; try (intros [= <-]; auto).
    destruct (_ && _); intros [= <-]; auto.
Qed.

(** ** The execution loop *)

Section EngineProps.

Context {Writer WaitFunc FlagSet FlagDecl Env : Type}.
Variable Write : Writer -> string -> Writer * option error.
Variable callWait :
  WaitFunc -> @State WaitFunc FlagSet Env
  -> @State WaitFunc FlagSet Env * string * string * option error.
Variable ExpandEnv : @State WaitFunc FlagSet Env -> string -> bool -> string.
Variable pflagParse : string -> option FlagDecl -> list string -> flagParse FlagSet.
Variable ListCmds :
  @Engine WaitFunc FlagSet FlagDecl Env -> bool -> string -> string * option error.
Variable F : Formatter.

Local Abbreviation engine := (@Engine WaitFunc FlagSet FlagDecl Env).
Local Abbreviation state := (@State WaitFunc FlagSet Env).
Local Abbreviation frameT := (@frame Writer WaitFunc FlagSet Env).
Local Abbreviation loop := (mainLoop Write callWait ExpandEnv pflagParse ListCmds F).
Local Abbreviation retry := (retryLoop Write callWait pflagParse ListCmds F).
Local Abbreviation run := (runCommand callWait pflagParse ListCmds F).
Local Abbreviation again := (replay callWait pflagParse ListCmds F).
Local Abbreviation guards := (conditionsActive F).
Local Abbreviation flushSection := (endSection Write F).
Local Abbreviation exec := (Execute Write callWait ExpandEnv pflagParse ListCmds F).

Ltac frame_simpl :=
  cbn [st calls out script lineno sectionStart sectionCmds
       set_st set_calls set_out set_script set_lineno set_sectionStart set_sectionCmds] in *.

(** *** Reading a line *)

Lemma nextLine_read (r ln rest : string) :
  nextLine r = Some (ln, rest) ->
  exists raw eof,
    ReadString r = (raw, rest, eof)
    /\ eof && String.eqb raw EmptyString = false
    /\ strings.TrimSuffix raw LF = ln.
Proof.
  unfold nextLine. destruct (ReadString r) as [[raw rest'] eof].
  destruct (eof && String.eqb raw EmptyString) eqn:E; [discriminate|].
  intros [= <- <-]. eauto.
Qed.

Lemma substring_prefix (a : string) : forall b,
  String.substring 0 (String.length a) (a +:+ b) = a.
Proof.
  induction a as [|c a IH]; intros b.
  - rewrite string_app_nil_l. apply substring_zero_len.
  - rewrite string_app_cons. simpl. rewrite IH. reflexivity.
Qed.

Lemma substring_last_byte (a : string) : forall c,
  String.substring (String.length a) 1 (a +:+ String c EmptyString) = String c EmptyString.
Proof.
  induction a as [|d a IH]; intros c; [reflexivity|].
  rewrite string_app_cons. simpl. apply IH.
Qed.

Lemma substring_one_without (c : ascii) (t : string) : forall k,
  hasByte c t = false -> String.substring k 1 t <> String c EmptyString.
Proof.
  induction t as [|d t IH]; intros k H.
  - destruct k; discriminate.
  - cbn [hasByte] in H. apply orb_false_iff in H as [Hd Ht].
    destruct k as [|k]; simpl.
    + rewrite substring_zero_len. intros [= ->]. rewrite Ascii.eqb_refl in Hd. discriminate.
    + apply IH. assumption.
Qed.

Lemma TrimSuffix_newline (ln : string) : strings.TrimSuffix (ln +:+ LF) LF = ln.
Proof.
  unfold strings.TrimSuffix, strings.HasSuffix.
  rewrite string_length_app. cbn [String.length LF].
  replace (1 <=? String.length ln + 1)%nat with true by (symmetry; apply Nat.leb_le; lia).
  replace (String.length ln + 1 - 1)%nat with (String.length ln) by lia.
  unfold LF. rewrite substring_last_byte, String.eqb_refl.
  apply substring_prefix.
Qed.

Lemma TrimSuffix_no_newline (ln : string) :
  hasByte "010" ln = false -> strings.TrimSuffix ln LF = ln.
Proof.
  intros H. unfold strings.TrimSuffix, strings.HasSuffix.
  cbn [String.length LF].
  destruct (1 <=? String.length ln)%nat; [|reflexivity].
  pose proof (substring_one_without "010" ln (String.length ln - 1) H) as Hne.
  apply String.eqb_neq in Hne. unfold LF. rewrite Hne. reflexivity.
Qed.

Lemma ReadString_line (ln : string) : forall rest,
  hasByte "010" ln = false ->
  ReadString (ln +:+ LF +:+ rest) = (ln +:+ LF, rest, false).
Proof.
  induction ln as [|c ln IH]; intros rest H.
  - reflexivity.
  - cbn [hasByte] in H. apply orb_false_iff in H as [Hc Hln].
    rewrite !string_app_cons. cbn [ReadString]. rewrite Hc, IH by assumption. reflexivity.
Qed.

Lemma ReadString_last (ln : string) :
  hasByte "010" ln = false -> ReadString ln = (ln, EmptyString, true).
Proof.
  induction ln as [|c ln IH]; intros H; [reflexivity|].
  cbn [hasByte] in H. apply orb_false_iff in H as [Hc Hln].
  cbn [ReadString]. rewrite Hc, IH by assumption. reflexivity.
Qed.

(** A line followed by a newline, and the last line of a script that does
    not end with a newline. *)
Lemma nextLine_line (ln rest : string) :
  hasByte "010" ln = false -> nextLine (ln +:+ LF +:+ rest) = Some (ln, rest).
Proof.
  intros H. unfold nextLine. rewrite ReadString_line by assumption.
  cbn [andb]. rewrite TrimSuffix_newline. reflexivity.
Qed.

Lemma nextLine_last (ln : string) :
  hasByte "010" ln = false -> ln <> EmptyString -> nextLine ln = Some (ln, EmptyString).
Proof.
  intros H Hne. unfold nextLine. rewrite ReadString_last by assumption.
  apply String.eqb_neq in Hne. rewrite Hne. cbn [andb].
  rewrite TrimSuffix_no_newline by assumption. reflexivity.
Qed.

Lemma plainWord_no_newline (w : string) : plainWord w = true -> hasByte "010" w = false.
Proof.
  induction w as [|c w IH]; [reflexivity|].
  cbn [plainWord hasByte]. intros H. apply andb_true_iff in H as [Hc Hw].
  rewrite (IH Hw), orb_false_r.
  destruct (Ascii.eqb c "010") eqn:E; [|reflexivity].
  apply Ascii.eqb_eq in E. subst c. discriminate.
Qed.

(** *** A line whose guard is not met *)

Lemma mainLoop_skip (fuel : nat) (e : engine) (fn : string) (ri mi : Z) (f : frameT)
    (ln rest : string) (cmd : command) (s : state) (tr : list event) :
  ctx (st f) = None ->
  nextLine (script f) = Some (ln, rest) ->
  strings.HasPrefix ln "#" = false ->
  parse fn (wrap64 (lineno f + 1)) ln = inr (Some cmd) ->
  guards e (Logf ("> " +:+ ln +:+ LF) (st f)) (calls f) (conds cmd) = (s, tr, false, None) ->
  loop (S fuel) e fn ri mi f
  = loop fuel e fn ri mi
      (mkFrame (Logf ("[condition not met]" +:+ LF) s) tr (out f) rest
               (wrap64 (lineno f + 1)) (sectionStart f) (sectionCmds f ++ [cmd])).
Proof.
  intros Hctx Hread Hsharp Hparse Hguard.
  apply nextLine_read in Hread as (raw & eof & Hrs & Heof & Htrim).
  cbn [mainLoop]. rewrite Hctx, Hrs, Heof, Htrim. frame_simpl.
  rewrite Hsharp, Hparse. frame_simpl. rewrite Hguard. frame_simpl.
  reflexivity.
Qed.

(** *** Condition guards *)

(** [conditionsActive] asks nothing of the world but the evaluation of
    conditions. *)
Lemma conditionsActive_events (e : engine) (cs : list condition) :
  forall (s : state) tr s' tr' ok err,
    guards e s tr cs = (s', tr', ok, err) ->
    exists evs, tr' = tr ++ evs /\ Forall (fun ev => isEval ev = true) evs.
Proof.
  induction cs as [|c cs IH]; intros s tr s' tr' ok err H; cbn [conditionsActive] in H.
  - injection H as <- <- <- <-. exists []. rewrite app_nil_r. auto.
  - destruct (lookupCond F e c) as [lerr|[impl sfx]].
    + injection H as <- <- <- <-. exists []. rewrite app_nil_r. auto.
    + destruct (Eval impl s sfx) as [[s1 active] everr].
      destruct everr as [everr|].
      * injection H as <- <- <- <-. exists [EvEval (tag c) sfx]. auto.
      * destruct (negb (Bool.eqb active (cwant c))).
        -- injection H as <- <- <- <-. exists [EvEval (tag c) sfx]. auto.
        -- apply IH in H as (evs & -> & Hevs).
           exists (EvEval (tag c) sfx :: evs). rewrite <- app_assoc. auto.
Qed.

(** The conditions are evaluated in order; the first evaluator that
    returns a value other than the wanted one, with a nil error, ends
    the evaluation: the guard is not met, and no error is returned. *)
Lemma conditionsActive_mismatch (e : engine) (pre : list condition) :
  forall (s : state) tr c post s1 tr1 impl sfx s2 active,
    guards e s tr pre = (s1, tr1, true, None) ->
    lookupCond F e c = inr (impl, sfx) ->
    Eval impl s1 sfx = (s2, active, None) ->
    active <> cwant c ->
    guards e s tr (pre ++ c :: post) = (s2, tr1 ++ [EvEval (tag c) sfx], false, None).
Proof.
  induction pre as [|p pre IH]; intros s tr c post s1 tr1 impl sfx s2 active Hpre Hl He Hne.
  - cbn [conditionsActive] in Hpre. injection Hpre as <- <-.
    cbn [app conditionsActive]. rewrite Hl, He.
    destruct active, (cwant c); cbn; congruence.
  - cbn [conditionsActive] in Hpre. rewrite <- app_comm_cons. cbn [conditionsActive].
    destruct (lookupCond F e p) as [lerr|[pimpl psfx]]; [discriminate|].
    destruct (Eval pimpl s psfx) as [[s0 pactive] perr].
    destruct perr; [discriminate|].
    destruct (negb (Bool.eqb pactive (cwant p))); [discriminate|].
    apply (IH _ _ _ _ _ _ _ _ _ _ Hpre Hl He Hne).
Qed.

(** With evaluators that leave the State alone and return no error, the
    guard is the conjunction, over all the conditions, of the value of the
    condition compared with its wanted polarity. *)
Lemma conditionsActive_conjunction (e : engine) (v : condition -> bool)
    (cs : list condition) :
  Forall (fun c => exists impl sfx,
                     lookupCond F e c = inr (impl, sfx)
                     /\ forall s : state, Eval impl s sfx = (s, v c, None)) cs ->
  forall (s : state) tr, exists tr',
    guards e s tr cs = (s, tr', forallb (fun c => Bool.eqb (v c) (cwant c)) cs, None).
Proof.
  induction 1 as [|c cs (impl & sfx & Hl & He) _ IH]; intros s tr.
  - exists tr. reflexivity.
  - cbn [conditionsActive forallb]. rewrite Hl, He.
    destruct (Bool.eqb (v c) (cwant c)); cbn [negb andb]; [apply IH | eauto].
Qed.

(** *** Flushing a section *)

Lemma endSection_frame (e : engine) (ok : bool) (f f' : frameT) (err : option error) :
  flushSection e ok f = (f', err) ->
  calls f' = calls f /\ script f' = script f /\ lineno f' = lineno f
  /\ sectionStart f' = false /\ sectionCmds f' = [] /\ log (st f') = EmptyString.
Proof.
  unfold endSection, FlushLog, WriteString.
  destruct (sectionStart f).
  - cbn [negb]. destruct (strings.len (log (st f)) =? 0) eqn:E.
    + destruct (Write (out f) LF) as [w werr]. intros [= <- <-]. frame_simpl.
      apply Z.eqb_eq in E. unfold strings.len in E.
      destruct (log (st f)); [auto 10 | simpl in E; lia].
    + destruct (Write (out f) _) as [w werr]. frame_simpl.
      destruct (bool_decide (werr = None) && (negb ok || negb (Quiet e))).
      * destruct (Write w _) as [w' werr']. intros [= <- <-]. frame_simpl. auto 10.
      * intros [= <- <-]. frame_simpl. auto 10.
  - cbn [negb]. destruct (0 <? strings.len (log (st f))) eqn:E.
    + destruct (Write (out f) _) as [w werr]. intros [= <- <-]. frame_simpl. auto 10.
    + intros [= <- <-]. frame_simpl.
      apply Z.ltb_ge in E. unfold strings.len in E.
      destruct (log (st f)); [auto 10 | simpl in E; lia].
Qed.

(** *** A line that is dispatched *)

(** The State and the command with which [Execute] calls [runCommand]
    for a line whose guard is met: arguments expanded, retry counter reset,
    retries requested by the markers [*] and [!*]. *)
Lemma mainLoop_dispatch (fuel : nat) (e : engine) (fn : string) (ri mi : Z) (f : frameT)
    (ln rest : string) (cmd : command) (s : state) (tr : list event) :
  ctx (st f) = None ->
  nextLine (script f) = Some (ln, rest) ->
  strings.HasPrefix ln "#" = false ->
  parse fn (wrap64 (lineno f + 1)) ln = inr (Some cmd) ->
  guards e (Logf ("> " +:+ ln +:+ LF) (st f)) (calls f) (conds cmd) = (s, tr, true, None) ->
  loop (S fuel) e fn ri mi f
  = let impl := Cmds e !! name cmd in
    let expanded := expandArgs ExpandEnv s (rawArgs cmd) (regexpArgsOf impl cmd) in
    let '(s2, tr2, cmd2, err) :=
      run e (set_retriesRequested (wantsRetry (want cmd)) (set_RetryCount 0 s)) tr
          (set_args expanded (set_origArgs expanded cmd)) impl in
    let f2 := mkFrame s2 tr2 (out f) rest (wrap64 (lineno f + 1)) (sectionStart f)
                      (sectionCmds f ++ [cmd2]) in
    match err with
    | None => loop fuel e fn ri mi f2
    | Some err =>
        if retriesRequested s2 then
          let '(f3, _) := WriteString Write LF (set_sectionStart false f2) in
          let '(f4, _) := FlushLog Write f3 in
          match retry fuel e fn ln f4 (mkBackoff mi ri) with
          | None => None
          | Some (f5, Some err) => Some (f5, Some err)
          | Some (f5, None) =>
              let '(f6, _) :=
                WriteString Write
                  ("(command " +:+ fmt_q F ln +:+ " succeeded after "
                   +:+ fmt_d F (RetryCount (st f5)) +:+ " retries in "
                   +:+ fmt_since F +:+ "s)" +:+ LF) f5 in
              loop fuel e fn ri mi (set_st (set_RetryCount 0 (st f6)) f6)
          end
        else
          match errors.As_stopError err with
          | Some stop =>
              let '(f3, err) := flushSection e true f2 in
              let f3 := set_st (Logf (fmt_v F stop +:+ LF) (st f3)) f3 in
              match err with
              | None => Some (f3, None)
              | Some err => Some (f3, Some (lineErr F fn f3 err))
              end
          | None => Some (f2, Some (lineErr F fn f2 err))
          end
    end.
Proof.
  intros Hctx Hread Hsharp Hparse Hguard.
  apply nextLine_read in Hread as (raw & eof & Hrs & Heof & Htrim).
  cbn [mainLoop]. rewrite Hctx, Hrs, Heof, Htrim. frame_simpl.
  rewrite Hsharp, Hparse. frame_simpl. rewrite Hguard. frame_simpl.
  cbn [negb want set_args set_origArgs name rawArgs].
  unfold wantsRetry.
  destruct (run e _ tr _ (Cmds e !! name cmd)) as [[[s2 tr2] cmd2] err].
  frame_simpl. reflexivity.
Qed.



(** *** The dispatch of a capability that succeeds *)

Lemma runCommand_success (e : engine) (s : state) (tr : list event) (cmd : command)
    (impl : @Cmd WaitFunc FlagSet FlagDecl Env) (rest : list string) (fs : FlagSet) :
  background cmd = false ->
  alwaysSucceeds callWait impl ->
  pflagParse (name cmd) (FlagsDecl (Usage impl)) (origArgs cmd) = FlagOk rest fs ->
  exists s' evs,
    run e s tr cmd (Some impl)
    = (s', tr ++ EvRun (name cmd) rest :: evs, set_args rest cmd,
       checkStatus (set_args rest cmd) None)
    /\ retriesRequested s' = retriesRequested s.
Proof.
  intros Hbg Hok Hflags. unfold runCommand.
  rewrite Hbg, Hflags. cbn [andb args set_args name background].
  destruct (Hok (set_Flags (Some fs) s) rest)
    as [(Hasync & s' & Hrun & Hrr) | (s' & w & s'' & o & eo & Hrun & Hwait & Hrr)].
  - rewrite Hrun, Hasync. cbn [andb]. exists s', []. split; [reflexivity | exact Hrr].
  - rewrite Hrun. rewrite Hbg, Hwait.
    destruct (checkStatus (set_args rest cmd) None) eqn:Hcs.
    + eexists _, [EvWait (name cmd)]. split.
      * rewrite <- app_assoc. reflexivity.
      * destruct (negb (String.eqb o EmptyString)), (negb (String.eqb eo EmptyString));
          cbn; exact Hrr.
    + eexists _, [EvWait (name cmd)]. split.
      * rewrite <- app_assoc. reflexivity.
      * destruct (negb (String.eqb o EmptyString)), (negb (String.eqb eo EmptyString));
          cbn; exact Hrr.
Qed.

(** C2.  Under the expectations [!] and [!*], a nil outcome is reported
    by [checkStatus] as the error of an unexpected success.  In
    particular, when the command named [n] always succeeds, the script
    made of the line [! n] fails: [Execute] returns that error for the
    command, at line 1. *)
Theorem negated_success_fails (cmd : command) (fuel : nat) (e : engine) (s0 : state)
    (fn n : string) (impl : @Cmd WaitFunc FlagSet FlagDecl Env) (fs : FlagSet) (w0 : Writer) :
  want cmd = failure \/ want cmd = failureRetryOnSuccess ->
  plainName n = true ->
  Cmds e !! n = Some impl ->
  alwaysSucceeds callWait impl ->
  pflagParse n (FlagsDecl (Usage impl)) [] = FlagOk [] fs ->
  ctx s0 = None ->
  checkStatus cmd None = Some (cmdError cmd ErrUnexpectedSuccess)
  /\ exists s' tr w',
       exec (S fuel) e s0 fn ("! " +:+ n) w0
       = Some (s', tr, w', Some (CommandError fn 1 n [] ErrUnexpectedSuccess)).
Proof.
  intros Hwant Hn Himpl Hok Hflags Hctx. split.
  { rewrite checkStatus_nil. destruct Hwant as [-> | ->]; reflexivity. }
  unfold Execute.
  set (ri := if RetryInterval e =? 0 then _ else _).
  set (mi := if MaxRetryInterval e =? 0 then _ else _).
  assert (Hnl : hasByte "010" ("! " +:+ n) = false).
  { change ("! " +:+ n) with (String "!" (String " " n)). cbn [hasByte].
    rewrite (plainWord_no_newline n (plainName_plainWord n Hn)). reflexivity. }
  rewrite (mainLoop_dispatch fuel e fn ri mi _ ("! " +:+ n) EmptyString
             (mkCommand fn 1 failure [] n [] [] [] false) (Logf ("> " +:+ ("! " +:+ n) +:+ LF) s0) []).
  2:{ exact Hctx. }
  2:{ apply nextLine_last; [exact Hnl | discriminate]. }
  2:{ reflexivity. }
  2:{ apply parse_negated. exact Hn. }
  2:{ reflexivity. }
  cbv zeta. cbn [name rawArgs want expandArgs expandArgsFrom].
  rewrite Himpl.
  destruct (runCommand_success e
              (set_retriesRequested (wantsRetry failure)
                 (set_RetryCount 0 (Logf ("> " +:+ ("! " +:+ n) +:+ LF) s0)))
              [] (set_args [] (set_origArgs [] (mkCommand fn 1 failure [] n [] [] [] false)))
              impl [] fs) as (s' & evs & Hrun & Hrr); [reflexivity | exact Hok | exact Hflags |].
  rewrite Hrun. frame_simpl.
  match goal with
  | |- context [checkStatus ?c None] =>
      replace (checkStatus c None)
        with (Some (CommandError fn 1 n [] ErrUnexpectedSuccess)) by reflexivity
  end.
  replace (retriesRequested s') with false by (rewrite Hrr; reflexivity).
  replace (errors.As_stopError (CommandError fn 1 n [] ErrUnexpectedSuccess))
    with (@None error) by reflexivity.
  unfold lineErr.
  replace (bool_decide (is_Some (errors.As_CommandError
                                   (CommandError fn 1 n [] ErrUnexpectedSuccess))))
    with true by (symmetry; apply bool_decide_eq_true_2; eexists; reflexivity).
  destruct (flushSection e false _) as [f' sErr].
  destruct sErr; eexists _, _, _; reflexivity.
Qed.

(** *** Replay of a section *)

Ltac inj_tuple H := injection H as <- <- <- <-.

(** [runCommand] asks for no evaluation of a condition, and it does not
    touch the recorded [origArgs] (nor the name and the raw arguments) of
    the command. *)
Lemma runCommand_events (e : engine) (s : state) (tr : list event) (cmd : command)
    (impl : option (@Cmd WaitFunc FlagSet FlagDecl Env)) s' tr' cmd' err :
  run e s tr cmd impl = (s', tr', cmd', err) ->
  (exists evs, tr' = tr ++ evs /\ Forall (fun ev => isDispatch ev = true) evs)
  /\ origArgs cmd' = origArgs cmd /\ name cmd' = name cmd /\ rawArgs cmd' = rawArgs cmd.
Proof.
  unfold runCommand. intros H.
  assert (Hnil : exists evs, tr = tr ++ evs /\ Forall (fun ev => isDispatch ev = true) evs).
  { exists []. rewrite app_nil_r. auto. }
  destruct impl as [impl|]; [|inj_tuple H; auto].
  destruct (background cmd && negb (Async (Usage impl))); [inj_tuple H; auto|].
  assert (Hrun : forall (s0 : state) (c0 : command) s1 tr1 c1 err1,
             origArgs c0 = origArgs cmd -> name c0 = name cmd -> rawArgs c0 = rawArgs cmd ->
             (let '(st, wait, runErr) := Run impl s0 (args c0) in
              let tr := tr ++ [EvRun (name c0) (args c0)] in
              match wait with
              | None =>
                  if Async (Usage impl) && bool_decide (runErr = None) then
                    (st, tr, c0,
                     Some (cmdError c0 (errors.New "internal error: async command returned a nil WaitFunc")))
                  else (st, tr, c0, checkStatus c0 runErr)
              | Some wait =>
                  match runErr with
                  | Some _ =>
                      (st, tr, c0,
                       Some (cmdError c0
                         (errors.New "internal error: command returned both an error and a WaitFunc")))
                  | None =>
                      if background c0 then
                        let st := set_backgroundCmds (backgroundCmds st ++ [(c0, wait)]) st in
                        let st := set_stderr EmptyString (set_stdout EmptyString st) in
                        (st, tr, c0, None)
                      else
                        let '(st, out, errOut, waitErr) := callWait wait st in
                        let tr := tr ++ [EvWait (name c0)] in
                        let st := set_stderr errOut (set_stdout out st) in
                        let st := if negb (String.eqb out EmptyString)
                                  then Logf ("[stdout]" +:+ LF +:+ out) st else st in
                        let st := if negb (String.eqb errOut EmptyString)
                                  then Logf ("[stderr]" +:+ LF +:+ errOut) st else st in
                        match checkStatus c0 waitErr with
                        | Some cmdErr => (st, tr, c0, Some cmdErr)
                        | None =>
                            match waitErr with
                            | Some werr =>
                                (Logf ("[" +:+ fmt_v F werr +:+ "]" +:+ LF) st, tr, c0, None)
                            | None => (st, tr, c0, None)
                            end
                        end
                  end
              end) = (s1, tr1, c1, err1) ->
             (exists evs, tr1 = tr ++ evs /\ Forall (fun ev => isDispatch ev = true) evs)
             /\ origArgs c1 = origArgs cmd /\ name c1 = name cmd /\ rawArgs c1 = rawArgs cmd).
  { clear H. intros s0 c0 s1 tr1 c1 err1 Ho Hn Hr H0.
    destruct (Run impl s0 (args c0)) as [[st0 wait] runErr].
    assert (H1 : exists evs, tr ++ [EvRun (name c0) (args c0)] = tr ++ evs
                             /\ Forall (fun ev => isDispatch ev = true) evs) by eauto.
    assert (H2 : exists evs, (tr ++ [EvRun (name c0) (args c0)]) ++ [EvWait (name c0)] = tr ++ evs
                             /\ Forall (fun ev => isDispatch ev = true) evs).
    { eexists. rewrite <- app_assoc. split; [reflexivity|]. repeat constructor. }
    destruct wait as [wait|].
    - destruct runErr; [inj_tuple H0; auto|].
      destruct (background c0); [inj_tuple H0; auto|].
      destruct (callWait wait st0) as [[[st1 o] eo] waitErr].
      destruct (checkStatus c0 waitErr); [inj_tuple H0; auto|].
      destruct waitErr; inj_tuple H0; auto.
    - destruct (Async (Usage impl) && bool_decide (runErr = None)); inj_tuple H0; auto. }
  destruct (pflagParse (name cmd) (FlagsDecl (Usage impl)) (origArgs cmd)) as [|perr|rest fs].
  - destruct (ListCmds e true _) as [o lerr]. inj_tuple H. auto.
  - destruct (FlagsDecl (Usage impl)); [inj_tuple H; auto|].
    eapply Hrun; [| | | exact H]; reflexivity.
  - eapply Hrun; [| | | exact H]; reflexivity.
Qed.

Lemma replay_events (e : engine) (cmds : list command) :
  forall (s : state) tr s' tr' cmds' err,
    again e s tr cmds = (s', tr', cmds', err) ->
    (exists evs, tr' = tr ++ evs /\ Forall (fun ev => isDispatch ev = true) evs)
    /\ map origArgs cmds' = map origArgs cmds
    /\ map name cmds' = map name cmds
    /\ map rawArgs cmds' = map rawArgs cmds.
Proof.
  induction cmds as [|c cmds IH]; intros s tr s' tr' cmds' err H; cbn [replay] in H.
  - inj_tuple H. split; [|auto]. exists []. rewrite app_nil_r. auto.
  - destruct (run e s tr c (Cmds e !! name c)) as [[[s1 tr1] c1] err1] eqn:Hrun.
    apply runCommand_events in Hrun as ((evs1 & -> & Hevs1) & Ho & Hn & Hr).
    destruct err1 as [err1|].
    + inj_tuple H. cbn [map]. rewrite Ho, Hn, Hr. eauto 10.
    + destruct (again e s1 (tr ++ evs1) cmds) as [[[s2 tr2] cmds2] err2] eqn:Hrest.
      apply IH in Hrest as ((evs2 & -> & Hevs2) & Ho2 & Hn2 & Hr2).
      inj_tuple H. cbn [map]. rewrite Ho, Hn, Hr, Ho2, Hn2, Hr2.
      split; [|auto]. exists (evs1 ++ evs2). rewrite app_assoc. split; [reflexivity|].
      apply Forall_app; auto.
Qed.



(** X15.  The first pass over a guarded line.  On a line whose conditions
    before [c] hold and whose condition [c] is evaluated, with a nil
    error, to a value other than its wanted polarity: the guard is not met
    ([conditionsActive] returns false and no error), and the loop of
    [Execute] goes on with the next line after logging
    [[condition not met]]; it has asked only for evaluations of conditions
    (no capability of a command is run), and the command is recorded for
    the section as parsed, without arguments.  The guard is the
    conjunction over all the conditions of the line of their value
    compared with their polarity (for evaluators that leave the State
    alone and return no error). *)
Theorem guard_not_met_skips (fuel : nat) (e : engine) (fn : string) (ri mi : Z) (f : frameT)
    (ln rest : string) (cmd : command) (pre : list condition) (c : condition)
    (post : list condition) (s1 : state) (tr1 : list event)
    (impl : @Cond WaitFunc FlagSet Env) (sfx : string) (s2 : state) (active : bool) :
  ctx (st f) = None ->
  nextLine (script f) = Some (ln, rest) ->
  strings.HasPrefix ln "#" = false ->
  parse fn (wrap64 (lineno f + 1)) ln = inr (Some cmd) ->
  conds cmd = pre ++ c :: post ->
  guards e (Logf ("> " +:+ ln +:+ LF) (st f)) (calls f) pre = (s1, tr1, true, None) ->
  lookupCond F e c = inr (impl, sfx) ->
  Eval impl s1 sfx = (s2, active, None) ->
  active <> cwant c ->
  guards e (Logf ("> " +:+ ln +:+ LF) (st f)) (calls f) (conds cmd)
    = (s2, tr1 ++ [EvEval (tag c) sfx], false, None)
  /\ loop (S fuel) e fn ri mi f
     = loop fuel e fn ri mi
         (mkFrame (Logf ("[condition not met]" +:+ LF) s2) (tr1 ++ [EvEval (tag c) sfx])
                  (out f) rest (wrap64 (lineno f + 1)) (sectionStart f)
                  (sectionCmds f ++ [cmd]))
  /\ (exists evs, tr1 ++ [EvEval (tag c) sfx] = calls f ++ evs
                  /\ Forall (fun ev => isEval ev = true) evs)
  /\ (origArgs cmd = [] /\ args cmd = [])
  /\ (forall v : condition -> bool,
        Forall (fun c => exists impl sfx,
                           lookupCond F e c = inr (impl, sfx)
                           /\ forall s : state, Eval impl s sfx = (s, v c, None)) (conds cmd) ->
        forall (s : state) tr, exists tr',
          guards e s tr (conds cmd)
          = (s, tr', forallb (fun c => Bool.eqb (v c) (cwant c)) (conds cmd), None)).
Proof.
  intros Hctx Hread Hsharp Hparse Hconds Hpre Hlookup Heval Hne.
  assert (Hguard : guards e (Logf ("> " +:+ ln +:+ LF) (st f)) (calls f) (conds cmd)
                   = (s2, tr1 ++ [EvEval (tag c) sfx], false, None)).
  { rewrite Hconds. apply (conditionsActive_mismatch e pre _ _ c post s1 tr1 impl sfx s2 active);
      assumption. }
  split; [exact Hguard|].
  split; [apply (mainLoop_skip fuel e fn ri mi f ln rest cmd); assumption|].
  split; [apply (conditionsActive_events e _ _ _ _ _ _ _ Hguard)|].
  split; [apply (parse_no_args _ _ _ _ Hparse)|].
  intros v Hv s tr. apply conditionsActive_conjunction. exact Hv.
Qed.


(** *** The waits of the retry loop *)

Lemma sleepsOf_app (a b : list event) : sleepsOf (a ++ b) = sleepsOf a ++ sleepsOf b.
Proof. apply omap_app. Qed.

Lemma sleepsOf_dispatch (evs : list event) :
  Forall (fun ev => isDispatch ev = true) evs -> sleepsOf evs = [].
Proof.
  induction 1 as [|ev evs Hev _ IH]; [reflexivity|].
  destruct ev; try discriminate; exact IH.
Qed.

Lemma map_waitAt_succ (b : exponentialBackoff) (n : nat) :
  map (waitAt b) (seq 0 (S n)) = interval b :: map (waitAt (snd (get b))) (seq 0 n).
Proof.
  cbn [seq map waitAt get fst]. f_equal.
  rewrite <- seq_shift, map_map. reflexivity.
Qed.

(** The retry loop waits, in order, what the successive calls of [get]
    return, and nothing else. *)
Lemma retryLoop_waits (fuel : nat) (e : engine) (fn ln : string) :
  forall (f : frameT) (b : exponentialBackoff) (f' : frameT) (err : option error),
    retry fuel e fn ln f b = Some (f', err) ->
    exists n, sleepsOf (calls f') = sleepsOf (calls f) ++ map (waitAt b) (seq 0 n).
Proof.
  induction fuel as [|fuel IH]; intros f b f' err H; [discriminate|].
  cbn [retryLoop get] in H. unfold WriteString in H.
  destruct (Write (out f) _) as [w1 werr1]. frame_simpl.
  destruct (ctx (st f)) as [cerr|].
  { injection H as <- <-. frame_simpl. exists 0%nat. rewrite app_nil_r. reflexivity. }
  frame_simpl.
  destruct (again e _ (calls f ++ [EvSleep (interval b)]) (sectionCmds f))
    as [[[s2 tr2] cmds'] err2] eqn:Hreplay.
  apply replay_events in Hreplay as ((evs & -> & Hevs) & _).
  unfold FlushLog, WriteString in H. frame_simpl.
  destruct (Write w1 (log s2)) as [w2 werr2]. frame_simpl.
  assert (Hs : sleepsOf ((calls f ++ [EvSleep (interval b)]) ++ evs)
               = sleepsOf (calls f) ++ [interval b]).
  { rewrite !sleepsOf_app, (sleepsOf_dispatch evs Hevs), app_nil_r. reflexivity. }
  destruct err2 as [err2|].
  - apply IH in H as (n & Hn). frame_simpl. exists (S n).
    rewrite Hn, Hs, map_waitAt_succ, <- app_assoc. reflexivity.
  - injection H as <- <-. frame_simpl. exists 1%nat. rewrite Hs. reflexivity.
Qed.

(** C5, as amended.  For an initial interval [I] and a maximum [M] with
    [0 <= I <= M < 2^62] nanoseconds, the wait before the [N]-th retry
    ([N >= 1]) is [min (I * 2^(N-1)) M], and it never exceeds [M]; the
    retry loop of [Execute] with this backoff waits exactly these
    durations, in order, one before each attempt. *)
Theorem backoff_wait_closed_form (I M : Z) (N : nat) (fuel : nat) (e : engine)
    (fn ln : string) (f f' : frameT) (err : option error) :
  0 <= I <= M -> M < 2 ^ 62 -> (1 <= N)%nat ->
  retry fuel e fn ln f (mkBackoff M I) = Some (f', err) ->
  nthWait (mkBackoff M I) N = Z.min (I * 2 ^ (Z.of_nat N - 1)) M
  /\ nthWait (mkBackoff M I) N <= M
  /\ exists n,
       sleepsOf (calls f')
       = sleepsOf (calls f)
         ++ map (fun k => Z.min (I * 2 ^ (Z.of_nat (S k) - 1)) M) (seq 0 n).
Proof.
  intros HI HM HN Hretry.
  destruct (nthWait_closed_form I M N HI HM HN) as [H1 H2].
  split; [exact H1|]. split; [exact H2|].
  destruct (retryLoop_waits fuel e fn ln f _ f' err Hretry) as (n & Hn).
  exists n. rewrite Hn. f_equal.
  apply map_ext. intros k.
  destruct (nthWait_closed_form I M (S k) HI HM) as [Hk _]; [lia|].
  unfold nthWait in Hk. replace (S k - 1)%nat with k in Hk by lia. exact Hk.
Qed.

End EngineProps.

(** ** Scripts on the concrete host *)

(** Evaluates the call of [runCommand] in the goal. *)
Ltac eval_runCommand :=
  match goal with
  | |- context [runCommand ?a ?b ?c ?d ?e ?s ?tr ?cmd ?impl] =>
      let v := eval vm_compute in (runCommand a b c d e s tr cmd impl) in
      change (runCommand a b c d e s tr cmd impl) with v
  end.


(** What follows the stop is not parsed: a line that [parse] rejects
    does no harm after it. *)
Lemma stop_before_malformed_line :
  Host.run 2 (Host.init 0) (Host.lines ["stop"; "'unterminated"]) Host.newBuffer
  = Some (set_Flags (Some tt) (Host.init 0), [EvRun "stop" []],
          Host.mkBuffer (Host.lines ["> stop"; "stop: "; EmptyString]) None, None)
  /\ parse "t.txt" 2 "'unterminated" = inl (errors.New "unterminated quoted argument").
Proof. split; reflexivity. Qed.




Lemma ok_cmd_alwaysSucceeds : alwaysSucceeds Host.callWait Host.ok_cmd.
Proof. intros s a. left. split; [reflexivity|]. exists s. split; reflexivity. Qed.

Lemma negated_success_fails_witness :
  checkStatus (mkCommand "t.txt" 1 failure [] "that-command" [] [] [] false) None
  = Some (CommandError "t.txt" 1 "that-command" [] ErrUnexpectedSuccess)
  /\ exists s' tr w',
       Host.run 1 (Host.init 0) "! that-command" Host.newBuffer
       = Some (s', tr, w', Some (CommandError "t.txt" 1 "that-command" [] ErrUnexpectedSuccess)).
Proof.
  apply (negated_success_fails Host.Write Host.callWait Host.ExpandEnv Host.pflagParse
           Host.ListCmds Host.F
           (mkCommand "t.txt" 1 failure [] "that-command" [] [] [] false)
           0 Host.engine (Host.init 0) "t.txt" "that-command" Host.ok_cmd tt Host.newBuffer).
  - left. reflexivity.
  - reflexivity.
  - reflexivity.
  - exact ok_cmd_alwaysSucceeds.
  - reflexivity.
  - reflexivity.
Defined.

Lemma guard_not_met_skips_witness :
  conditionsActive Host.F Host.engine
    (Logf ("> " +:+ "[always-false] cmd" +:+ LF) (Host.init 0)) []
    [mkCond true "always-false"]
  = (Logf ("> " +:+ "[always-false] cmd" +:+ LF) (Host.init 0),
     [EvEval "always-false" EmptyString], false, None)
  /\ mainLoop Host.Write Host.callWait Host.ExpandEnv Host.pflagParse Host.ListCmds Host.F
       2 Host.engine "t.txt" defaultRetryInterval defaultMaxRetryInterval
       (mkFrame (Host.init 0) [] Host.newBuffer "[always-false] cmd" 0 false [])
     = mainLoop Host.Write Host.callWait Host.ExpandEnv Host.pflagParse Host.ListCmds Host.F
         1 Host.engine "t.txt" defaultRetryInterval defaultMaxRetryInterval
         (mkFrame (Logf ("[condition not met]" +:+ LF)
                     (Logf ("> " +:+ "[always-false] cmd" +:+ LF) (Host.init 0)))
                  [EvEval "always-false" EmptyString] Host.newBuffer EmptyString 1 false
                  [mkCommand "t.txt" 1 success [mkCond true "always-false"] "cmd" [] [] []
                             false]).
Proof.
  destruct (guard_not_met_skips Host.Write Host.callWait Host.ExpandEnv Host.pflagParse
              Host.ListCmds Host.F 1 Host.engine "t.txt" defaultRetryInterval
              defaultMaxRetryInterval
              (mkFrame (Host.init 0) [] Host.newBuffer "[always-false] cmd" 0 false [])
              "[always-false] cmd" EmptyString
              (mkCommand "t.txt" 1 success [mkCond true "always-false"] "cmd" [] [] [] false)
              [] (mkCond true "always-false") []
              (Logf ("> " +:+ "[always-false] cmd" +:+ LF) (Host.init 0)) []
              (Host.always false) EmptyString
              (Logf ("> " +:+ "[always-false] cmd" +:+ LF) (Host.init 0)) false)
    as (G & L & _).
  - reflexivity.
  - reflexivity.
  - reflexivity.
  - reflexivity.
  - reflexivity.
  - reflexivity.
  - reflexivity.
  - reflexivity.
  - discriminate.
  - split; [exact G | exact L].
Defined.

(** The script of one guarded line, from end to end: the command is not
    run, and [Execute] returns nil. *)
Lemma guarded_line_script :
  Host.run 2 (Host.init 0) "[always-false] cmd" Host.newBuffer
  = Some (Host.init 0, [EvEval "always-false" EmptyString],
          Host.mkBuffer (Host.lines ["> [always-false] cmd"; "[condition not met]";
                                     EmptyString]) None,
          None).
Proof. reflexivity. Qed.

(** C9 fails on the code.  On the script
    [# s / [always-false] cmd / * flaky] the guard of the second line is
    evaluated once, to false, and the line is skipped as the claim says;
    but the command is recorded for the section before its guard is
    evaluated, and the retry of the section that the third line asks for
    runs it: the capability of [cmd] is invoked although its guard is not
    met. *)
Theorem guarded_command_replayed :
  exists s w,
    Host.run 5 (Host.init 1) (Host.lines ["# s"; "[always-false] cmd"; "* flaky"])
             Host.newBuffer
    = Some (s,
            [EvEval "always-false" EmptyString; EvRun "flaky" [];
             EvSleep 100000000; EvRun "cmd" []; EvRun "flaky" []],
            w, None).
Proof. eexists _, _. vm_compute. reflexivity. Qed.

(** [Execute] on the script of [Host.retryFrame] enters the retry loop
    with that frame. *)
Lemma retryFrame_reached (fuel : nat) :
  mainLoop Host.Write Host.callWait Host.ExpandEnv Host.pflagParse Host.ListCmds Host.F
    (3 + fuel) Host.engine "t.txt" defaultRetryInterval defaultMaxRetryInterval
    (mkFrame (Host.init 2) [] Host.newBuffer
             (Host.lines ["# s"; "[always-false] echo $X"; "* flaky"]) 0 false [])
  = match retryLoop Host.Write Host.callWait Host.pflagParse Host.ListCmds Host.F fuel
            Host.engine "t.txt" "* flaky" Host.retryFrame
            (mkBackoff defaultMaxRetryInterval defaultRetryInterval) with
    | None => None
    | Some (f5, Some err) => Some (f5, Some err)
    | Some (f5, None) =>
        let '(f6, _) :=
          WriteString Host.Write
            ("(command " +:+ fmt_q Host.F "* flaky" +:+ " succeeded after "
             +:+ fmt_d Host.F (RetryCount (st f5)) +:+ " retries in "
             +:+ fmt_since Host.F +:+ "s)" +:+ LF) f5 in
        mainLoop Host.Write Host.callWait Host.ExpandEnv Host.pflagParse Host.ListCmds Host.F
          fuel Host.engine "t.txt" defaultRetryInterval defaultMaxRetryInterval
          (set_st (set_RetryCount 0 (st f6)) f6)
    end.
Proof.
  change (3 + fuel)%nat with (S (S (S fuel))).
  transitivity
    (mainLoop Host.Write Host.callWait Host.ExpandEnv Host.pflagParse Host.ListCmds Host.F
       (S fuel) Host.engine "t.txt" defaultRetryInterval defaultMaxRetryInterval
       (mkFrame (Logf ("[condition not met]" +:+ LF)
                   (Logf ("> " +:+ "[always-false] echo $X" +:+ LF) (Host.init 2)))
                [EvEval "always-false" EmptyString]
                (Host.mkBuffer "# s" None) "* flaky" 2 true [Host.skippedEcho])).
  { reflexivity. }
  rewrite (mainLoop_dispatch Host.Write Host.callWait Host.ExpandEnv Host.pflagParse
             Host.ListCmds Host.F fuel Host.engine "t.txt" _ _ _ "* flaky" EmptyString
             Host.flakyLine
             (Logf ("> " +:+ "* flaky" +:+ LF)
                (Logf ("[condition not met]" +:+ LF)
                   (Logf ("> " +:+ "[always-false] echo $X" +:+ LF) (Host.init 2))))
             [EvEval "always-false" EmptyString]);
    [| reflexivity..].
  cbv zeta. eval_runCommand. reflexivity.
Qed.



Lemma backoff_wait_closed_form_witness :
  nthWait (mkBackoff defaultMaxRetryInterval defaultRetryInterval) 4
  = Z.min (defaultRetryInterval * 2 ^ (Z.of_nat 4 - 1)) defaultMaxRetryInterval
  /\ nthWait (mkBackoff defaultMaxRetryInterval defaultRetryInterval) 4
     <= defaultMaxRetryInterval
  /\ exists f' n,
       retryLoop Host.Write Host.callWait Host.pflagParse Host.ListCmds Host.F 3
         Host.engine "t.txt" "* flaky" Host.retryFrame
         (mkBackoff defaultMaxRetryInterval defaultRetryInterval) = Some (f', None)
       /\ sleepsOf (calls f')
          = sleepsOf (calls Host.retryFrame)
            ++ map (fun k => Z.min (defaultRetryInterval * 2 ^ (Z.of_nat (S k) - 1))
                                   defaultMaxRetryInterval) (seq 0 n).
Proof.
  destruct (retryLoop Host.Write Host.callWait Host.pflagParse Host.ListCmds Host.F 3
              Host.engine "t.txt" "* flaky" Host.retryFrame
              (mkBackoff defaultMaxRetryInterval defaultRetryInterval))
    as [[f' [err|]]|] eqn:Hretry; try (vm_compute in Hretry; discriminate).
  destruct (backoff_wait_closed_form Host.Write Host.callWait Host.pflagParse Host.ListCmds
              Host.F defaultRetryInterval defaultMaxRetryInterval 4 3 Host.engine
              "t.txt" "* flaky" Host.retryFrame f' None) as (H1 & H2 & n & Hn).
  - vm_compute; split; discriminate.
  - reflexivity.
  - lia.
  - exact Hretry.
  - split; [exact H1|]. split; [exact H2|]. exists f', n. split; [reflexivity | exact Hn].
Defined.
(** * Further properties of the parser *)

Lemma substring_all (b : string) : String.substring 0 (String.length b) b = b.
Proof. induction b as [|c b IH]; [reflexivity|]. cbn. rewrite IH. reflexivity. Qed.

Lemma Cut_no_sep (sep : ascii) (t : string) :
  hasByte sep t = false -> strings.Cut t sep = (t, EmptyString, false).
Proof.
  induction t as [|c t IH]; intros H; [reflexivity|].
  cbn [hasByte] in H. apply orb_false_iff in H as [Hc Ht].
  cbn [strings.Cut]. rewrite Hc, (IH Ht). reflexivity.
Qed.

Lemma substring_drop (a b : string) :
  String.substring (String.length a) (String.length b) (a +:+ b) = b.
Proof.
  induction a as [|c a IH]; [rewrite string_app_nil_l; apply substring_all|].
  rewrite string_app_cons. cbn [String.length String.substring]. exact IH.
Qed.

(** A comment after a line that parses: the loop stops at the comment
    sign with what it has read. *)
Lemma scan_trailing_comment (n : nat) : forall l tail cmd rawArg chunk q c,
  (String.length l <= n)%nat ->
  scan l cmd rawArg chunk q = inr c ->
  scan (l +:+ String "#" tail) cmd rawArg chunk q = inr c.
Proof.
  induction n as [|n IH]; intros l tail cmd rawArg chunk q c Hn H.
  - destruct l; [|simpl in Hn; lia].
    rewrite string_app_nil_l. cbn [scan] in *.
    destruct q; cbn [negb andb] in *; [discriminate|].
    change (strings.ContainsRune argSepChars "#") with true. cbv iota.
    rewrite H. reflexivity.
  - destruct l as [|d l'].
    + rewrite string_app_nil_l. cbn [scan] in *.
      destruct q; cbn [negb andb] in *; [discriminate|].
      change (strings.ContainsRune argSepChars "#") with true. cbv iota.
      rewrite H. reflexivity.
    + assert (Hn' : (String.length l' <= n)%nat) by (simpl in Hn; lia).
      rewrite string_app_cons. cbn [scan] in *.
      destruct (negb q && strings.ContainsRune argSepChars d).
      * destruct (flushArg cmd _) as [e|cmd']; [discriminate|].
        destruct (Ascii.eqb d "#"); [exact H|]. apply IH; assumption.
      * destruct (Ascii.eqb d squote).
        -- destruct (negb q); [apply IH; assumption|].
           destruct l' as [|d' l''].
           ++ rewrite string_app_nil_l.
              change (Ascii.eqb "#" squote) with false. cbv iota.
              apply (IH EmptyString); [simpl; lia | assumption].
           ++ rewrite string_app_cons.
              destruct (Ascii.eqb d' squote).
              ** apply IH; [simpl in Hn'; lia | assumption].
              ** rewrite <- string_app_cons. apply IH; assumption.
        -- apply IH; assumption.
Qed.

(** X1.  A comment that follows a line which parses changes nothing: the
    line with a comment sign and any text after it parses to the same
    result (the same command, or the same blank line). *)
Theorem parse_trailing_comment (filename : string) (lineno : Z) (ln comment : string)
    (r : option command) :
  parse filename lineno ln = inr r ->
  parse filename lineno (ln +:+ "#" +:+ comment) = inr r.
Proof.
  rewrite !parse_scan. intros H.
  destruct (scan ln (newCommand filename lineno) [] None false) as [e|c] eqn:Hscan;
    [discriminate|].
  change ("#" +:+ comment) with (String "#" comment).
  rewrite (scan_trailing_comment (String.length ln) ln comment _ _ _ _ c (le_n _) Hscan).
  exact H.
Qed.

Lemma parse_trailing_comment_witness :
  parse "t.txt" 3 "exec 'a b' c" 
  = inr (Some (mkCommand "t.txt" 3 success [] "exec"
                 [[mkFrag "a b" true; mkFrag EmptyString false]; [mkFrag "c" false]]
                 [] [] false))
  /\ parse "t.txt" 3 ("exec 'a b' c" +:+ "#" +:+ " it's a comment")
     = inr (Some (mkCommand "t.txt" 3 success [] "exec"
                 [[mkFrag "a b" true; mkFrag EmptyString false]; [mkFrag "c" false]]
                 [] [] false)).
Proof.
  split; [reflexivity|].
  apply (parse_trailing_comment "t.txt" 3 "exec 'a b' c" " it's a comment"). reflexivity.
Defined.

(** The loop of [parse] cannot end outside a quoted text when the quotes
    still to read do not pair up. *)
Lemma scan_unpaired_quote (n : nat) : forall rest cmd rawArg chunk q,
  (String.length rest <= n)%nat ->
  hasByte "#" rest = false ->
  xorb (Nat.odd (countByte squote rest)) q = true ->
  exists e, scan rest cmd rawArg chunk q = inl e.
Proof.
  induction n as [|n IH]; intros rest cmd rawArg chunk q Hn Hh Hq.
  - destruct rest; [|simpl in Hn; lia]. cbn [countByte Nat.odd] in Hq.
    destruct q; [|discriminate]. cbn [scan negb]. eauto.
  - destruct rest as [|d rest'].
    + cbn in Hq. destruct q; [|discriminate]. cbn [scan negb]. eauto.
    + assert (Hn' : (String.length rest' <= n)%nat) by (simpl in Hn; lia).
      cbn [hasByte] in Hh. apply orb_false_iff in Hh as [Hd Hh].
      cbn [countByte] in Hq. cbn [scan].
      destruct (negb q && strings.ContainsRune argSepChars d) eqn:Hsep.
      * apply andb_true_iff in Hsep as [Hnq Hsep].
        rewrite (sep_not_quote _ Hsep) in Hq.
        destruct (flushArg cmd _) as [e|cmd']; [eauto|].
        rewrite Hd. apply IH; assumption.
      * destruct (Ascii.eqb d squote) eqn:Hsq.
        -- rewrite Nat.odd_succ in Hq.
           destruct q; cbn [negb].
           ++ destruct rest' as [|d' rest''].
              ** cbn in Hq. discriminate.
              ** cbn [countByte] in Hq. cbn [hasByte] in Hh.
                 apply orb_false_iff in Hh as [Hd' Hh].
                 destruct (Ascii.eqb d' squote) eqn:Hsq'.
                 --- rewrite Nat.even_succ in Hq.
                     apply IH; [simpl in Hn'; lia | assumption..].
                 --- apply IH; [assumption | cbn [hasByte]; rewrite Hd', Hh; reflexivity |].
                     cbn [countByte]. rewrite Hsq'.
                     rewrite <- Nat.negb_odd in Hq.
                     destruct (Nat.odd (countByte squote rest'')); [reflexivity | discriminate].
           ++ apply IH; [assumption..|].
              rewrite <- Nat.negb_odd in Hq.
              destruct (Nat.odd (countByte squote rest')); [discriminate | reflexivity].
        -- apply IH; assumption.
Qed.

(** X2.  A line without a comment sign that holds an odd number of single
    quotes is rejected: [parse] returns an error and no command. *)
Theorem parse_unpaired_quote_rejected (filename : string) (lineno : Z) (ln : string) :
  hasByte "#" ln = false ->
  Nat.odd (countByte squote ln) = true ->
  exists e, parse filename lineno ln = inl e.
Proof.
  intros Hh Hodd. rewrite parse_scan.
  destruct (scan_unpaired_quote (String.length ln) ln (newCommand filename lineno) [] None false
              (le_n _) Hh) as [e He].
  - rewrite Hodd. reflexivity.
  - rewrite He. eauto.
Qed.

Lemma parse_unpaired_quote_rejected_witness :
  hasByte "#" "echo 'it''s" = false
  /\ Nat.odd (countByte squote "echo 'it''s") = true
  /\ exists e, parse "t.txt" 1 "echo 'it''s" = inl e.
Proof.
  split; [reflexivity|]. split; [reflexivity|].
  apply (parse_unpaired_quote_rejected "t.txt" 1 "echo 'it''s"); reflexivity.
Defined.

Lemma statusMarker_cases (m : string) (w : expectedStatus) :
  statusMarker m = Some w -> m = "!" \/ m = "?" \/ m = "*" \/ m = "!*".
Proof.
  unfold statusMarker.
  destruct (String.eqb m "!") eqn:E1; [apply String.eqb_eq in E1; auto|].
  destruct (String.eqb m "?") eqn:E2; [apply String.eqb_eq in E2; auto|].
  destruct (String.eqb m "*") eqn:E3; [apply String.eqb_eq in E3; auto|].
  destruct (String.eqb m "!*") eqn:E4; [apply String.eqb_eq in E4; auto|].
  discriminate.
Qed.

Lemma statusMarker_plainWord (m : string) (w : expectedStatus) :
  statusMarker m = Some w -> plainWord m = true /\ m <> EmptyString.
Proof.
  intros H. apply statusMarker_cases in H as [-> | [-> | [-> | ->]]];
    (split; [reflexivity | discriminate]).
Qed.

(** The token of a status marker, read before the command name. *)
Lemma flushArg_marker (cmd : command) (m : string) (w : expectedStatus) :
  statusMarker m = Some w -> name cmd = EmptyString ->
  flushArg cmd [mkFrag m false]
  = if decide (want cmd = success) then inr (set_want w cmd)
    else inl (errors.New "duplicated '!', '?', '*' or '!*' token").
Proof.
  intros Hm Hn. unfold flushArg. rewrite Hn. cbn [String.eqb length Nat.eqb frag_quoted frag_s negb andb].
  rewrite Hm. reflexivity.
Qed.

Lemma scan_marker_token (cmd : command) (m tail : string) (w : expectedStatus) :
  statusMarker m = Some w -> name cmd = EmptyString -> tokenEnd tail = true ->
  scan (m +:+ tail) cmd [] None false
  = match (if decide (want cmd = success) then inr (set_want w cmd)
           else inl (errors.New "duplicated '!', '?', '*' or '!*' token")) with
    | inl e => inl e
    | inr cmd' =>
        match tail with
        | EmptyString => inr cmd'
        | String c tail' => if Ascii.eqb c "#" then inr cmd' else scan tail' cmd' [] None false
        end
    end.
Proof.
  intros Hm Hn Ht. destruct (statusMarker_plainWord m w Hm) as [Hp Hne].
  rewrite (scan_plainWord m tail cmd [] None Hp).
  destruct m as [|a m']; [congruence|].
  cbn [default from_option id]. rewrite string_app_nil_l.
  destruct tail as [|c tail'].
  - cbn [scan negb addc app]. rewrite (flushArg_marker cmd _ w Hm Hn).
    destruct (decide (want cmd = success)); reflexivity.
  - cbn [tokenEnd] in Ht. cbn [scan negb andb addc app]. rewrite Ht.
    rewrite (flushArg_marker cmd _ w Hm Hn).
    destruct (decide (want cmd = success)); reflexivity.
Qed.

(** X3.  Two status markers before the command name are rejected, whatever
    follows the second one: [parse] returns the error of the duplicated
    token. *)
Theorem parse_duplicated_marker (filename : string) (lineno : Z) (m1 m2 tail : string)
    (w1 w2 : expectedStatus) :
  statusMarker m1 = Some w1 ->
  statusMarker m2 = Some w2 ->
  tokenEnd tail = true ->
  parse filename lineno (m1 +:+ SP +:+ m2 +:+ tail)
  = inl (errors.New "duplicated '!', '?', '*' or '!*' token").
Proof.
  intros H1 H2 Ht. rewrite parse_scan.
  rewrite (scan_marker_token (newCommand filename lineno) m1 (SP +:+ m2 +:+ tail) w1 H1
             eq_refl eq_refl).
  cbn [newCommand want]. destruct (decide (success = success)) as [_|Hc]; [|congruence].
  unfold SP at 1. rewrite string_app_cons, string_app_nil_l.
  change (Ascii.eqb " " "#") with false. cbv iota.
  rewrite (scan_marker_token (set_want w1 (newCommand filename lineno)) m2 tail w2 H2
             eq_refl Ht).
  cbn [set_want want].
  destruct (decide (w1 = success)) as [->|_]; [|reflexivity].
  unfold statusMarker in H1. repeat destruct (String.eqb m1 _); discriminate.
Qed.

Lemma parse_duplicated_marker_witness :
  statusMarker "!" = Some failure
  /\ statusMarker "*" = Some successRetryOnFailure
  /\ tokenEnd " exec" = true
  /\ parse "t.txt" 1 ("!" +:+ SP +:+ "*" +:+ " exec")
     = inl (errors.New "duplicated '!', '?', '*' or '!*' token").
Proof.
  split; [reflexivity|]. split; [reflexivity|]. split; [reflexivity|].
  apply (parse_duplicated_marker "t.txt" 1 "!" "*" " exec" failure successRetryOnFailure);
    reflexivity.
Defined.

Lemma flushArg_wellFormed cmd rawArg c :
  flushArg cmd rawArg = inr c -> wellFormed cmd -> wellFormed c.
Proof.
  unfold flushArg, wellFormed. destruct rawArg as [|f r]; [intros [= <-]; auto|].
  intros H [Hr Hc]. destruct (_ && _ && _).
  - destruct (statusMarker _).
    + destruct (decide _); [injection H as <-; auto | discriminate].
    + destruct (_ && _).
      * destruct (if strings.HasPrefix _ _ then _ else _) as [w a].
        destruct (String.eqb a EmptyString) eqn:Ha; [discriminate|].
        injection H as <-. cbn [set_conds rawArgs conds]. split; [exact Hr|].
        apply Forall_app. split; [exact Hc|]. constructor; [|constructor].
        cbn [tag]. apply String.eqb_neq. exact Ha.
      * destruct (String.eqb _ _); [discriminate | injection H as <-; auto].
  - injection H as <-. cbn [set_rawArgs rawArgs conds]. split; [|exact Hc].
    apply Forall_app. split; [exact Hr|]. constructor; [discriminate | constructor].
Qed.

Lemma scan_wellFormed (n : nat) : forall rest cmd rawArg chunk q c,
  (String.length rest <= n)%nat ->
  scan rest cmd rawArg chunk q = inr c -> wellFormed cmd -> wellFormed c.
Proof.
  induction n as [|n IH]; intros rest cmd rawArg chunk q c Hn H.
  - destruct rest; [|simpl in Hn; lia]. cbn [scan] in H.
    destruct (negb q); [|discriminate]. apply (flushArg_wellFormed _ _ _ H).
  - destruct rest as [|d rest'].
    + cbn [scan] in H. destruct (negb q); [|discriminate]. apply (flushArg_wellFormed _ _ _ H).
    + assert (Hn' : (String.length rest' <= n)%nat) by (simpl in Hn; lia).
      cbn [scan] in H.
      destruct (negb q && strings.ContainsRune argSepChars d).
      * destruct (flushArg cmd _) as [e|cmd'] eqn:Hf; [discriminate|].
        intros Hw. pose proof (flushArg_wellFormed _ _ _ Hf Hw) as Hw'.
        destruct (Ascii.eqb d "#"); [injection H as <-; exact Hw'|].
        apply (IH _ _ _ _ _ _ Hn' H Hw').
      * destruct (Ascii.eqb d squote).
        -- destruct (negb q); [apply (IH _ _ _ _ _ _ Hn' H)|].
           destruct rest' as [|d' rest'']; [apply (IH _ _ _ _ _ _ Hn' H)|].
           destruct (Ascii.eqb d' squote); [|apply (IH _ _ _ _ _ _ Hn' H)].
           eapply (IH rest''); [simpl in Hn'; lia | exact H].
        -- apply (IH _ _ _ _ _ _ Hn' H).
Qed.

(** X4.  What every command that [parse] returns satisfies: its name is
    not empty, its file and line are those given to [parse], it has no
    expanded arguments yet, each of its raw arguments has at least one
    fragment and each of its conditions has a non-empty tag. *)
Theorem parse_command_invariant (filename : string) (lineno : Z) (ln : string) (cmd : command) :
  parse filename lineno ln = inr (Some cmd) ->
  name cmd <> EmptyString
  /\ file cmd = filename /\ line cmd = lineno
  /\ origArgs cmd = [] /\ args cmd = []
  /\ Forall (fun a => a <> []) (rawArgs cmd)
  /\ Forall (fun c => tag c <> EmptyString) (conds cmd).
Proof.
  rewrite parse_scan.
  destruct (scan ln (newCommand filename lineno) [] None false) as [e|c] eqn:Hscan;
    [discriminate|].
  pose proof (scan_keeps (String.length ln) _ _ _ _ _ _ (le_n _) Hscan) as (_ & Hf & Hl & Ho & Ha).
  assert (Hw : wellFormed c).
  { apply (scan_wellFormed (String.length ln) _ _ _ _ _ _ (le_n _) Hscan).
    split; constructor. }
  destruct Hw as [Hr Hc]. cbn [newCommand file line origArgs args] in Hf, Hl, Ho, Ha.
  unfold parseFinish. destruct (String.eqb (name c) EmptyString) eqn:Hn.
  - destruct (_ || _); discriminate.
  - apply String.eqb_neq in Hn.
    assert (Hsame : forall c', inr (Some c) = inr (Some c') :> error + option command ->
              name c' <> EmptyString /\ file c' = filename /\ line c' = lineno
              /\ origArgs c' = [] /\ args c' = []
              /\ Forall (fun a => a <> []) (rawArgs c')
              /\ Forall (fun c => tag c <> EmptyString) (conds c')).
    { intros c' [= <-]. auto 10. }
    destruct (last (rawArgs c)) as [[|f [|g fr]]|]; try (intros H; apply Hsame; exact H).
    destruct (_ && _); [|intros H; apply Hsame; exact H].
    intros [= <-]. cbn [set_rawArgs set_background name file line origArgs args rawArgs conds].
    repeat split; try assumption. apply Forall_take. exact Hr.
Qed.

Lemma parse_command_invariant_witness :
  let cmd := mkCommand "t.txt" 7 successOrFailure [mkCond false "short"] "exec"
               [[mkFrag "a" true; mkFrag "'b" true; mkFrag EmptyString false];
                [mkFrag "x" false]] [] [] true in
  parse "t.txt" 7 "[!short] ? exec 'a''b' x &" = inr (Some cmd)
  /\ name cmd <> EmptyString
  /\ file cmd = "t.txt" /\ line cmd = 7
  /\ origArgs cmd = [] /\ args cmd = []
  /\ Forall (fun a => a <> []) (rawArgs cmd)
  /\ Forall (fun c => tag c <> EmptyString) (conds cmd).
Proof.
  split; [reflexivity|].
  apply (parse_command_invariant "t.txt" 7 "[!short] ? exec 'a''b' x &"). reflexivity.
Defined.

Lemma scan_blank (ws : string) (cmd : command) :
  blank ws = true -> scan ws cmd [] None false = inr cmd.
Proof.
  induction ws as [|c ws IH]; intros H; [reflexivity|].
  cbn [blank] in H. apply andb_true_iff in H as [H Hws].
  apply andb_true_iff in H as [Hsep Hc].
  cbn [scan negb andb addc]. rewrite Hsep. cbn [flushArg].
  destruct (Ascii.eqb c "#"); [discriminate|]. apply IH. exact Hws.
Qed.

(** X5.  A line of white space only, with or without a comment after it,
    is a blank line: [parse] returns neither a command nor an error. *)
Theorem parse_blank_line (filename : string) (lineno : Z) (ws comment : string) :
  blank ws = true ->
  parse filename lineno ws = inr None
  /\ parse filename lineno (ws +:+ "#" +:+ comment) = inr None.
Proof.
  intros H. rewrite !parse_scan.
  change ("#" +:+ comment) with (String "#" comment).
  rewrite (scan_trailing_comment (String.length ws) ws comment _ _ _ _ _ (le_n _)
             (scan_blank ws _ H)).
  rewrite (scan_blank ws _ H). split; reflexivity.
Qed.

Lemma parse_blank_line_witness :
  blank "  " = true
  /\ parse "t.txt" 1 "  " = inr None
  /\ parse "t.txt" 1 ("  " +:+ "#" +:+ " exec x") = inr None.
Proof.
  split; [reflexivity|].
  apply (parse_blank_line "t.txt" 1 "  " " exec x"). reflexivity.
Defined.

(** The errors of the parser are plain messages. *)
Lemma flushArg_error_plain cmd rawArg e :
  flushArg cmd rawArg = inl e -> exists msg, e = errorString msg.
Proof.
  unfold flushArg. destruct rawArg as [|f r]; [discriminate|].
  destruct (_ && _ && _); [|discriminate].
  destruct (statusMarker _).
  - destruct (decide _); [discriminate | intros [= <-]; eexists; reflexivity].
  - destruct (_ && _).
    + destruct (if strings.HasPrefix _ _ then _ else _) as [w a].
      destruct (String.eqb a _); [intros [= <-]; eexists; reflexivity | discriminate].
    + destruct (String.eqb _ _); [intros [= <-]; eexists; reflexivity | discriminate].
Qed.

Lemma scan_error_plain (n : nat) : forall rest cmd rawArg chunk q e,
  (String.length rest <= n)%nat ->
  scan rest cmd rawArg chunk q = inl e -> exists msg, e = errorString msg.
Proof.
  induction n as [|n IH]; intros rest cmd rawArg chunk q e Hn H.
  - destruct rest; [|simpl in Hn; lia]. cbn [scan] in H.
    destruct (negb q); [apply (flushArg_error_plain _ _ _ H)|].
    injection H as <-. eexists. reflexivity.
  - destruct rest as [|d rest'].
    + cbn [scan] in H.
      destruct (negb q); [apply (flushArg_error_plain _ _ _ H)|].
      injection H as <-. eexists. reflexivity.
    + assert (Hn' : (String.length rest' <= n)%nat) by (simpl in Hn; lia).
      cbn [scan] in H.
      destruct (negb q && strings.ContainsRune argSepChars d).
      * destruct (flushArg cmd _) as [e'|cmd'] eqn:Hf.
        -- injection H as <-. apply (flushArg_error_plain _ _ _ Hf).
        -- destruct (Ascii.eqb d "#"); [discriminate|]. apply (IH _ _ _ _ _ _ Hn' H).
      * destruct (Ascii.eqb d squote).
        -- destruct (negb q); [apply (IH _ _ _ _ _ _ Hn' H)|].
           destruct rest' as [|d' rest'']; [apply (IH _ _ _ _ _ _ Hn' H)|].
           destruct (Ascii.eqb d' squote); [|apply (IH _ _ _ _ _ _ Hn' H)].
           eapply (IH rest''); [simpl in Hn'; lia | exact H].
        -- apply (IH _ _ _ _ _ _ Hn' H).
Qed.

Lemma parse_error_plain (filename : string) (lineno : Z) (ln : string) (e : error) :
  parse filename lineno ln = inl e -> exists msg, e = errorString msg.
Proof.
  rewrite parse_scan.
  destruct (scan ln (newCommand filename lineno) [] None false) as [e'|c] eqn:Hscan.
  - intros [= <-]. apply (scan_error_plain (String.length ln) _ _ _ _ _ _ (le_n _) Hscan).
  - unfold parseFinish. destruct (String.eqb (name c) EmptyString).
    + destruct (_ || _); [intros [= <-]; eexists; reflexivity | discriminate].
    + destruct (last (rawArgs c)) as [[|f [|g fr]]|]; try discriminate.
      destruct (_ && _); discriminate.
Qed.

(** ** Guards and status markers *)

Lemma tagChar_plain (c : ascii) : tagChar c = true -> plainChar c = true.
Proof. unfold tagChar. intros H. apply andb_true_iff in H as [H _].
  apply andb_true_iff in H as [H _]. exact H. Qed.

Lemma tagChar_noSpace (c : ascii) : tagChar c = true -> strings.isSpace c = false.
Proof. unfold tagChar. intros H. apply andb_true_iff in H as [H _].
  apply andb_true_iff in H as [_ H]. apply negb_true_iff in H. exact H. Qed.

Lemma tagWord_plainWord (t : string) : tagWord t = true -> plainWord t = true.
Proof.
  induction t as [|c t IH]; [reflexivity|]. cbn [tagWord plainWord].
  intros H. apply andb_true_iff in H as [Hc Ht].
  rewrite (tagChar_plain c Hc), (IH Ht). reflexivity.
Qed.

Lemma plainWord_app (a b : string) :
  plainWord a = true -> plainWord b = true -> plainWord (a +:+ b) = true.
Proof.
  induction a as [|c a IH]; intros Ha Hb; [exact Hb|].
  rewrite string_app_cons. cbn [plainWord] in *.
  apply andb_true_iff in Ha as [Hc Ha]. rewrite Hc, (IH Ha Hb). reflexivity.
Qed.

Lemma TrimLeftSpace_tagWord (t : string) : tagWord t = true -> strings.TrimLeftSpace t = t.
Proof.
  destruct t as [|c t]; [reflexivity|]. cbn [tagWord strings.TrimLeftSpace].
  intros H. apply andb_true_iff in H as [Hc _]. rewrite (tagChar_noSpace c Hc). reflexivity.
Qed.

Lemma TrimRightSpace_tagWord (t : string) : tagWord t = true -> strings.TrimRightSpace t = t.
Proof.
  induction t as [|c t IH]; [reflexivity|]. cbn [tagWord strings.TrimRightSpace].
  intros H. apply andb_true_iff in H as [Hc Ht]. rewrite (IH Ht).
  destruct t; [rewrite (tagChar_noSpace c Hc)|]; reflexivity.
Qed.

Lemma TrimSpace_tagWord (t : string) : tagWord t = true -> strings.TrimSpace t = t.
Proof.
  intros H. unfold strings.TrimSpace.
  rewrite (TrimLeftSpace_tagWord t H). apply TrimRightSpace_tagWord. exact H.
Qed.

Lemma HasSuffix_bracket (a : string) : strings.HasSuffix (a +:+ "]") "]" = true.
Proof.
  unfold strings.HasSuffix. rewrite string_length_app. cbn [String.length].
  replace (1 <=? String.length a + 1)%nat with true by (symmetry; apply Nat.leb_le; lia).
  replace (String.length a + 1 - 1)%nat with (String.length a) by lia.
  rewrite (substring_last_byte a "]"). reflexivity.
Qed.

Lemma slice_inner (x : string) :
  strings.slice ("[" +:+ x +:+ "]") 1 (strings.len ("[" +:+ x +:+ "]") - 1) = x.
Proof.
  unfold strings.slice, strings.len.
  change ("[" +:+ x +:+ "]") with (String "[" (x +:+ "]")).
  cbn [String.length]. rewrite string_length_app. cbn [String.length].
  replace (Z.to_nat 1) with 1%nat by reflexivity.
  replace (Z.to_nat _) with (String.length x) by lia.
  cbn [String.substring]. apply substring_prefix.
Qed.

Lemma slice_tail (c : ascii) (x : string) :
  strings.slice (String c x) 1 (strings.len (String c x)) = x.
Proof.
  unfold strings.slice, strings.len. cbn [String.length].
  replace (Z.to_nat 1) with 1%nat by reflexivity.
  replace (Z.to_nat _) with (String.length x) by lia.
  cbn [String.substring]. apply substring_all.
Qed.

Lemma HasPrefix_head (c : ascii) (x : string) :
  strings.HasPrefix (String c x) (String c EmptyString) = true.
Proof.
  unfold strings.HasPrefix. cbn [String.prefix].
  destruct (ascii_dec c c) as [_|H]; [destruct x; reflexivity | congruence].
Qed.

(** The token of a guard, read before the command name. *)
Lemma flushArg_guard (cmd : command) (c : condition) :
  name cmd = EmptyString -> validTag (tag c) = true ->
  flushArg cmd [mkFrag (guardText c) false] = inr (set_conds (conds cmd ++ [c]) cmd).
Proof.
  intros Hn Hv. unfold validTag in Hv.
  apply andb_true_iff in Hv as [Hv Hbang]. apply andb_true_iff in Hv as [Hw Hne].
  apply negb_true_iff in Hbang, Hne.
  unfold flushArg. rewrite Hn.
  cbn [String.eqb length Nat.eqb frag_quoted frag_s negb andb].
  assert (Hm : statusMarker (guardText c) = None) by reflexivity.
  rewrite Hm.
  assert (Hp : strings.HasPrefix (guardText c) "[" = true) by apply HasPrefix_head.
  rewrite Hp. unfold guardText.
  rewrite <- (string_app_assoc (if cwant c then EmptyString else "!") (tag c) "]").
  set (inner := (if cwant c then EmptyString else "!") +:+ tag c).
  assert (Hs : strings.HasSuffix ("[" +:+ inner +:+ "]") "]" = true)
    by exact (HasSuffix_bracket (String "[" inner)).
  rewrite Hs. cbn [andb]. rewrite slice_inner. subst inner.
  destruct c as [w t]. cbn [cwant tag] in *. destruct w.
  - rewrite string_app_nil_l, (TrimSpace_tagWord t Hw), Hbang, Hne. reflexivity.
  - assert (Hbt : tagWord ("!" +:+ t) = true)
      by (change ("!" +:+ t) with (String "!" t); cbn [tagWord]; rewrite Hw; reflexivity).
    rewrite (TrimSpace_tagWord _ Hbt).
    change ("!" +:+ t) with (String "!" t).
    rewrite (HasPrefix_head "!" t).
    rewrite slice_tail, (TrimSpace_tagWord t Hw), Hne. reflexivity.
Qed.

Lemma guardText_plainWord (c : condition) :
  validTag (tag c) = true -> plainWord (guardText c) = true /\ guardText c <> EmptyString.
Proof.
  intros Hv. unfold validTag in Hv.
  apply andb_true_iff in Hv as [Hv _]. apply andb_true_iff in Hv as [Hw _].
  split; [|discriminate]. unfold guardText.
  apply (plainWord_app "["); [reflexivity|].
  apply plainWord_app; [destruct (cwant c); reflexivity|].
  apply plainWord_app; [apply tagWord_plainWord; exact Hw | reflexivity].
Qed.

Lemma scan_guards (cs : list condition) : forall (cmd : command) (rest : string),
  name cmd = EmptyString ->
  Forall (fun c => validTag (tag c) = true) cs ->
  scan (guardsText cs +:+ rest) cmd [] None false
  = scan rest (set_conds (conds cmd ++ cs) cmd) [] None false.
Proof.
  induction cs as [|c cs IH]; intros cmd rest Hn Hall.
  - cbn [guardsText]. rewrite string_app_nil_l, app_nil_r.
    destruct cmd; reflexivity.
  - inversion Hall as [|? ? Hc Hcs]; subst.
    destruct (guardText_plainWord c Hc) as [Hp Hne].
    cbn [guardsText]. rewrite !string_app_assoc.
    rewrite (scan_plainWord (guardText c) _ cmd [] None Hp).
    destruct (guardText c) as [|a g] eqn:Hg; [congruence|].
    cbn [default from_option id]. rewrite string_app_nil_l.
    unfold SP at 1. rewrite string_app_cons, string_app_nil_l.
    cbn [scan negb andb addc app].
    change (strings.ContainsRune argSepChars " ") with true. cbv iota.
    rewrite <- Hg, (flushArg_guard cmd c Hn Hc).
    change (Ascii.eqb " " "#") with false. cbv iota.
    rewrite (IH _ rest) by (try reflexivity; assumption).
    cbn [set_conds conds]. rewrite <- app_assoc. reflexivity.
Qed.

(** X6.  Guards are read in order with their polarity.  A line made of
    guards [[tag]] and [[!tag]] followed by a command name parses to the
    command with these conditions: wanted true for [[tag]], wanted false
    for [[!tag]] (for tags of ASCII bytes that are not white space,
    separators or quotes, and that do not begin with a bang). *)
Theorem parse_guards (filename : string) (lineno : Z) (cs : list condition) (n : string) :
  Forall (fun c => validTag (tag c) = true) cs ->
  plainName n = true ->
  parse filename lineno (guardsText cs +:+ n)
  = inr (Some (mkCommand filename lineno success cs n [] [] [] false)).
Proof.
  intros Hcs Hn. rewrite parse_scan.
  rewrite (scan_guards cs (newCommand filename lineno) n eq_refl Hcs).
  rewrite (scan_name_end (set_conds (conds (newCommand filename lineno) ++ cs)
                            (newCommand filename lineno)) n eq_refl Hn).
  unfold parseFinish. cbn [name set_name set_conds newCommand rawArgs conds app last].
  pose proof (plainName_nonempty n Hn) as Hne. apply String.eqb_neq in Hne.
  rewrite Hne. reflexivity.
Qed.

Lemma parse_guards_witness :
  Forall (fun c => validTag (tag c) = true) [mkCond true "linux"; mkCond false "short"]
  /\ plainName "skip" = true
  /\ parse "t.txt" 1 "[linux] [!short] skip"
     = inr (Some (mkCommand "t.txt" 1 success [mkCond true "linux"; mkCond false "short"]
                    "skip" [] [] [] false)).
Proof.
  split; [repeat constructor|]. split; [reflexivity|].
  apply (parse_guards "t.txt" 1 [mkCond true "linux"; mkCond false "short"] "skip").
  - repeat constructor.
  - reflexivity.
Defined.

(** X7.  A status marker before the command name sets the expected
    status of the command; after the command name the same token is an
    argument like any other. *)
Theorem parse_status_marker (filename : string) (lineno : Z) (m n : string)
    (w : expectedStatus) :
  statusMarker m = Some w ->
  plainName n = true ->
  parse filename lineno (m +:+ SP +:+ n)
  = inr (Some (mkCommand filename lineno w [] n [] [] [] false))
  /\ parse filename lineno (n +:+ SP +:+ m)
     = inr (Some (mkCommand filename lineno success [] n [[mkFrag m false]] [] [] false)).
Proof.
  intros Hm Hn. destruct (statusMarker_plainWord m w Hm) as [Hp Hne].
  pose proof (plainName_nonempty n Hn) as Hnne. apply String.eqb_neq in Hnne.
  rewrite !parse_scan. split.
  - rewrite (scan_marker_token (newCommand filename lineno) m (SP +:+ n) w Hm eq_refl eq_refl).
    cbn [newCommand want]. destruct (decide (success = success)) as [_|Hc]; [|congruence].
    unfold SP at 1. rewrite string_app_cons, string_app_nil_l.
    change (Ascii.eqb " " "#") with false. cbv iota.
    rewrite (scan_name_end (set_want w (newCommand filename lineno)) n eq_refl Hn).
    unfold parseFinish. cbn [name set_name set_want rawArgs last]. rewrite Hnne. reflexivity.
  - unfold SP. rewrite string_app_cons, string_app_nil_l.
    rewrite (scan_name filename lineno n " " m Hn eq_refl eq_refl).
    assert (Hscan : scan m (set_name n (newCommand filename lineno)) [] None false
                    = inr (set_rawArgs [[mkFrag m false]] (set_name n (newCommand filename lineno)))).
    { rewrite <- (string_app_nil_r m) at 1.
      rewrite (scan_plainWord m EmptyString _ [] None Hp).
      destruct m as [|a m']; [congruence|].
      cbn [default from_option id scan negb addc app]. rewrite string_app_nil_l.
      rewrite flushArg_arg; [reflexivity | | discriminate].
      cbn [name set_name]. apply String.eqb_neq. exact Hnne. }
    rewrite Hscan. unfold parseFinish.
    cbn [name set_name set_rawArgs rawArgs last newCommand]. rewrite Hnne.
    cbn [frag_quoted frag_s negb andb length].
    assert (Hamp : String.eqb m "&" = false).
    { apply statusMarker_cases in Hm as [-> | [-> | [-> | ->]]]; reflexivity. }
    rewrite Hamp. reflexivity.
Qed.

Lemma parse_status_marker_witness :
  statusMarker "?" = Some successOrFailure
  /\ plainName "grep" = true
  /\ parse "t.txt" 1 ("?" +:+ SP +:+ "grep")
     = inr (Some (mkCommand "t.txt" 1 successOrFailure [] "grep" [] [] [] false))
  /\ parse "t.txt" 1 ("grep" +:+ SP +:+ "?")
     = inr (Some (mkCommand "t.txt" 1 success [] "grep" [[mkFrag "?" false]] [] [] false)).
Proof.
  split; [reflexivity|]. split; [reflexivity|].
  apply (parse_status_marker "t.txt" 1 "?" "grep" successOrFailure); reflexivity.
Defined.

(** * Further properties of status reconciliation and of the backoff *)

(** X11.  The stop signal is never swallowed: whatever the expected status
    of the line, an error that is (or wraps) the stop error is returned by
    [checkStatus], wrapped with the location of the command. *)
Theorem checkStatus_stop_propagated (cmd : command) (err : error) :
  is_Some (errors.As_stopError err) ->
  checkStatus cmd (Some err) = Some (cmdError cmd err).
Proof.
  intros Hs. unfold checkStatus. rewrite (bool_decide_eq_true_2 _ Hs). reflexivity.
Qed.

Lemma checkStatus_stop_propagated_witness :
  is_Some (errors.As_stopError (Errorf "stop: " (stopError "done")))
  /\ checkStatus (mkCommand "t.txt" 2 successOrFailure [] "stop" [] [] ["done"] false)
                 (Some (Errorf "stop: " (stopError "done")))
     = Some (CommandError "t.txt" 2 "stop" ["done"] (Errorf "stop: " (stopError "done"))).
Proof.
  split; [eexists; reflexivity|].
  apply (checkStatus_stop_propagated
           (mkCommand "t.txt" 2 successOrFailure [] "stop" [] [] ["done"] false)
           (Errorf "stop: " (stopError "done"))).
  eexists. reflexivity.
Defined.

(** X12.  Under the expectation [?] (success or failure) [checkStatus]
    accepts the success and every failure that is neither the stop signal
    nor a background-wait error; a cancellation or a deadline is accepted
    like any other failure. *)
Theorem checkStatus_either_accepts (cmd : command) (err : option error) :
  want cmd = successOrFailure ->
  (forall e, err = Some e -> errors.As_stopError e = None /\ errors.As_waitError e = None) ->
  checkStatus cmd err = None.
Proof.
  intros Hw He. unfold checkStatus. rewrite Hw.
  destruct err as [e|]; [|reflexivity].
  destruct (He e eq_refl) as [-> ->]. reflexivity.
Qed.

Lemma checkStatus_either_accepts_witness :
  want (mkCommand "t.txt" 4 successOrFailure [] "sleep" [] [] ["10s"] false) = successOrFailure
  /\ (forall e, Some context_DeadlineExceeded = Some e ->
        errors.As_stopError e = None /\ errors.As_waitError e = None)
  /\ checkStatus (mkCommand "t.txt" 4 successOrFailure [] "sleep" [] [] ["10s"] false)
                 (Some context_DeadlineExceeded) = None.
Proof.
  split; [reflexivity|].
  split; [intros e [= <-]; split; reflexivity|].
  apply (checkStatus_either_accepts
           (mkCommand "t.txt" 4 successOrFailure [] "sleep" [] [] ["10s"] false)
           (Some context_DeadlineExceeded)).
  - reflexivity.
  - intros e [= <-]. split; reflexivity.
Defined.

(** X13.  An error that [checkStatus] returns is always a command error
    at the location of the command, with its name and arguments; it wraps
    the error of the command or, for a command that ended without an
    error, the unexpected success. *)
Theorem checkStatus_error_located (cmd : command) (err : option error) (e : error) :
  checkStatus cmd err = Some e ->
  exists inner,
    e = CommandError (file cmd) (line cmd) (name cmd) (args cmd) inner
    /\ (err = Some inner \/ (err = None /\ inner = ErrUnexpectedSuccess)).
Proof.
  unfold checkStatus. destruct err as [err|].
  - destruct (bool_decide _); [intros [= <-]; eauto|].
    destruct (bool_decide _); [intros [= <-]; eauto|].
    destruct (_ || _); [intros [= <-]; eauto|].
    destruct (_ && _); [intros [= <-]; eauto | discriminate].
  - destruct (_ || _); [intros [= <-]; eauto | discriminate].
Qed.

Lemma checkStatus_error_located_witness :
  checkStatus (mkCommand "t.txt" 5 failure [] "true" [] [] [] false) None
  = Some (CommandError "t.txt" 5 "true" [] ErrUnexpectedSuccess)
  /\ exists inner,
       CommandError "t.txt" 5 "true" [] ErrUnexpectedSuccess
       = CommandError "t.txt" 5 "true" [] inner
       /\ (None = Some inner \/ (@None error = None /\ inner = ErrUnexpectedSuccess)).
Proof.
  split; [reflexivity|].
  apply (checkStatus_error_located (mkCommand "t.txt" 5 failure [] "true" [] [] [] false) None).
  reflexivity.
Defined.

(** ** The backoff *)

Lemma get_max (eb : exponentialBackoff) : max (snd (get eb)) = max eb.
Proof. reflexivity. Qed.

Lemma get_interval_le_max (eb : exponentialBackoff) : interval (snd (get eb)) <= max eb.
Proof. cbn [get snd interval]. apply Z.le_min_r. Qed.

(** X14.  From the second call on, [get] never returns more than the
    maximum of the backoff, whatever the interval and the maximum are
    (also when the doubling wraps around): only the first wait, the
    interval as given, may exceed it. *)
Theorem backoff_capped_after_first (eb : exponentialBackoff) (k : nat) :
  waitAt eb (S k) <= max eb.
Proof.
  revert eb. induction k as [|k IH]; intros eb.
  - cbn [waitAt]. change (fst (get (snd (get eb)))) with (interval (snd (get eb))).
    apply get_interval_le_max.
  - change (waitAt eb (S (S k))) with (waitAt (snd (get eb)) (S k)).
    rewrite <- (get_max eb). apply IH.
Qed.

(** * Further properties of the engine *)

Section CoverProps.

Context {Writer WaitFunc FlagSet FlagDecl Env : Type}.
Variable Write : Writer -> string -> Writer * option error.
Variable callWait :
  WaitFunc -> @State WaitFunc FlagSet Env
  -> @State WaitFunc FlagSet Env * string * string * option error.
Variable ExpandEnv : @State WaitFunc FlagSet Env -> string -> bool -> string.
Variable pflagParse : string -> option FlagDecl -> list string -> flagParse FlagSet.
Variable ListCmds :
  @Engine WaitFunc FlagSet FlagDecl Env -> bool -> string -> string * option error.
Variable F : Formatter.

Local Abbreviation engine := (@Engine WaitFunc FlagSet FlagDecl Env).
Local Abbreviation state := (@State WaitFunc FlagSet Env).
Local Abbreviation frameT := (@frame Writer WaitFunc FlagSet Env).
Local Abbreviation loop := (mainLoop Write callWait ExpandEnv pflagParse ListCmds F).
Local Abbreviation retry := (retryLoop Write callWait pflagParse ListCmds F).
Local Abbreviation run := (runCommand callWait pflagParse ListCmds F).
Local Abbreviation again := (replay callWait pflagParse ListCmds F).
Local Abbreviation guards := (conditionsActive F).
Local Abbreviation flushSection := (endSection Write F).
Local Abbreviation exec := (Execute Write callWait ExpandEnv pflagParse ListCmds F).
Local Abbreviation execLine := (ExecuteLine Write callWait ExpandEnv pflagParse ListCmds F).
Local Abbreviation expand := (expandArgs ExpandEnv).

(** ** Expansion of the arguments *)

Lemma expandFrags_from (st : state) (b : bool) (frags : list argFragment) : forall acc,
  foldl (fun acc frag =>
           if frag_quoted frag then acc +:+ frag_s frag
           else acc +:+ ExpandEnv st (frag_s frag) b) acc frags
  = acc +:+ expandFrags ExpandEnv st b frags.
Proof.
  unfold expandFrags. induction frags as [|f frags IH]; intros acc.
  - cbn [foldl]. rewrite string_app_nil_r. reflexivity.
  - cbn [foldl]. rewrite IH. rewrite (IH (if frag_quoted f then _ else _)).
    destruct (frag_quoted f); rewrite !string_app_nil_l, string_app_assoc; reflexivity.
Qed.

Lemma expandFrags_cons (st : state) (b : bool) (f : argFragment) (frags : list argFragment) :
  expandFrags ExpandEnv st b (f :: frags)
  = (if frag_quoted f then frag_s f else ExpandEnv st (frag_s f) b)
    +:+ expandFrags ExpandEnv st b frags.
Proof.
  unfold expandFrags at 1. cbn [foldl]. rewrite expandFrags_from.
  destruct (frag_quoted f); rewrite string_app_nil_l; reflexivity.
Qed.

Lemma expandFrags_app (st : state) (b : bool) (x y : list argFragment) :
  expandFrags ExpandEnv st b (x ++ y)
  = expandFrags ExpandEnv st b x +:+ expandFrags ExpandEnv st b y.
Proof.
  induction x as [|f x IH].
  - reflexivity.
  - rewrite <- app_comm_cons, !expandFrags_cons, IH, string_app_assoc. reflexivity.
Qed.

Lemma expandFrags_quoted (st : state) (b : bool) (frags : list argFragment) :
  Forall (fun f => frag_quoted f = true) frags ->
  expandFrags ExpandEnv st b frags = joinFrags frags.
Proof.
  induction 1 as [|f frags Hf _ IH]; [reflexivity|].
  rewrite expandFrags_cons, joinFrags_cons, Hf, IH. reflexivity.
Qed.

Lemma expandArgsFrom_length (st : state) (re : list Z) (raw : list (list argFragment)) :
  forall k, length (expandArgsFrom ExpandEnv st k raw re) = length raw.
Proof. induction raw as [|a raw IH]; intros k; cbn; [|rewrite IH]; reflexivity. Qed.

Lemma expandArgsFrom_lookup (st : state) (re : list Z) (raw : list (list argFragment)) :
  forall k (i : nat) frags,
    raw !! i = Some frags ->
    expandArgsFrom ExpandEnv st k raw re !! i
    = Some (expandFrags ExpandEnv st (isRegexpArg (k + Z.of_nat i) re) frags).
Proof.
  induction raw as [|a raw IH]; intros k i frags H; [discriminate|].
  destruct i as [|i]; cbn [expandArgsFrom].
  - injection H as ->. cbn. rewrite Z.add_0_r. reflexivity.
  - change (raw !! i = Some frags) in H.
    change (expandArgsFrom ExpandEnv st (k + 1) raw re !! i
            = Some (expandFrags ExpandEnv st (isRegexpArg (k + Z.of_nat (S i)) re) frags)).
    rewrite (IH (k + 1) i frags H).
    replace (k + 1 + Z.of_nat i) with (k + Z.of_nat (S i)) by lia. reflexivity.
Qed.

(** X10.  Expansion does not split or drop arguments: [expandArgs] returns
    one argument for each raw argument.  An argument all of whose
    fragments are quoted is the text of its fragments, whatever the
    environment holds and whether or not it is a regular expression. *)
Theorem expandArgs_keeps_quoted (st : state) (raw : list (list argFragment)) (re : list Z) :
  length (expand st raw re) = length raw
  /\ forall (i : nat) frags,
       raw !! i = Some frags ->
       Forall (fun f => frag_quoted f = true) frags ->
       expand st raw re !! i = Some (joinFrags frags).
Proof.
  split; [apply expandArgsFrom_length|].
  intros i frags Hi Hq. unfold expandArgs.
  rewrite (expandArgsFrom_lookup st re raw 0 i frags Hi).
  rewrite (expandFrags_quoted _ _ _ Hq). reflexivity.
Qed.

Lemma expandFrags_argFrags_quoted (st : state) (b : bool) (a : string) :
  plainWord a = false ->
  ExpandEnv st EmptyString b = EmptyString ->
  expandFrags ExpandEnv st b (argFrags a) = a.
Proof.
  intros Ha He. rewrite (argFrags_quoted a Ha), expandFrags_app.
  rewrite (expandFrags_quoted _ _ _ (quotedFrags_all_quoted a EmptyString)).
  rewrite joinFrags_quotedFrags, string_app_nil_l.
  rewrite expandFrags_cons. cbn [frag_quoted frag_s]. rewrite He.
  change (expandFrags ExpandEnv st b []) with EmptyString.
  rewrite !string_app_nil_r. reflexivity.
Qed.

Lemma expandArgsFrom_argFrags (st : state) (re : list Z) (args : list string) : forall k,
  Forall (fun a => plainWord a = false) args ->
  (forall b, ExpandEnv st EmptyString b = EmptyString) ->
  expandArgsFrom ExpandEnv st k (map argFrags args) re = args.
Proof.
  induction args as [|a args IH]; intros k Hall He; [reflexivity|].
  inversion Hall as [|? ? Ha Hall']; subst.
  cbn [map expandArgsFrom]. rewrite (IH (k + 1) Hall' He).
  rewrite (expandFrags_argFrags_quoted st _ a Ha (He _)). reflexivity.
Qed.

(** X9.  Arguments that [quoteArgs] writes between quotes (those that
    hold a separator or a quote) reach the command as they are: the line
    of a command name and these arguments parses to a command whose
    expanded arguments are the arguments, whatever the environment binds,
    for an [ExpandEnv] that expands the empty text to itself. *)
Theorem quoted_args_reach_command (st : state) (filename : string) (lineno : Z) (n : string)
    (args : list string) (re : list Z) :
  plainName n = true ->
  Forall (fun a => plainWord a = false) args ->
  (forall b, ExpandEnv st EmptyString b = EmptyString) ->
  exists cmd,
    parse filename lineno (n +:+ SP +:+ quoteArgs args) = inr (Some cmd)
    /\ name cmd = n /\ background cmd = false
    /\ expand st (rawArgs cmd) re = args.
Proof.
  intros Hn Hargs He. pose proof (plainName_nonempty n Hn) as Hne.
  exists (mkCommand filename lineno success [] n (map argFrags args) [] [] false).
  assert (Hnonempty : Forall (fun a => a <> EmptyString) args).
  { eapply Forall_impl; [exact Hargs|]. intros a Ha ->. discriminate. }
  split; [|cbn [name background rawArgs]; repeat split;
           apply expandArgsFrom_argFrags; assumption].
  rewrite parse_scan, scan_quoted_args by assumption.
  induction args as [|a pre _] using rev_ind.
  - unfold parseFinish. cbn [name rawArgs map]. apply String.eqb_neq in Hne.
    rewrite Hne. reflexivity.
  - apply Forall_app in Hargs as [_ Ha]. inversion Ha as [|? ? Ha' _]; subst.
    pose proof (argFrags_quoted a Ha') as Hq.
    destruct (quotedFrags_cons a EmptyString) as (f & fr & Hf).
    rewrite Hf in Hq.
    apply (parseFinish_long_last _ (map argFrags pre) f
             (match fr with [] => mkFrag EmptyString false | g :: _ => g end)
             (match fr with [] => [] | _ :: fr' => fr' ++ [mkFrag EmptyString false] end)).
    + exact Hne.
    + cbn [rawArgs]. rewrite map_app. cbn [map]. rewrite Hq.
      destruct fr; reflexivity.
Qed.

(** ** Dispatch *)

(** X17.  A line that ends with the background marker, for a command
    that may run in the background and whose [Run] returns a [WaitFunc]
    and no error: [runCommand] registers the command with its [WaitFunc]
    among the background tasks and does not call the [WaitFunc]; it
    clears stdout and stderr and returns nil, whatever status the line
    expects. *)
Theorem runCommand_background_registers (e : engine) (s : state) (tr : list event)
    (cmd : command) (impl : @Cmd WaitFunc FlagSet FlagDecl Env) (rest : list string)
    (fs : FlagSet) (s1 : state) (w : WaitFunc) :
  background cmd = true ->
  Async (Usage impl) = true ->
  pflagParse (name cmd) (FlagsDecl (Usage impl)) (origArgs cmd) = FlagOk rest fs ->
  Run impl (set_Flags (Some fs) s) rest = (s1, Some w, None) ->
  run e s tr cmd (Some impl)
  = (set_stderr EmptyString
       (set_stdout EmptyString
          (set_backgroundCmds (backgroundCmds s1 ++ [(set_args rest cmd, w)]) s1)),
     tr ++ [EvRun (name cmd) rest], set_args rest cmd, None).
Proof.
  intros Hbg Hasync Hflags Hrun. unfold runCommand.
  rewrite Hbg, Hasync, Hflags. cbn [negb andb args set_args name background].
  rewrite Hrun, Hbg. reflexivity.
Qed.

(** ** The errors that [Execute] returns *)

Lemma lineErr_located (fn : string) (f : frameT) (err : error) :
  located F fn (lineErr F fn f err).
Proof.
  unfold lineErr, located. destruct (bool_decide _) eqn:H.
  - left. apply bool_decide_eq_true in H. exact H.
  - right. eauto.
Qed.

Lemma retryLoop_located (fuel : nat) (e : engine) (fn ln : string) :
  forall (f : frameT) b f' err,
    retry fuel e fn ln f b = Some (f', Some err) -> located F fn err.
Proof.
  induction fuel as [|fuel IH]; intros f b f' err H; [discriminate|].
  cbn [retryLoop] in H.
  destruct (get b) as [d b'].
  destruct (WriteString Write _ f) as [f1 e1].
  destruct (ctx (st f1)).
  - injection H as _ <-. apply lineErr_located.
  - destruct (replay _ _ _ _ _ _ _ _) as [[[s2 tr2] cmds2] rerr].
    destruct (FlushLog Write _) as [f2 e2].
    destruct rerr; [apply (IH _ _ _ _ H) | discriminate].
Qed.

Lemma mainLoop_located (fuel : nat) (e : engine) (fn : string) (ri mi : Z) :
  forall (f f' : frameT) err,
    loop fuel e fn ri mi f = Some (f', Some err) -> located F fn err.
Proof.
  induction fuel as [|fuel IH]; intros f f' err H; [discriminate|].
  cbn [mainLoop] in H.
  destruct (ctx (st f)); [injection H as _ <-; apply lineErr_located|].
  destruct (ReadString (script f)) as [[ln rest] eof].
  destruct (eof && String.eqb ln EmptyString).
  { destruct (endSection Write F e true _) as [f1 [e1|]];
      [injection H as _ <-; apply lineErr_located | discriminate]. }
  destruct (strings.HasPrefix _ "#").
  { destruct (endSection Write F e true _) as [f1 [e1|]];
      [injection H as _ <-; apply lineErr_located|].
    destruct (WriteString Write _ f1) as [f2 [e2|]];
      [injection H as _ <-; apply lineErr_located | apply (IH _ _ _ H)]. }
  destruct (parse fn _ _) as [perr|[cmd|]];
    [injection H as _ <-; apply lineErr_located | | apply (IH _ _ _ H)].
  destruct (conditionsActive F e _ _ _) as [[[s1 tr1] ok] [cerr|]];
    [injection H as _ <-; apply lineErr_located|].
  destruct (negb ok); [apply (IH _ _ _ H)|].
  destruct (runCommand _ _ _ _ _ _ _ _ _) as [[[s2 tr2] cmd2] [rerr|]];
    [|apply (IH _ _ _ H)].
  cbn [st set_st set_calls set_sectionCmds] in H.
  destruct (retriesRequested s2).
  - destruct (WriteString Write LF _) as [f3 e3].
    destruct (FlushLog Write f3) as [f4 e4].
    destruct (retryLoop _ _ _ _ _ _ _ _ _ _ _) as [[f5 [e5|]]|] eqn:Hretry;
      [| |discriminate].
    + injection H as _ <-. apply (retryLoop_located _ _ _ _ _ _ _ _ Hretry).
    + destruct (WriteString Write _ f5) as [f6 e6]. apply (IH _ _ _ H).
  - destruct (errors.As_stopError rerr).
    + destruct (endSection Write F e true _) as [f3 [e3|]];
        [injection H as _ <-; apply lineErr_located | discriminate].
    + injection H as _ <-. apply lineErr_located.
Qed.

(** X20.  Every error that [Execute] returns carries a location: it is or
    wraps a command error (which holds the file and the line of its
    command), or its text begins with the file name and a line number. *)
Theorem Execute_error_located (fuel : nat) (e : engine) (s : state) (fn text : string)
    (w : Writer) (s' : state) (tr : list event) (w' : Writer) (err : error) :
  exec fuel e s fn text w = Some (s', tr, w', Some err) ->
  located F fn err.
Proof.
  unfold Execute.
  destruct (mainLoop _ _ _ _ _ _ _ _ _ _ _ _) as [[f1 err1]|] eqn:Hloop; [|discriminate].
  destruct (endSection Write F e false f1) as [f2 [sErr|]].
  - destruct err1 as [err1|].
    + intros [= _ _ _ <-]. apply (mainLoop_located _ _ _ _ _ _ _ _ Hloop).
    + intros [= _ _ _ <-]. apply lineErr_located.
  - destruct err1 as [err1|]; [|discriminate].
    intros [= _ _ _ <-]. apply (mainLoop_located _ _ _ _ _ _ _ _ Hloop).
Qed.


(** X19.  A line that does not parse ends the script with an error that
    wraps [ParseError] and the error of the parser.  Take a script whose
    earlier lines bring the loop to the frame [f] and whose next line is
    rejected by [parse]: [Execute] returns an error that [errors.Is]
    finds to be [ParseError], with the file and the line before it, and
    asks for no evaluation and no dispatch for this line. *)
Theorem parse_error_ends_script (k : nat) (e : engine) (s0 : state) (fn text : string)
    (w0 : Writer) (f : frameT) (ln rest : string) (perr : error) :
  let ri := if RetryInterval e =? 0 then defaultRetryInterval else RetryInterval e in
  let mi := if MaxRetryInterval e =? 0 then defaultMaxRetryInterval else MaxRetryInterval e in
  (forall fuel, loop (k + fuel) e fn ri mi (mkFrame s0 [] w0 text 0 false [])
                = loop fuel e fn ri mi f) ->
  ctx (st f) = None ->
  nextLine (script f) = Some (ln, rest) ->
  strings.HasPrefix ln "#" = false ->
  parse fn (wrap64 (lineno f + 1)) ln = inl perr ->
  forall fuel, exists s' w' err,
    exec (k + S fuel) e s0 fn text w0 = Some (s', calls f, w', Some err)
    /\ errors.Is_ParseError err = true
    /\ err = Errorf (fn +:+ ":" +:+ fmt_d F (wrap64 (lineno f + 1)) +:+ ": ")
                    (Errorf2 ParseError perr).
Proof.
  intros ri mi Harrive Hctx Hread Hsharp Hparse fuel.
  unfold Execute. fold ri mi. rewrite Harrive.
  cbn [mainLoop]. rewrite Hctx.
  apply nextLine_read in Hread as (raw & eof & Hraw & Hnot & Hln).
  rewrite Hraw, Hnot, Hln. cbn [set_lineno set_script lineno].
  rewrite Hsharp, Hparse.
  destruct (endSection Write F e false _) as [f3 sErr] eqn:Hend.
  apply endSection_frame in Hend as (Hcalls & _).
  exists (st f3), (out f3). rewrite Hcalls. cbn [calls set_st].
  eexists. split; [destruct sErr; reflexivity|].
  unfold lineErr. cbn [lineno set_st].
  destruct (parse_error_plain _ _ _ _ Hparse) as [msg ->].
  split; reflexivity.
Qed.

(** ** [ExecuteLine] *)

(** The events of one dispatch: nothing, the call of [Run], or the call
    of [Run] and the call of the [WaitFunc]. *)
Lemma runCommand_dispatches_once (e : engine) (s : state) (tr : list event) (cmd : command)
    (impl : option (@Cmd WaitFunc FlagSet FlagDecl Env)) s' tr' cmd' err :
  run e s tr cmd impl = (s', tr', cmd', err) ->
  tr' = tr
  \/ (exists a, tr' = tr ++ [EvRun (name cmd) a])
  \/ (exists a, tr' = tr ++ [EvRun (name cmd) a; EvWait (name cmd)]).
Proof.
  unfold runCommand. destruct impl as [impl|]; [|intros [= _ <- _ _]; auto].
  destruct (background cmd && negb (Async (Usage impl))); [intros [= _ <- _ _]; auto|].
  destruct (pflagParse _ _ _) as [|perr|rest fs].
  - destruct (ListCmds _ _ _) as [o lerr]. intros [= _ <- _ _]. auto.
  - destruct (FlagsDecl (Usage impl)); [intros [= _ <- _ _]; auto|].
    destruct (Run impl s (args cmd)) as [[s1 wait] runErr].
    destruct wait as [wait|].
    + destruct runErr; [intros [= _ <- _ _]; eauto|].
      destruct (background cmd); [intros [= _ <- _ _]; eauto|].
      destruct (callWait wait s1) as [[[s2 o] eo] waitErr].
      destruct (checkStatus cmd waitErr); [|destruct waitErr];
        intros [= _ <- _ _]; right; right; rewrite <- app_assoc; eauto.
    + destruct (_ && _); intros [= _ <- _ _]; eauto.
  - cbn [args set_args name background].
    destruct (Run impl _ rest) as [[s1 wait] runErr].
    destruct wait as [wait|].
    + destruct runErr; [intros [= _ <- _ _]; eauto|].
      destruct (background cmd); [intros [= _ <- _ _]; eauto|].
      destruct (callWait wait s1) as [[[s2 o] eo] waitErr].
      destruct (checkStatus _ waitErr); [|destruct waitErr];
        intros [= _ <- _ _]; right; right; rewrite <- app_assoc; eauto.
    + destruct (_ && _); intros [= _ <- _ _]; eauto.
Qed.

Lemma ExecuteLine_flush (s3 : state) (tr3 : list event) (w : Writer) (x : option error) :
  (let '(f, _) := FlushLog Write (mkFrame s3 tr3 w EmptyString 0 false []) in
   (st f, calls f, out f, x))
  = (set_log EmptyString s3, tr3, fst (Write w (log s3)), x).
Proof.
  unfold FlushLog, WriteString. cbn [out st]. destruct (Write w (log s3)). reflexivity.
Qed.

(** X22.  [ExecuteLine] never retries and never runs a second command:
    whatever the line is (also with a retry marker), the engine first
    evaluates conditions and then asks for at most one dispatch, the call
    of [Run] of one command followed by at most one call of its
    [WaitFunc]. *)
Theorem ExecuteLine_dispatches_once (e : engine) (s : state) (ln : string) (w : Writer) :
  exists evals rest,
    snd (fst (fst (execLine e s ln w))) = evals ++ rest
    /\ Forall (fun ev => isEval ev = true) evals
    /\ (rest = []
        \/ (exists n a, rest = [EvRun n a])
        \/ (exists n a, rest = [EvRun n a; EvWait n])).
Proof.
  unfold ExecuteLine.
  destruct (parse "<stdin>" 0 ln) as [perr|[cmd|]].
  - rewrite ExecuteLine_flush. exists [], []. cbn. auto.
  - destruct (conditionsActive F e s [] (conds cmd)) as [[[s1 tr1] ok] cerr] eqn:Hg.
    apply conditionsActive_events in Hg as (evs & -> & Hevs). rewrite app_nil_l.
    destruct cerr as [cerr|];
      [rewrite ExecuteLine_flush; exists evs, []; rewrite app_nil_r; cbn; auto|].
    destruct (negb ok);
      [rewrite ExecuteLine_flush; exists evs, []; rewrite app_nil_r; cbn; auto|].
    destruct (runCommand _ _ _ _ _ _ _ _ _) as [[[s2 tr2] cmd2] rerr] eqn:Hrun.
    apply runCommand_dispatches_once in Hrun.
    exists evs.
    assert (Hcalls : snd (fst (fst
              (let '(s3, tr3, err3) :=
                 match rerr with
                 | Some err =>
                     match errors.As_stopError err with
                     | Some stop => (Logf (fmt_v F stop +:+ LF) s2, tr2, Some err)
                     | None => (s2, tr2, Some err)
                     end
                 | None => (s2, tr2, None)
                 end in
               let '(f, _) := FlushLog Write (mkFrame s3 tr3 w EmptyString 0 false []) in
               (st f, calls f, out f, err3)))) = tr2).
    { destruct rerr as [rerr|]; [destruct (errors.As_stopError rerr)|];
        rewrite ExecuteLine_flush; reflexivity. }
    rewrite Hcalls.
    destruct Hrun as [-> | [(a & ->) | (a & ->)]].
    + exists []. rewrite app_nil_r. auto.
    + eexists [_]. split; [reflexivity|]. split; [exact Hevs|]. right; left. eauto.
    + eexists [_; _]. split; [reflexivity|]. split; [exact Hevs|]. right; right. eauto.
  - rewrite ExecuteLine_flush. exists [], []. cbn. auto.
Qed.

(** X23.  [ExecuteLine] returns the stop signal to its caller.  On a line
    whose guards hold and whose dispatch ends with an error that is (or
    wraps) the stop error, [ExecuteLine] logs the stop message, flushes
    the log, and returns that error, not nil. *)
Theorem ExecuteLine_returns_stop (e : engine) (s : state) (ln : string) (w : Writer)
    (cmd : command) (s1 : state) (tr1 : list event) (s2 : state) (tr2 : list event)
    (cmd2 : command) (err stop : error) :
  parse "<stdin>" 0 ln = inr (Some cmd) ->
  guards e s [] (conds cmd) = (s1, tr1, true, None) ->
  run e s1 tr1
      (set_origArgs (expandArgs ExpandEnv s1 (rawArgs cmd) (regexpArgsOf (Cmds e !! name cmd) cmd))
         (set_args (expandArgs ExpandEnv s1 (rawArgs cmd) (regexpArgsOf (Cmds e !! name cmd) cmd))
            cmd))
      (Cmds e !! name cmd)
  = (s2, tr2, cmd2, Some err) ->
  errors.As_stopError err = Some stop ->
  execLine e s ln w
  = (set_log EmptyString (Logf (fmt_v F stop +:+ LF) s2), tr2,
     fst (Write w (log s2 +:+ fmt_v F stop +:+ LF)), Some err).
Proof.
  intros Hparse Hguard Hrun Hstop. unfold ExecuteLine.
  rewrite Hparse, Hguard. cbn [negb]. rewrite Hrun, Hstop.
  rewrite ExecuteLine_flush. reflexivity.
Qed.

(** X24.  [ExecuteLine] returns the error of the parser as it is: unlike
    the error that [Execute] returns for the same line, it does not wrap
    [ParseError] and has no file and line before it; nothing is evaluated
    or dispatched for the line. *)
Theorem ExecuteLine_parse_error_unwrapped (e : engine) (s : state) (ln : string) (w : Writer)
    (perr : error) :
  parse "<stdin>" 0 ln = inl perr ->
  execLine e s ln w = (set_log EmptyString s, [], fst (Write w (log s)), Some perr)
  /\ errors.Is_ParseError perr = false.
Proof.
  intros Hparse. unfold ExecuteLine. rewrite Hparse, ExecuteLine_flush.
  split; [reflexivity|].
  destruct (parse_error_plain _ _ _ _ Hparse) as [msg ->]. reflexivity.
Qed.

(** ** Guards *)

Lemma conditionsActive_app_true (e : engine) (pre : list condition) :
  forall (s : state) tr post s1 tr1,
    guards e s tr pre = (s1, tr1, true, None) ->
    guards e s tr (pre ++ post) = guards e s1 tr1 post.
Proof.
  induction pre as [|c pre IH]; intros s tr post s1 tr1 H.
  - injection H as <- <-. reflexivity.
  - rewrite <- app_comm_cons. cbn [conditionsActive] in *.
    destruct (lookupCond F e c) as [err|[impl sfx]]; [discriminate|].
    destruct (Eval impl s sfx) as [[s0 active] [err|]]; [discriminate|].
    destruct (negb (Bool.eqb active (cwant c))); [discriminate|].
    apply IH. exact H.
Qed.

(** X16.  A condition that is not registered is an error, not a false
    condition: on a line whose conditions before it hold, the guard of an
    unknown name (without a colon) makes [conditionsActive] return the
    error of the unknown condition, whatever the polarity of the guard is
    (also for [[!name]]) and whatever conditions follow; no capability is
    evaluated for it. *)
Theorem unknown_condition_is_error (e : engine) (s : state) (tr : list event)
    (pre : list condition) (c : condition) (post : list condition)
    (s1 : state) (tr1 : list event) :
  hasByte ":" (tag c) = false ->
  Conds e !! tag c = None ->
  guards e s tr pre = (s1, tr1, true, None) ->
  guards e s tr (pre ++ c :: post)
  = (s1, tr1, false, Some (errors.New ("unknown condition " +:+ fmt_q F (tag c)))).
Proof.
  intros Hcolon Hnone Hpre.
  rewrite (conditionsActive_app_true e pre s tr (c :: post) s1 tr1 Hpre).
  cbn [conditionsActive]. unfold lookupCond.
  rewrite (Cut_no_sep ":" (tag c) Hcolon), Hnone. reflexivity.
Qed.

(** ** Sections *)

(** X21.  The end of a section that has a header and a log.  The elapsed
    time is written after the header.  With [Quiet], the log of a section
    that succeeded is dropped: nothing else is written; the log of a
    section that failed is written.  Without [Quiet] the log is written
    in both cases.  The log buffer is empty afterwards, and a failed
    write of the elapsed time is the error returned. *)
Theorem endSection_quiet (e : engine) (ok : bool) (f : frameT) (w1 : Writer)
    (werr : option error) :
  sectionStart f = true ->
  log (st f) <> EmptyString ->
  Write (out f) (" (" +:+ fmt_since F +:+ "s)" +:+ LF) = (w1, werr) ->
  flushSection e ok f
  = if bool_decide (werr = None) && (negb ok || negb (Quiet e))
    then (mkFrame (set_log EmptyString (st f)) (calls f) (fst (Write w1 (log (st f))))
                  (script f) (lineno f) false [],
          snd (Write w1 (log (st f))))
    else (mkFrame (set_log EmptyString (st f)) (calls f) w1 (script f) (lineno f) false [],
          werr).
Proof.
  intros Hstart Hlog Hw. unfold endSection. rewrite Hstart. cbn [negb].
  assert (Hlen : (strings.len (log (st f)) =? 0) = false).
  { apply Z.eqb_neq. unfold strings.len. destruct (log (st f)); [congruence|]. simpl. lia. }
  rewrite Hlen. unfold WriteString at 1. rewrite Hw.
  destruct (bool_decide (werr = None) && (negb ok || negb (Quiet e))).
  - unfold FlushLog, WriteString. cbn [out st set_out].
    destruct (Write w1 (log (st f))) as [w2 e2]. reflexivity.
  - reflexivity.
Qed.

End CoverProps.

(** * [wrapLine], [ListConds] and [checkName] *)

(** ** [wrapLine] *)

Lemma len_cons (c : ascii) (t : string) : strings.len (String c t) = 1 + strings.len t.
Proof. unfold strings.len. cbn [String.length]. lia. Qed.

(** The place of the break: no space at all, or a space that is at most
    at offset [cols], or the first space of the line. *)
Lemma bestSpaceLoop_spec (cols : Z) (rest : string) : forall i best,
  0 <= i ->
  (best < 0 ->
     (bestSpaceLoop rest i cols best < 0 /\ hasByte " " rest = false)
     \/ exists a b, rest = a +:+ String " " b
                   /\ bestSpaceLoop rest i cols best = i + strings.len a
                   /\ (i + strings.len a <= cols \/ hasByte " " a = false))
  /\ (0 <= best <= cols ->
     bestSpaceLoop rest i cols best = best
     \/ exists a b, rest = a +:+ String " " b
                   /\ bestSpaceLoop rest i cols best = i + strings.len a
                   /\ i + strings.len a <= cols).
Proof.
  induction rest as [|c rest IH]; intros i best Hi.
  - cbn [bestSpaceLoop hasByte]. split; intros H; left; auto.
  - cbn [bestSpaceLoop hasByte]. destruct (Ascii.eqb c " ") eqn:Hc.
    + apply Ascii.eqb_eq in Hc. subst c.
      destruct (cols <? i) eqn:Hci.
      * apply Z.ltb_lt in Hci.
        assert (Hle : (i <=? cols) = false) by (apply Z.leb_gt; lia).
        rewrite Hle. cbn [orb]. split; intros Hb.
        -- assert (Hneg : (best <? 0) = true) by (apply Z.ltb_lt; lia).
           rewrite Hneg. right. exists EmptyString, rest.
           split; [reflexivity|]. split; [unfold strings.len; simpl; lia | right; reflexivity].
        -- assert (Hneg : (best <? 0) = false) by (apply Z.ltb_ge; lia).
           rewrite Hneg. left. reflexivity.
      * apply Z.ltb_ge in Hci.
        assert (Hle : (i <=? cols) = true) by (apply Z.leb_le; lia).
        rewrite Hle. cbn [orb].
        destruct (IH (i + 1) i ltac:(lia)) as [_ IH2].
        specialize (IH2 ltac:(lia)).
        assert (Hgoal : exists a b, String " " rest = a +:+ String " " b
                  /\ bestSpaceLoop rest (i + 1) cols i = i + strings.len a
                  /\ i + strings.len a <= cols).
        { destruct IH2 as [Hr | (a & b & Hrest & Hr & Hok)].
          - exists EmptyString, rest. rewrite Hr.
            split; [reflexivity|]. unfold strings.len; simpl; lia.
          - exists (String " " a), b. rewrite Hr, Hrest, len_cons.
            split; [reflexivity|]. lia. }
        destruct Hgoal as (a & b & H1 & H2 & H3).
        split; intros _; right; exists a, b; auto.
    + destruct (IH (i + 1) best ltac:(lia)) as [IH1 IH2]. split; intros Hb.
      * destruct (IH1 Hb) as [[Hr Hno] | (a & b & Hrest & Hr & Hok)].
        -- left. cbn [orb]. auto.
        -- right. exists (String c a), b. rewrite Hr, Hrest, len_cons.
           split; [reflexivity|]. split; [lia|].
           destruct Hok as [Hok | Hok]; [left; lia | right].
           cbn [hasByte]. rewrite Hc, Hok. reflexivity.
      * destruct (IH2 Hb) as [Hr | (a & b & Hrest & Hr & Hok)]; [left; exact Hr|].
        right. exists (String c a), b. rewrite Hr, Hrest, len_cons.
        split; [reflexivity|]. lia.
Qed.

(** The two slices that the loop of [wrapLine] takes at a space. *)
Lemma slices_at_space (a b : string) :
  strings.slice (a +:+ String " " b) 0 (0 + strings.len a) = a
  /\ strings.slice (a +:+ String " " b) (0 + strings.len a + 1)
                   (strings.len (a +:+ String " " b)) = b.
Proof.
  unfold strings.slice, strings.len. split.
  - replace (Z.to_nat (0 + Z.of_nat (String.length a) - 0)) with (String.length a) by lia.
    apply substring_prefix.
  - rewrite string_snoc_app.
    replace (Z.to_nat (0 + Z.of_nat (String.length a) + 1))
      with (String.length (a +:+ String " " EmptyString))
      by (rewrite string_length_app; simpl; lia).
    replace (Z.to_nat _) with (String.length b)
      by (rewrite !string_length_app; simpl; lia).
    apply substring_drop.
Qed.

Lemma wrapLoop_lines (cols : Z) (indent : string) (fuel : nat) : forall ln w,
  (String.length ln < fuel)%nat ->
  exists ls,
    ls <> []
    /\ wrapLoop recWrite fuel w ln cols indent = Some (w ++ map (wrapped indent) ls, None)
    /\ String.concat " " ls = ln
    /\ Forall (fun l => strings.len l <= cols \/ hasByte " " l = false) ls.
Proof.
  induction fuel as [|fuel IH]; intros ln w Hfuel; [lia|].
  cbn [wrapLoop]. destruct (cols <? strings.len ln) eqn:Hlen.
  - destruct (bestSpaceLoop_spec cols ln 0 (-1) (Z.le_refl 0)) as [Hspec _].
    destruct (Hspec ltac:(lia)) as [[Hr Hno] | (a & b & Hln & Hr & Hok)].
    + apply Z.ltb_lt in Hr. rewrite Hr. exists [ln].
      split; [discriminate|]. split; [reflexivity|]. split; [reflexivity|].
      constructor; [right; exact Hno | constructor].
    + rewrite Hr.
      assert (Hpos : (0 + strings.len a <? 0) = false)
        by (apply Z.ltb_ge; pose proof (len_nonneg a); lia).
      rewrite Hpos. subst ln.
      destruct (slices_at_space a b) as [-> ->].
      cbn [recWrite].
      destruct (IH b (w ++ [indent +:+ a +:+ LF])) as (ls & Hne & Hrun & Hcat & Hall).
      { rewrite string_length_app in Hfuel. simpl in Hfuel. lia. }
      exists (a :: ls). split; [discriminate|].
      split; [rewrite Hrun, <- app_assoc; reflexivity|].
      split.
      * destruct ls as [|l ls]; [congruence|].
        change (String.concat " " (a :: l :: ls))
          with (a +:+ " " +:+ String.concat " " (l :: ls)).
        rewrite Hcat. reflexivity.
      * constructor; [exact Hok | exact Hall].
  - apply Z.ltb_ge in Hlen. exists [ln].
    split; [discriminate|]. split; [reflexivity|]. split; [reflexivity|].
    constructor; [left; exact Hlen | constructor].
Qed.

(** X25.  What [wrapLine] writes, on a writer that does not fail: the
    line without its leading spaces, cut at spaces into lines that are
    each written after the indent and before a newline.  Nothing is lost:
    the lines joined by single spaces are the text.  Each line is at most
    [cols] bytes long, unless it is a word without a space. *)
Theorem wrapLine_lines (w : list string) (ln : string) (cols : Z) (indent : string) :
  exists ls,
    wrapLine recWrite w ln cols indent = Some (w ++ map (wrapped indent) ls, None)
    /\ String.concat " " ls = strings.TrimLeft ln " "
    /\ Forall (fun l => strings.len l <= cols \/ hasByte " " l = false) ls.
Proof.
  unfold wrapLine.
  destruct (wrapLoop_lines cols indent (S (String.length (strings.TrimLeft ln " ")))
              (strings.TrimLeft ln " ") w (Nat.lt_succ_diag_r _)) as (ls & _ & H).
  exists ls. exact H.
Qed.

Section Wrap.

Context {Writer : Type}.
Variable Write : Writer -> string -> Writer * option error.

Lemma wrapLoop_total (cols : Z) (indent : string) (fuel : nat) : forall ln (w : Writer),
  (String.length ln < fuel)%nat ->
  exists r, wrapLoop Write fuel w ln cols indent = Some r.
Proof.
  induction fuel as [|fuel IH]; intros ln w Hfuel; [lia|].
  cbn [wrapLoop]. destruct (cols <? strings.len ln); [|eauto].
  destruct (bestSpaceLoop_spec cols ln 0 (-1) (Z.le_refl 0)) as [Hspec _].
  destruct (Hspec ltac:(lia)) as [[Hr Hno] | (a & b & Hln & Hr & Hok)].
  - apply Z.ltb_lt in Hr. rewrite Hr. eauto.
  - rewrite Hr.
    assert (Hpos : (0 + strings.len a <? 0) = false)
      by (apply Z.ltb_ge; pose proof (len_nonneg a); lia).
    rewrite Hpos. subst ln.
    destruct (slices_at_space a b) as [-> ->].
    destruct (Write w _) as [w1 [werr|]]; [eauto|].
    apply IH. rewrite string_length_app in Hfuel. simpl in Hfuel. lia.
Qed.

(** X26.  [wrapLine] returns, whatever the line, the width and the
    writer are: each turn of its loop cuts at least one byte off the
    line, and the turns that the length of the line allows suffice. *)
Theorem wrapLine_returns (w : Writer) (ln : string) (cols : Z) (indent : string) :
  exists r, wrapLine Write w ln cols indent = Some r.
Proof. unfold wrapLine. apply wrapLoop_total. apply Nat.lt_succ_diag_r. Qed.

End Wrap.

(** ** [ListConds] *)

Section Listing.

Context {WaitFunc FlagSet FlagDecl Env : Type}.
Variable F : Formatter.

Local Abbreviation engine := (@Engine WaitFunc FlagSet FlagDecl Env).
Local Abbreviation state := (@State WaitFunc FlagSet Env).

Lemma listCondsLoop_no_state {Writer : Type} (Write : Writer -> string -> Writer * option error)
    (e : engine) (tags : list string) :
  forall (w : Writer) tr w' (s' : option state) tr' err,
    listCondsLoop Write F e w None tr tags = (w', s', tr', err) ->
    s' = None /\ tr' = tr.
Proof.
  induction tags as [|tg tags IH]; intros w tr w' s' tr' err H.
  - injection H as _ <- <- _. auto.
  - cbn [listCondsLoop] in H.
    destruct (strings.Cut tg ":") as [[prefix suffix] ok].
    destruct ok.
    + destruct (Conds e !! prefix) as [cond|]; [|injection H as _ <- <- _; auto].
      destruct (negb (Prefix (CondUsageOf cond))); [injection H as _ <- <- _; auto|].
      cbn [activeMark] in H.
      destruct (Write w _) as [w1 [werr|]]; [injection H as _ <- <- _; auto|].
      apply (IH _ _ _ _ _ _ H).
    + destruct (Conds e !! tg) as [cond|]; [|injection H as _ <- <- _; auto].
      destruct (Prefix (CondUsageOf cond)); cbn [activeMark] in H;
        (destruct (Write w _) as [w1 [werr|]]; [injection H as _ <- <- _; auto|]);
        apply (IH _ _ _ _ _ _ H).
Qed.

(** X27.  Without a State ([s == nil]) [ListConds] evaluates no
    condition: it asks for no call of [Eval], whatever the tags are. *)
Theorem ListConds_without_state {Writer : Type}
    (Write : Writer -> string -> Writer * option error) (e : engine) (w : Writer)
    (tags : option (list string)) (w' : Writer) (s' : option state) (tr : list event)
    (err : option error) :
  ListConds Write F e w None tags = (w', s', tr, err) ->
  s' = None /\ tr = [].
Proof. unfold ListConds. apply listCondsLoop_no_state. Qed.

Lemma listCondsLoop_registered (e : engine) (names : list string) :
  forall (w : list string) (s : option state) tr,
    Forall (fun n => is_Some (Conds e !! n) /\ hasByte ":" n = false) names ->
    exists entries s' tr',
      listCondsLoop recWrite F e w s tr names = (w ++ entries, s', tr', None)
      /\ Forall2 (fun n entry => exists mark, entry = condLine e n mark) names entries.
Proof.
  induction names as [|n names IH]; intros w s tr Hall.
  - exists [], s, tr. rewrite app_nil_r. split; [reflexivity | constructor].
  - inversion Hall as [|? ? [[cond Hcond] Hcolon] Hall']; subst.
    cbn [listCondsLoop]. rewrite (Cut_no_sep ":" n Hcolon), Hcond.
    assert (Hline : forall mark,
              (if Prefix (CondUsageOf cond)
               then condEntry (n +:+ ":*") EmptyString (CondSummary (CondUsageOf cond))
               else condEntry n mark (CondSummary (CondUsageOf cond)))
              = condLine e n mark).
    { intros mark. unfold condLine. rewrite Hcond. reflexivity. }
    destruct (Prefix (CondUsageOf cond)) eqn:Hp.
    + cbn [recWrite].
      destruct (IH (w ++ [condEntry (n +:+ ":*") EmptyString (CondSummary (CondUsageOf cond))])
                   s tr Hall') as (entries & s' & tr' & Hrun & Hent).
      exists (condEntry (n +:+ ":*") EmptyString (CondSummary (CondUsageOf cond)) :: entries),
             s', tr'.
      split; [rewrite Hrun, <- app_assoc; reflexivity|].
      constructor; [exists EmptyString; apply (Hline EmptyString) | exact Hent].
    + destruct (activeMark cond s tr n EmptyString) as [[s1 tr1] mark] eqn:Hmark.
      cbn [recWrite].
      destruct (IH (w ++ [condEntry n mark (CondSummary (CondUsageOf cond))]) s1 tr1 Hall')
        as (entries & s' & tr' & Hrun & Hent).
      exists (condEntry n mark (CondSummary (CondUsageOf cond)) :: entries), s', tr'.
      split; [rewrite Hrun, <- app_assoc; reflexivity|].
      constructor; [exists mark; apply (Hline mark) | exact Hent].
Qed.

Lemma leb_total_Is_true : Total (fun a b : string => Is_true (String.leb a b)).
Proof.
  intros a b. destruct (String.leb_total a b) as [H | H]; rewrite H; [left | right]; exact I.
Qed.

Lemma sortStrings_elem_of (l : list string) (x : string) : x ∈ sortStrings l <-> x ∈ l.
Proof. unfold sortStrings. rewrite merge_sort_Permutation. reflexivity. Qed.

Lemma condNames_elem_of (e : engine) (n : string) :
  n ∈ condNames e <-> is_Some (Conds e !! n).
Proof.
  unfold condNames. change (map fst (map_to_list (Conds e))) with ((map_to_list (Conds e)).*1).
  rewrite list_elem_of_fmap. split.
  - intros ([k c] & -> & H). apply elem_of_map_to_list in H. eauto.
  - intros [c H]. exists (n, c). split; [reflexivity|]. apply elem_of_map_to_list. exact H.
Qed.

(** X28.  The call of [ListConds] without tags, on a writer that does
    not fail, for an engine none of whose condition names holds a colon:
    it returns no error and writes one entry for each registered
    condition, in the increasing order of the names, each name once. *)
Theorem ListConds_lists_all (e : engine) (w : list string) (s : option state) :
  (forall n, is_Some (Conds e !! n) -> hasByte ":" n = false) ->
  exists entries s' tr,
    ListConds recWrite F e w s None = (w ++ entries, s', tr, None)
    /\ Forall2 (fun n entry => exists mark, entry = condLine e n mark)
               (sortStrings (condNames e)) entries
    /\ Sorted (fun a b => Is_true (String.leb a b)) (sortStrings (condNames e))
    /\ NoDup (sortStrings (condNames e))
    /\ (forall n, n ∈ sortStrings (condNames e) <-> is_Some (Conds e !! n)).
Proof.
  intros Hcolon. unfold ListConds. fold (condNames e).
  destruct (listCondsLoop_registered e (sortStrings (condNames e)) w s [])
    as (entries & s' & tr' & Hrun & Hent).
  { apply Forall_forall. intros n Hn.
    apply sortStrings_elem_of, condNames_elem_of in Hn. auto. }
  exists entries, s', tr'. split; [exact Hrun|]. split; [exact Hent|].
  split; [apply Sorted_merge_sort, leb_total_Is_true|].
  split.
  - unfold sortStrings. rewrite merge_sort_Permutation. apply NoDup_fst_map_to_list.
  - intros n. rewrite sortStrings_elem_of. apply condNames_elem_of.
Qed.

End Listing.

(** ** [checkName] *)

Lemma checkNames_cons (used : option (gset string)) (n : string) (names : list string) :
  checkNames used (n :: names)
  = (fst (checkNames (fst (controller.checkName used n)) names),
     snd (controller.checkName used n)
     :: snd (checkNames (fst (controller.checkName used n)) names)).
Proof.
  cbn [checkNames]. destruct (controller.checkName used n) as [u err].
  cbn [fst snd]. destruct (checkNames u names) as [u' errs]. reflexivity.
Qed.

Lemma used_after_new (n : string) (names : list string) (X : gset string) :
  list_to_set names ∪ ({[n]} ∪ X) = list_to_set (n :: names) ∪ X.
Proof.
  apply set_eq. intros x.
  rewrite list_to_set_cons, !elem_of_union, elem_of_singleton. tauto.
Qed.

Lemma used_after_old (n : string) (names : list string) (X : gset string) :
  n ∈ X -> list_to_set names ∪ X = list_to_set (n :: names) ∪ X.
Proof.
  intros Hn. apply set_eq. intros x.
  rewrite list_to_set_cons, !elem_of_union, elem_of_singleton.
  split; [tauto|]. intros [[-> | H] | H]; auto.
Qed.

Lemma not_used_after (n m : string) (X : gset string) :
  m ∉ {[n]} ∪ X <-> m <> n /\ m ∉ X.
Proof. rewrite elem_of_union, elem_of_singleton. tauto. Qed.

(** X29.  Names of controllers are accepted once.  Calls of [checkName]
    for a list of names all return nil if and only if the names are
    pairwise distinct and none of them was used before; a name that was
    used stays used: after the calls the used names are those used before
    and the names of the list, whether or not the calls failed. *)
Theorem checkName_accepts_once (names : list string) : forall used : option (gset string),
  (Forall (fun r => r = None) (snd (checkNames used names))
   <-> NoDup names /\ Forall (fun n => n ∉ default (∅ : gset string) used) names)
  /\ default ∅ (fst (checkNames used names)) = list_to_set names ∪ default ∅ used.
Proof.
  induction names as [|n names IH]; intros used.
  - cbn [checkNames fst snd list_to_set foldr]. split.
    + split; [intros _; split; constructor | constructor].
    + rewrite (left_id_L ∅ (∪)). reflexivity.
  - rewrite checkNames_cons. cbn [fst snd].
    destruct (IH (fst (controller.checkName used n))) as [IHerr IHset].
    rewrite IHset. unfold controller.checkName in *.
    destruct (bool_decide (n ∈ default ∅ used)) eqn:Hin; cbn [fst snd default] in *.
    + apply bool_decide_eq_true in Hin. split; [|apply used_after_old; exact Hin].
      split.
      * intros H. inversion H; discriminate.
      * intros [_ H]. inversion H; subst. contradiction.
    + apply bool_decide_eq_false in Hin. split; [|apply used_after_new].
      rewrite Forall_cons, IHerr, NoDup_cons, Forall_cons.
      split.
      * intros (_ & Hnd & Hall). split; [split; [|exact Hnd]|split; [exact Hin|]].
        -- intros Hn. rewrite Forall_forall in Hall.
           apply (Hall n) in Hn. apply not_used_after in Hn as [Hn _]. congruence.
        -- eapply Forall_impl; [exact Hall|]. intros m Hm.
           apply not_used_after in Hm as [_ Hm]. exact Hm.
      * intros ((Hn & Hnd) & _ & Hall). split; [reflexivity|]. split; [exact Hnd|].
        apply Forall_forall. intros m Hm. rewrite Forall_forall in Hall.
        apply not_used_after. split; [intros ->; contradiction | apply Hall; exact Hm].
Qed.

(** ** Further scripts on the concrete host *)

Lemma quoted_args_reach_command_witness :
  plainName "echo" = true
  /\ Forall (fun a => plainWord a = false) ["$X y"; "it's"]
  /\ (forall b, Host.ExpandEnv (Host.init 0) EmptyString b = EmptyString)
  /\ exists cmd,
       parse "t.txt" 1 ("echo" +:+ SP +:+ quoteArgs ["$X y"; "it's"]) = inr (Some cmd)
       /\ name cmd = "echo" /\ background cmd = false
       /\ expandArgs Host.ExpandEnv (Host.init 0) (rawArgs cmd) [] = ["$X y"; "it's"].
Proof.
  split; [reflexivity|].
  split; [repeat constructor|].
  split; [reflexivity|].
  apply (quoted_args_reach_command Host.ExpandEnv (Host.init 0) "t.txt" 1 "echo"
           ["$X y"; "it's"] []).
  - reflexivity.
  - repeat constructor.
  - reflexivity.
Defined.

Lemma runCommand_background_registers_witness :
  let cmd := mkCommand "t.txt" 1 failure [] "echo" [[mkFrag "hi" false]] ["hi"] ["hi"] true in
  background cmd = true
  /\ Async (Usage Host.echo_cmd) = true
  /\ runCommand Host.callWait Host.pflagParse Host.ListCmds Host.F Host.engine
       (Host.init 0) [] cmd (Some Host.echo_cmd)
     = (set_stderr EmptyString
          (set_stdout EmptyString
             (set_backgroundCmds
                [(cmd, Host.mkHandle "hi" EmptyString None)]
                (set_Flags (Some tt) (Host.init 0)))),
        [EvRun "echo" ["hi"]], cmd, None).
Proof.
  split; [reflexivity|]. split; [reflexivity|].
  apply (runCommand_background_registers Host.callWait Host.pflagParse Host.ListCmds Host.F
           Host.engine (Host.init 0) []
           (mkCommand "t.txt" 1 failure [] "echo" [[mkFrag "hi" false]] ["hi"] ["hi"] true)
           Host.echo_cmd ["hi"] tt (set_Flags (Some tt) (Host.init 0))
           (Host.mkHandle "hi" EmptyString None));
    reflexivity.
Defined.

Lemma Execute_error_located_witness :
  Host.run 2 (Host.init 0) (Host.lines ["cmd"; "echo 'x"]) Host.newBuffer
  = Some (set_Flags (Some tt) (Host.init 0), [EvRun "cmd" []],
          Host.mkBuffer (Host.lines ["> cmd"; "> echo 'x"; EmptyString]) None,
          Some (Errorf "t.txt:N: "
                  (Errorf2 ParseError (errors.New "unterminated quoted argument"))))
  /\ located Host.F "t.txt"
       (Errorf "t.txt:N: " (Errorf2 ParseError (errors.New "unterminated quoted argument"))).
Proof.
  assert (H : Host.run 2 (Host.init 0) (Host.lines ["cmd"; "echo 'x"]) Host.newBuffer
              = Some (set_Flags (Some tt) (Host.init 0), [EvRun "cmd" []],
                      Host.mkBuffer (Host.lines ["> cmd"; "> echo 'x"; EmptyString]) None,
                      Some (Errorf "t.txt:N: "
                              (Errorf2 ParseError (errors.New "unterminated quoted argument")))))
    by (vm_compute; reflexivity).
  split; [exact H|].
  exact (Execute_error_located Host.Write Host.callWait Host.ExpandEnv Host.pflagParse
           Host.ListCmds Host.F 2 Host.engine (Host.init 0) "t.txt" _ Host.newBuffer _ _ _ _ H).
Defined.


Lemma parse_error_ends_script_witness :
  exists s' w' err,
    Host.run 2 (Host.init 0) (Host.lines ["cmd"; "! ! cmd"; "cmd"]) Host.newBuffer
    = Some (s', [EvRun "cmd" []], w', Some err)
    /\ errors.Is_ParseError err = true
    /\ err = Errorf "t.txt:N: "
               (Errorf2 ParseError (errors.New "duplicated '!', '?', '*' or '!*' token")).
Proof.
  apply (parse_error_ends_script Host.Write Host.callWait Host.ExpandEnv Host.pflagParse
           Host.ListCmds Host.F 1 Host.engine (Host.init 0) "t.txt"
           (Host.lines ["cmd"; "! ! cmd"; "cmd"]) Host.newBuffer
           (mkFrame (set_Flags (Some tt) (Logf ("> cmd" +:+ LF) (Host.init 0)))
                    [EvRun "cmd" []] Host.newBuffer (Host.lines ["! ! cmd"; "cmd"]) 1 false
                    [mkCommand "t.txt" 1 success [] "cmd" [] [] [] false])
           "! ! cmd" "cmd"
           (errors.New "duplicated '!', '?', '*' or '!*' token")).
  - intros fuel. reflexivity.
  - reflexivity.
  - reflexivity.
  - reflexivity.
  - reflexivity.
Defined.

Lemma ExecuteLine_returns_stop_witness :
  Host.runLine (Host.init 0) "stop now" Host.newBuffer
  = (set_Flags (Some tt) (Host.init 0), [EvRun "stop" ["now"]],
     Host.mkBuffer ("stop: now" +:+ LF) None,
     Some (CommandError "<stdin>" 0 "stop" ["now"] (stopError "now"))).
Proof.
  unfold Host.runLine. etransitivity.
  - apply (ExecuteLine_returns_stop Host.Write Host.callWait Host.ExpandEnv Host.pflagParse
             Host.ListCmds Host.F Host.engine (Host.init 0) "stop now" Host.newBuffer
             (mkCommand "<stdin>" 0 success [] "stop" [[mkFrag "now" false]] [] [] false)
             (Host.init 0) []
             (set_Flags (Some tt) (Host.init 0)) [EvRun "stop" ["now"]]
             (mkCommand "<stdin>" 0 success [] "stop" [[mkFrag "now" false]] ["now"] ["now"]
                        false)
             (CommandError "<stdin>" 0 "stop" ["now"] (stopError "now"))
             (stopError "now")).
    + reflexivity.
    + reflexivity.
    + vm_compute; reflexivity.
    + reflexivity.
  - reflexivity.
Defined.

Lemma ExecuteLine_parse_error_unwrapped_witness :
  Host.runLine (Host.init 0) "echo 'x" Host.newBuffer
  = (Host.init 0, [], Host.newBuffer, Some (errors.New "unterminated quoted argument"))
  /\ errors.Is_ParseError (errors.New "unterminated quoted argument") = false.
Proof.
  apply (ExecuteLine_parse_error_unwrapped Host.Write Host.callWait Host.ExpandEnv
           Host.pflagParse Host.ListCmds Host.F Host.engine (Host.init 0) "echo 'x"
           Host.newBuffer (errors.New "unterminated quoted argument")).
  reflexivity.
Defined.

Lemma ListConds_without_state_witness :
  ListConds Host.Write Host.F Host.engine Host.newBuffer None (Some ["always-true"])
  = (Host.mkBuffer ("[always-true]" +:+ LF +:+ TAB +:+ LF) None, None, [], None)
  /\ @None Host.state = None /\ @nil event = [].
Proof.
  split; [vm_compute; reflexivity|].
  apply (ListConds_without_state Host.F Host.Write Host.engine Host.newBuffer
           (Some ["always-true"]) (Host.mkBuffer ("[always-true]" +:+ LF +:+ TAB +:+ LF) None)
           None [] None).
  vm_compute; reflexivity.
Defined.

Lemma host_condition_names (n : string) :
  is_Some (Conds Host.engine !! n) -> hasByte ":" n = false.
Proof.
  intros [c H]. cbn [Conds Host.engine] in H.
  destruct (decide (n = "always-false")) as [->|Hf]; [reflexivity|].
  rewrite lookup_insert_ne in H by congruence.
  destruct (decide (n = "always-true")) as [->|Ht]; [reflexivity|].
  rewrite lookup_insert_ne in H by congruence.
  rewrite lookup_empty in H. discriminate.
Qed.

Lemma ListConds_lists_all_witness :
  exists entries s' tr,
    ListConds recWrite Host.F Host.engine [] (Some (Host.init 0)) None
    = ([] ++ entries, s', tr, None)
    /\ Forall2 (fun n entry => exists mark, entry = condLine Host.engine n mark)
               (sortStrings (condNames Host.engine)) entries
    /\ Sorted (fun a b => Is_true (String.leb a b)) (sortStrings (condNames Host.engine))
    /\ NoDup (sortStrings (condNames Host.engine))
    /\ (forall n, n ∈ sortStrings (condNames Host.engine)
                  <-> is_Some (Conds Host.engine !! n)).
Proof.
  apply (ListConds_lists_all Host.F Host.engine [] (Some (Host.init 0))).
  exact host_condition_names.
Defined.

(** The listing of the conditions of the host, with a State. *)
Lemma host_conditions_listed :
  ListConds recWrite Host.F Host.engine [] (Some (Host.init 0)) None
  = (["[always-false]" +:+ LF +:+ TAB +:+ LF;
      "[always-true] (active)" +:+ LF +:+ TAB +:+ LF],
     Some (Host.init 0),
     [EvEval "always-false" EmptyString; EvEval "always-true" EmptyString], None).
Proof. vm_compute. reflexivity. Qed.

Lemma unknown_condition_is_error_witness :
  hasByte ":" (tag (mkCond false "nosuch")) = false
  /\ Conds Host.engine !! tag (mkCond false "nosuch") = None
  /\ conditionsActive Host.F Host.engine (Host.init 0) []
       ([mkCond true "always-true"] ++ mkCond false "nosuch" :: [mkCond true "always-false"])
     = (Host.init 0, [EvEval "always-true" EmptyString], false,
        Some (errors.New "unknown condition <nosuch>")).
Proof.
  split; [reflexivity|]. split; [reflexivity|].
  apply (unknown_condition_is_error Host.F Host.engine (Host.init 0) []
           [mkCond true "always-true"] (mkCond false "nosuch") [mkCond true "always-false"]
           (Host.init 0) [EvEval "always-true" EmptyString]);
    reflexivity.
Defined.

Lemma endSection_quiet_witness :
  let f := mkFrame (Logf ("> cmd" +:+ LF) (Host.init 0)) [EvRun "cmd" []]
                   (Host.mkBuffer "# section" None) EmptyString 2 true
                   [mkCommand "t.txt" 2 success [] "cmd" [] [] [] false] in
  endSection Host.Write Host.F Host.quietEngine true f
  = (mkFrame (Host.init 0) [EvRun "cmd" []]
             (Host.mkBuffer ("# section (0.000s)" +:+ LF) None) EmptyString 2 false [],
     None)
  /\ endSection Host.Write Host.F Host.quietEngine false f
     = (mkFrame (Host.init 0) [EvRun "cmd" []]
                (Host.mkBuffer ("# section (0.000s)" +:+ LF +:+ "> cmd" +:+ LF) None)
                EmptyString 2 false [],
        None).
Proof.
  split.
  - etransitivity.
    + apply (endSection_quiet Host.Write Host.F Host.quietEngine true
               (mkFrame (Logf ("> cmd" +:+ LF) (Host.init 0)) [EvRun "cmd" []]
                        (Host.mkBuffer "# section" None) EmptyString 2 true
                        [mkCommand "t.txt" 2 success [] "cmd" [] [] [] false])
               (Host.mkBuffer ("# section (0.000s)" +:+ LF) None) None).
      * reflexivity.
      * discriminate.
      * reflexivity.
    + reflexivity.
  - etransitivity.
    + apply (endSection_quiet Host.Write Host.F Host.quietEngine false
               (mkFrame (Logf ("> cmd" +:+ LF) (Host.init 0)) [EvRun "cmd" []]
                        (Host.mkBuffer "# section" None) EmptyString 2 true
                        [mkCommand "t.txt" 2 success [] "cmd" [] [] [] false])
               (Host.mkBuffer ("# section (0.000s)" +:+ LF) None) None).
      * reflexivity.
      * discriminate.
      * reflexivity.
    + reflexivity.
Defined.
